(** * jepl: the recursive-descent parser of [parser.go]

    A shallow embedding of the parser ([parser.go]) together with the
    properties of its expression, statement and quoting code.

    The parser pulls tokens from a buffered scanner, classifies them with
    the token table and walks the tree it builds with the AST visitor.
    Those three collaborators live in other files of the repository; they
    enter this development as interfaces ([Lexicon], [TokenSource],
    [Runtime]) so that every general statement holds for all of their
    implementations, and a reference implementation (module [Ref]) is
    used to run the parser on query text.

    Text is a sequence of runes; the model takes the runes of one byte,
    which are the ones the grammar gives a meaning to. *)

From Stdlib Require Import String Ascii List ZArith Bool Lia.
From stdpp Require Import gmap strings.
Import ListNotations.

Local Open Scope string_scope.
Local Open Scope Z_scope.

(* ================================================================== *)
(** ** Tokens and positions *)

(** Modelled from the spec: the token-kind enumeration (token.go is not
    part of the sources).  The kinds are the ones the grammar names:
    the special kinds, the literal kinds, the operators and the keywords
    of the SELECT dialect.  [ILLEGAL] is the zero value of the type. *)
Inductive Token : Type :=
  | ILLEGAL | EOF | WS
  | IDENT | BOUNDPARAM | NUMBER | INTEGER | STRING | BADSTRING | BADESCAPE
  | TRUE | FALSE | REGEX | BADREGEX
  | ADD | SUB | MUL | DIV
  | AND | OR
  | EQ | NEQ | EQREGEX | NEQREGEX | LT | LTE | GT | GTE
  | LPAREN | RPAREN | COMMA | COLON | DOUBLECOLON | SEMICOLON | DOT
  | AS | FROM | SELECT | WHERE.

Definition Token_eq_dec (a b : Token) : {a = b} + {a <> b}.
Proof. decide equality. Defined.

Definition tok_eqb (a b : Token) : bool :=
  if Token_eq_dec a b then true else false.

(** [Pos]: a position in the query text, zero-indexed. *)
Record Pos : Type := mkPos { Line : Z; Char : Z }.

Definition zeroPos : Pos := mkPos 0 0.

(** Modelled from the spec: a rune of the input, and [eof], the rune the
    reader returns at the end of the input (scanner.go is not part of
    the sources). *)
Definition rune : Type := ascii.
Definition eof : rune := Ascii.zero.

Definition rune_eqb (a b : ascii) : bool := Ascii.eqb a b.

(** What one call of the scanner returns: kind, position, lexeme. *)
Definition TokInfo : Type := (Token * Pos * string)%type.

(* ================================================================== *)
(** ** Text helpers of the Go runtime used by the parser *)

(** Modelled from the spec: [IsRegexOp] (not part of the sources): the
    two regex-match operators. *)
Definition IsRegexOp (t : Token) : bool :=
  match t with EQREGEX | NEQREGEX => true | _ => false end.

Definition digit_char (d : Z) : ascii :=
  ascii_of_nat (Z.to_nat (48 + d)).

(** Decimal digits of a non-negative number, most significant first;
    [fuel] bounds the number of digits. *)
Fixpoint digits_of (fuel : nat) (n : Z) (acc : string) : string :=
  match fuel with
  | O => acc
  | S f =>
      let acc' := String (digit_char (n mod 10)) acc in
      if n <? 10 then acc' else digits_of f (n / 10) acc'
  end.

(** [fmt.Sprintf("%d", n)]. *)
Definition itoa (n : Z) : string :=
  if n <? 0
  then String "-" (digits_of (S (Z.to_nat (Z.log2 (- n)))) (- n) "")
  else digits_of (S (Z.to_nat (Z.log2 n))) n "".

(** [strings.Join]. *)
Fixpoint Join (l : list string) (sep : string) : string :=
  match l with
  | [] => ""
  | [x] => x
  | x :: rest => x ++ sep ++ Join rest sep
  end.

Definition lower_char (c : ascii) : ascii :=
  let n := nat_of_ascii c in
  if (andb (Nat.leb 65 n) (Nat.leb n 90)) then ascii_of_nat (n + 32) else c.

(** Lower-casing of the ASCII letters, every other byte kept: what
    [strings.ToLower] does on ASCII text.  The reference runtime and the
    reference keyword table use it. *)
Fixpoint asciiToLower (s : string) : string :=
  match s with
  | EmptyString => EmptyString
  | String c r => String (lower_char c) (asciiToLower r)
  end.

(** [strings.TrimPrefix(s, "$")]. *)
Definition TrimPrefix_dollar (s : string) : string :=
  match s with
  | String "$" r => r
  | _ => s
  end.

Definition dquote : ascii := ascii_of_nat 34.
Definition newline : ascii := ascii_of_nat 10.

(** [qiReplacer] and [qsReplacer]: single-character replacers. *)
Fixpoint qiReplace (s : string) : string :=
  match s with
  | EmptyString => EmptyString
  | String c r =>
      (if Ascii.eqb c newline then "\n"
       else if Ascii.eqb c "\" then "\\"
       else if Ascii.eqb c dquote then String "\" (String dquote EmptyString)
       else String c EmptyString) ++ qiReplace r
  end.

Fixpoint qsReplace (s : string) : string :=
  match s with
  | EmptyString => EmptyString
  | String c r =>
      (if Ascii.eqb c newline then "\n"
       else if Ascii.eqb c "\" then "\\"
       else if Ascii.eqb c "'" then "\'"
       else String c EmptyString) ++ qsReplace r
  end.

(* ================================================================== *)
(** ** Errors *)

(** [ParseError]: either a free-form message or a found/expected pair,
    with the position it is reported at. *)
Record ParseError : Type := mkParseError {
  Message : string;
  Found : string;
  Expected : list string;
  EPos : Pos
}.

(** [newParseError]. *)
Definition newParseError (found : string) (expected : list string) (pos : Pos)
  : ParseError :=
  mkParseError "" found expected pos.

(** [&ParseError{Message: msg, Pos: pos}]. *)
Definition messageError (msg : string) (pos : Pos) : ParseError :=
  mkParseError msg "" [] pos.

(** The value of a Go [int], 64 bits wide, for the result [n] of an
    addition: past the largest [int] it wraps around to the negative
    ones. *)
Definition wrapInt (n : Z) : Z := (n + 2 ^ 63) mod 2 ^ 64 - 2 ^ 63.

(** The position as [ParseError.Error] prints it, with [Line+1] and
    [Char+1] computed on [int]. *)
Definition posSuffix (p : Pos) : string :=
  " at line " ++ itoa (wrapInt (Line p + 1))
  ++ ", char " ++ itoa (wrapInt (Char p + 1)).

(** [ParseError.Error]: the rendering of a parse error. *)
Definition ParseError_Error (e : ParseError) : string :=
  if negb (String.eqb (Message e) "")
  then Message e ++ posSuffix (EPos e)
  else "found " ++ Found e ++ ", expected " ++ Join (Expected e) ", "
       ++ posSuffix (EPos e).

(** A Go [error] value returned by the parser: a [*ParseError], or a plain
    error made by [errors.New] / [fmt.Errorf]. *)
Inductive error : Type :=
  | EParse (e : ParseError)
  | EPlain (msg : string).

Definition error_Error (e : error) : string :=
  match e with
  | EParse pe => ParseError_Error pe
  | EPlain msg => msg
  end.

(* ================================================================== *)
(** ** The collaborators of the parser *)

(** The parts of the Go runtime the parser calls: 64-bit floats with
    [strconv.ParseFloat], compiled regular expressions with
    [regexp.Compile] (which returns the compiled value or an error text),
    and [strings.ToLower], the lower-casing of every letter of Unicode in
    a text. *)
Class Runtime : Type := {
  float64 : Type;
  ParseFloat : string -> option float64;
  Regexp : Type;
  regexp_Compile : string -> Regexp + string;
  ToLower : string -> string
}.

(** Modelled from the spec: the token-kind classification the parser
    consumes (token.go and scanner.go are not part of the sources):
    "is this token an operator", "what is its precedence" (higher binds
    tighter), the printed name of a kind, the keyword table behind
    [Lookup], and the character classes of bare identifiers and of
    whitespace. *)
Class Lexicon : Type := {
  isOperator : Token -> bool;
  Precedence : Token -> Z;
  Token_String : Token -> string;
  Lookup : string -> Token;
  isWhitespace : rune -> bool;
  isIdentFirstChar : rune -> bool;
  isIdentChar : rune -> bool
}.

(** Modelled from the spec: the Token Source the parser pulls from
    (the buffered scanner of scanner.go is not part of the sources):
    [Scan], [Unscan] for pushback, [ScanRegex] for the regex lexing mode,
    and the rune reader under the scanner with [ReadRune] / [UnreadRune],
    which [peekRune] uses. *)
Class TokenSource : Type := {
  bufScanner : Type;
  newBufScanner : string -> bufScanner;
  Scan : bufScanner -> TokInfo * bufScanner;
  Unscan : bufScanner -> bufScanner;
  ScanRegex : bufScanner -> TokInfo * bufScanner;
  ReadRune : bufScanner -> rune * bufScanner;
  UnreadRune : bufScanner -> bufScanner
}.

(** Modelled from the spec: [tokstr], the text of a token in a
    found/expected error (scanner.go is not part of the sources): the
    lexeme when there is one, the printed name of the kind otherwise. *)
Definition tokstr `{Lexicon} (tok : Token) (lit : string) : string :=
  if negb (String.eqb lit "") then lit else Token_String tok.

(** [strconv.ParseInt(lit, 10, 64)]: an optional sign, decimal digits, and
    the range of a 64-bit signed integer. *)
Fixpoint digits_val (s : string) (acc : Z) : option Z :=
  match s with
  | EmptyString => Some acc
  | String c r =>
      let n := Z.of_nat (nat_of_ascii c) in
      if (48 <=? n) && (n <=? 57) then digits_val r (10 * acc + (n - 48))
      else None
  end.

Definition ParseInt (s : string) : option Z :=
  let unsigned (d : string) :=
    match d with
    | EmptyString => None
    | _ => digits_val d 0
    end in
  let v :=
    match s with
    | String "+" r => unsigned r
    | String "-" r => option_map Z.opp (unsigned r)
    | _ => unsigned s
    end in
  match v with
  | Some n => if (- 2 ^ 63 <=? n) && (n <=? 2 ^ 63 - 1) then Some n else None
  | None => None
  end.

(* ================================================================== *)
(** ** The AST the parser builds *)

(** Modelled from the spec: the AST node types (ast.go is not part of the
    sources), as the data model of the spec lists them. *)
Module DataType.
Inductive t : Type := Unknown | Float | Integer | String | Boolean.
End DataType.

#[local] Set Warnings "-register-all".

Section AST.
Context `{Runtime}.

(** [Expr]: the expression nodes.  [NilExpr] is the nil value of the Go
    interface, which is what an unset [Expr] field holds. *)
Inductive Expr : Type :=
  | NilExpr
  | VarRef (Val : string) (Type_ : DataType.t)
  | StringLiteral (Val : string)
  | NumberLiteral (Val : float64)
  | IntegerLiteral (Val : Z)
  | BooleanLiteral (Val : bool)
  | RegexLiteral (Val : Regexp)
  | Call (Name : string) (Args : list Expr)
  | BinaryExpr (Op : Token) (LHS RHS : Expr)
  | ParenExpr (e : Expr).

Record Field : Type := mkField { FExpr : Expr; Alias : string }.

Definition Fields : Type := list Field.

(** [Measurement], the one kind of [Source]. *)
Record Measurement : Type := mkMeasurement {
  Database : string;
  RetentionPolicy : string;
  Name : string;
  Regex : option Regexp
}.

Definition Sources : Type := list Measurement.

Record SelectStatement : Type := mkSelectStatement {
  SFields : Fields;
  SSources : Sources;
  Condition : Expr;
  IsRawQuery : bool
}.

(** [Statement]: only the SELECT statement is populated. *)
Inductive Statement : Type :=
  | StmtSelect (s : SelectStatement).

Record Query : Type := mkQuery { Statements : list Statement }.

(** The nodes the visitor walk is started on. *)
Inductive Node : Type :=
  | NFields (fs : Fields)
  | NField (f : Field)
  | NExpr (e : Expr).

(** A value of the caller's parameter map, by its run-time type; every
    type the parser does not bind is [POther] with its printed type. *)
Inductive ParamValue : Type :=
  | PFloat64 (v : float64)
  | PInt64 (v : Z)
  | PString (v : string)
  | PBool (v : bool)
  | POther (typeName : string).

(** *** The visitor walk *)

(** Modelled from the spec: [Walk] (ast.go is not part of the sources):
    a nil node is skipped; the visitor is called on the node and either
    stops ([false]) or continues, in which case the children are walked
    in order.  The visitor's state is threaded through the walk, as the
    Go visitors here update themselves in place. *)
Section Walk.
Context {V : Type} (Visit : V -> Node -> V * bool).

Fixpoint WalkExpr (v : V) (e : Expr) : V :=
  match e with
  | NilExpr => v
  | _ =>
      let '(v1, cont) := Visit v (NExpr e) in
      if cont then
        match e with
        | BinaryExpr _ l r => WalkExpr (WalkExpr v1 l) r
        | Call _ args => fold_left WalkExpr args v1
        | ParenExpr x => WalkExpr v1 x
        | _ => v1
        end
      else v1
  end.

Definition WalkField (v : V) (f : Field) : V :=
  let '(v1, cont) := Visit v (NField f) in
  if cont then WalkExpr v1 (FExpr f) else v1.

Definition WalkFields (v : V) (fs : Fields) : V :=
  let '(v1, cont) := Visit v (NFields fs) in
  if cont then fold_left WalkField fs v1 else v1.

Definition Walk (v : V) (n : Node) : V :=
  match n with
  | NFields fs => WalkFields v fs
  | NField f => WalkField v f
  | NExpr e => WalkExpr v e
  end.
End Walk.

(** Modelled from the spec: [WalkFunc] (ast.go is not part of the
    sources): the walk with a visitor that calls [fn] on every node and
    never stops. *)
Definition WalkFunc {V : Type} (n : Node) (fn : V -> Node -> V) (v : V) : V :=
  Walk (fun v n => (fn v n, true)) v n.

(** [validateField]: the visitor that rejects the operators that return
    a boolean. *)
Record validateField : Type := mkValidateField {
  foundInvalid : bool;
  badToken : Token
}.

(** [validateField.Visit]. *)
Definition validateField_Visit (c : validateField) (n : Node)
  : validateField * bool :=
  match n with
  | NExpr (BinaryExpr op _ _) =>
      match op with
      | EQ | NEQ | EQREGEX | NEQREGEX | LT | LTE | GT | GTE | AND | OR =>
          (mkValidateField true op, false)
      | _ => (c, true)
      end
  | _ => (c, true)
  end.
End AST.

(* ================================================================== *)
(** ** Quoting identifiers *)

Section Quoting.
Context `{Lexicon}.

(** The loop of [IdentNeedsQuotes] over the runes, [first] telling
    whether the rune is at index 0. *)
Fixpoint badIdentRunes (first : bool) (s : string) : bool :=
  match s with
  | EmptyString => false
  | String r rest =>
      if first && negb (isIdentFirstChar r) then true
      else if negb first && negb (isIdentChar r) then true
      else badIdentRunes false rest
  end.

(** [IdentNeedsQuotes]. *)
Definition IdentNeedsQuotes (ident : string) : bool :=
  if negb (tok_eqb (Lookup ident) IDENT) then true
  else badIdentRunes true ident.

Definition quoteIf (needQuote : bool) : string :=
  if needQuote then String dquote EmptyString else "".

(** [QuoteIdent]: the loop over the segments; the segment at hand is the
    last one when nothing follows it. *)
Fixpoint QuoteIdent (segments : list string) : string :=
  match segments with
  | [] => ""
  | segment :: rest =>
      let notLast := match rest with [] => false | _ => true end in
      let needQuote :=
        IdentNeedsQuotes segment
        || (notLast && negb (String.eqb segment "")) in
      quoteIf needQuote ++ qiReplace segment ++ quoteIf needQuote
      ++ (if notLast then "." else "") ++ QuoteIdent rest
  end.

(** [QuoteString]. *)
Definition QuoteString (s : string) : string :=
  "'" ++ qsReplace s ++ "'".
End Quoting.

(* ================================================================== *)
(** ** The parser *)

(** The outcome of a parser method: a value and the scanner after it, an
    error, or the end of the fuel that bounds the loops and the
    recursion of the model. *)
Inductive result (St A : Type) : Type :=
  | Ok (a : A) (s : St)
  | Err (e : error)
  | OutOfFuel.
Arguments Ok {St A} a s.
Arguments Err {St A} e.
Arguments OutOfFuel {St A}.

Section Parser.
Context `{Runtime} `{Lexicon} `{TokenSource}.

(** [Parser.params]: the bound parameters, set by [SetParams]. *)
Variable params : gmap string ParamValue.

(** Modelled from the spec: the validation hook of a SELECT statement
    ([SelectStatement.validate] is not part of the sources): a check
    whose error, if any, is returned as it is. *)
Variable validate : SelectStatement -> option error.

Definition M (A : Type) : Type := bufScanner -> result bufScanner A.

Definition ret {A} (a : A) : M A := fun s => Ok a s.
Definition fail {A} (e : error) : M A := fun _ => Err e.
Definition bind {A B} (m : M A) (k : A -> M B) : M B :=
  fun s => match m s with
           | Ok a s' => k a s'
           | Err e => Err e
           | OutOfFuel => OutOfFuel
           end.

Notation "'let*' x ':=' m 'in' k" := (bind m (fun x => k))
  (at level 10, x name, m at level 100, k at level 200).
Notation "'let*' ' p ':=' m 'in' k" :=
  (bind m (fun x => match x with p => k end))
  (at level 10, p pattern, m at level 100, k at level 200).
Notation "m1 ';;' m2" := (bind m1 (fun _ => m2))
  (at level 100, m2 at level 200, right associativity).

(** [scan], [unscan]. *)
Definition scan : M TokInfo := fun s => let '(t, s') := Scan s in Ok t s'.
Definition unscan : M unit := fun s => Ok tt (Unscan s).

(** [scanIgnoreWhitespace]. *)
Definition scanIgnoreWhitespace : M TokInfo :=
  let* '(tok, pos, lit) := scan in
  if tok_eqb tok WS then scan else ret (tok, pos, lit).

(** [consumeWhitespace]. *)
Definition consumeWhitespace : M unit :=
  let* '(tok, _, _) := scan in
  if negb (tok_eqb tok WS) then unscan else ret tt.

(** [peekRune]. *)
Definition peekRune : M rune :=
  fun s =>
    let '(r, s1) := ReadRune s in
    if negb (rune_eqb r eof) then Ok r (UnreadRune s1) else Ok r s1.

(** [parseIdent]. *)
Definition parseIdent : M string :=
  let* '(tok, pos, lit) := scanIgnoreWhitespace in
  if negb (tok_eqb tok IDENT)
  then fail (EParse (newParseError (tokstr tok lit) ["identifier"] pos))
  else ret lit.

(** The loop of [parseSegmentedIdents]. *)
Fixpoint segmentsLoop (fuel : nat) (idents : list string)
  : M (list string) :=
  match fuel with
  | O => fun _ => OutOfFuel
  | S fuel' =>
      let* '(tok, _, _) := scan in
      if negb (tok_eqb tok DOT) then
        unscan ;; ret idents
      else
        let* ch := peekRune in
        if rune_eqb ch "/" then ret idents
        else if rune_eqb ch ":" then ret idents
        else if rune_eqb ch "." then segmentsLoop fuel' (idents ++ [""])%list
        else
          let* ident := parseIdent in
          segmentsLoop fuel' (idents ++ [ident])%list
  end.

(** [parseSegmentedIdents]. *)
Definition parseSegmentedIdents (fuel : nat) : M (list string) :=
  let* ident := parseIdent in
  let* idents := segmentsLoop fuel [ident] in
  if (3 <? length idents)%nat then
    fail (EParse (messageError
                    ("too many segments in " ++ QuoteIdent idents) zeroPos))
  else ret idents.

(** [parseRegex]: [None] is the nil literal of "no regex here". *)
Definition parseRegex : M (option Regexp) :=
  let* nextRune := peekRune in
  (if isWhitespace nextRune then consumeWhitespace else ret tt) ;;
  let* nextRune := peekRune in
  if negb (rune_eqb nextRune "/") then ret None
  else
    let* '(tok, pos, lit) := (fun s => let '(t, s') := ScanRegex s in Ok t s') in
    if tok_eqb tok BADESCAPE then
      fail (EParse (messageError ("bad escape: " ++ lit) pos))
    else if tok_eqb tok BADREGEX then
      fail (EParse (messageError ("bad regex: " ++ lit) pos))
    else if negb (tok_eqb tok REGEX) then
      fail (EParse (newParseError (tokstr tok lit) ["regex"] pos))
    else
      match regexp_Compile lit with
      | inr msg => fail (EParse (messageError msg pos))
      | inl re => ret (Some re)
      end.

(** [parseVarRef]. *)
Definition typeNames : list string :=
  ["float"; "integer"; "string"; "boolean"; "field"; "tag"].

Definition parseVarRef (fuel : nat) : M Expr :=
  let* segments := parseSegmentedIdents fuel in
  let* '(tok, _, _) := scan in
  let* dtype :=
    if tok_eqb tok DOUBLECOLON then
      let* '(tok, pos, lit) := scan in
      match tok with
      | IDENT =>
          let l := ToLower lit in
          if String.eqb l "float" then ret DataType.Float
          else if String.eqb l "integer" then ret DataType.Integer
          else if String.eqb l "string" then ret DataType.String
          else if String.eqb l "boolean" then ret DataType.Boolean
          else fail (EParse (newParseError (tokstr tok lit) typeNames pos))
      | _ => fail (EParse (newParseError (tokstr tok lit) typeNames pos))
      end
    else unscan ;; ret DataType.Unknown in
  ret (VarRef (Join segments ".") dtype).

(** *** Expressions *)

(** [&BinaryExpr{}]: the dummy root node of [ParseExpr]; only its
    right-hand side is ever set. *)
Definition emptyBinaryExpr : Expr := BinaryExpr ILLEGAL NilExpr NilExpr.

Definition getRHS (node : Expr) : Expr :=
  match node with
  | BinaryExpr _ _ r => r
  | _ => NilExpr
  end.

Definition setRHS (node rhs : Expr) : Expr :=
  match node with
  | BinaryExpr op l _ => BinaryExpr op l rhs
  | _ => node
  end.

(** The inner loop of [ParseExpr], started at [node]: it looks at the
    right-hand side [r] of the node; when [r] is not a [BinaryExpr], or
    its operator has a precedence [>=] the one of [op], the new
    expression replaces the right-hand side of the node; otherwise the
    loop goes on at [r].  The result is the node after the update made
    below it. *)
Fixpoint insertOperator (node : Expr) (op : Token) (rhs : Expr) : Expr :=
  match node with
  | BinaryExpr nop nl nr =>
      match nr with
      | BinaryExpr rop _ _ =>
          if Precedence rop >=? Precedence op
          then BinaryExpr nop nl (BinaryExpr op nr rhs)
          else BinaryExpr nop nl (insertOperator nr op rhs)
      | _ => BinaryExpr nop nl (BinaryExpr op nr rhs)
      end
  | _ => node
  end.

(** [ParseExpr], [parseCall] and [parseUnaryExpr] call each other; the
    first two are written over the unary parser they call, and
    [parseUnaryExpr] closes the recursion. *)
Section OverUnary.
Variable parseUnaryExpr_rec : M Expr.

(** The right-hand side of an operator in [ParseExpr]. *)
Definition parseOperand (op : Token) : M Expr :=
  if IsRegexOp op then
    consumeWhitespace ;;
    let* re := parseRegex in
    match re with
    | None =>
        let* '(tok, pos, lit) := scanIgnoreWhitespace in
        fail (EParse (newParseError (tokstr tok lit) ["regex"] pos))
    | Some r => ret (RegexLiteral r)
    end
  else parseUnaryExpr_rec.

(** The outer loop of [ParseExpr]. *)
Fixpoint exprLoop (fuel : nat) (root : Expr) : M Expr :=
  match fuel with
  | O => fun _ => OutOfFuel
  | S fuel' =>
      let* '(op, _, _) := scanIgnoreWhitespace in
      if negb (isOperator op) then
        unscan ;; ret (getRHS root)
      else
        let* rhs := parseOperand op in
        exprLoop fuel' (insertOperator root op rhs)
  end.

Definition ParseExpr_over (fuel : nat) : M Expr :=
  let* first := parseUnaryExpr_rec in
  exprLoop fuel (setRHS emptyBinaryExpr first).

(** The loop of [parseCall] over the other arguments. *)
Fixpoint callArgsLoop (fuel : nat) (args : list Expr) : M (list Expr) :=
  match fuel with
  | O => fun _ => OutOfFuel
  | S fuel' =>
      let* '(tok, _, _) := scanIgnoreWhitespace in
      if negb (tok_eqb tok COMMA) then
        unscan ;; ret args
      else
        let* re := parseRegex in
        match re with
        | Some r => callArgsLoop fuel' (args ++ [RegexLiteral r])%list
        | None =>
            let* arg := ParseExpr_over fuel' in
            callArgsLoop fuel' (args ++ [arg])%list
        end
  end.

(** [parseCall]: the name and the left parenthesis are consumed. *)
Definition parseCall_over (fuel : nat) (name : string) : M Expr :=
  let name := ToLower name in
  let rest (args : list Expr) : M Expr :=
    let* args := callArgsLoop fuel args in
    let* '(tok, pos, lit) := scan in
    if negb (tok_eqb tok RPAREN) then
      fail (EParse (newParseError (tokstr tok lit) [")"] pos))
    else ret (Call name args) in
  let* re := parseRegex in
  match re with
  | Some r => rest [RegexLiteral r]
  | None =>
      let* '(tok, _, _) := scan in
      if tok_eqb tok RPAREN then ret (Call name [])
      else
        unscan ;;
        let* arg := ParseExpr_over fuel in
        rest [arg]
  end.
End OverUnary.

(** The [BOUNDPARAM] case of [parseUnaryExpr]. *)
Definition bindParameter (lit : string) : M Expr :=
  let k := TrimPrefix_dollar lit in
  if (String.length k =? 0)%nat then
    fail (EPlain "empty bound parameter")
  else
    match params !! k with
    | None => fail (EPlain ("missing parameter: " ++ k))
    | Some (PFloat64 v) => ret (NumberLiteral v)
    | Some (PInt64 v) => ret (IntegerLiteral v)
    | Some (PString v) => ret (StringLiteral v)
    | Some (PBool v) => ret (BooleanLiteral v)
    | Some (POther ty) =>
        fail (EPlain ("unable to bind parameter with type " ++ ty))
    end.

(** [parseUnaryExpr]. *)
Fixpoint parseUnaryExpr (fuel : nat) : M Expr :=
  match fuel with
  | O => fun _ => OutOfFuel
  | S fuel' =>
      let* '(tok, _, _) := scanIgnoreWhitespace in
      if tok_eqb tok LPAREN then
        let* expr := ParseExpr_over (parseUnaryExpr fuel') fuel' in
        let* '(tok, pos, lit) := scanIgnoreWhitespace in
        if negb (tok_eqb tok RPAREN) then
          fail (EParse (newParseError (tokstr tok lit) [")"] pos))
        else ret (ParenExpr expr)
      else
        unscan ;;
        let* '(tok, pos, lit) := scanIgnoreWhitespace in
        match tok with
        | IDENT =>
            let* '(tok0, _, _) := scan in
            if tok_eqb tok0 LPAREN then
              parseCall_over (parseUnaryExpr fuel') fuel' lit
            else
              unscan ;; unscan ;; parseVarRef fuel'
        | STRING => ret (StringLiteral lit)
        | NUMBER =>
            match ParseFloat lit with
            | None =>
                fail (EParse (messageError "unable to parse number" pos))
            | Some v => ret (NumberLiteral v)
            end
        | INTEGER =>
            match ParseInt lit with
            | None =>
                fail (EParse (messageError "unable to parse integer" pos))
            | Some v => ret (IntegerLiteral v)
            end
        | TRUE | FALSE => ret (BooleanLiteral (tok_eqb tok TRUE))
        | REGEX =>
            match regexp_Compile lit with
            | inr msg => fail (EParse (messageError msg pos))
            | inl re => ret (RegexLiteral re)
            end
        | BOUNDPARAM => bindParameter lit
        | _ =>
            fail (EParse (newParseError (tokstr tok lit)
                            ["identifier"; "string"; "number"; "bool"] pos))
        end
  end.

(** [ParseExpr]. *)
Definition ParseExpr (fuel : nat) : M Expr :=
  ParseExpr_over (parseUnaryExpr fuel) fuel.

(** [parseCall]. *)
Definition parseCall (fuel : nat) (name : string) : M Expr :=
  parseCall_over (parseUnaryExpr fuel) fuel name.

(** *** Fields *)

(** [parseAlias]. *)
Definition parseAlias : M string :=
  let* '(tok, _, _) := scanIgnoreWhitespace in
  if negb (tok_eqb tok AS) then unscan ;; ret ""
  else parseIdent.

Definition invalidOperatorMessage (bad : Token) (pos : Pos) : string :=
  "invalid operator " ++ Token_String bad ++ " in SELECT clause at line "
  ++ itoa (Line pos + 1) ++ ", char " ++ itoa (Char pos + 1)
  ++ "; operator is intended for WHERE clause".

(** [parseField]. *)
Definition parseField (fuel : nat) : M Field :=
  let* '(_, pos, _) := scanIgnoreWhitespace in
  unscan ;;
  let* expr := ParseExpr fuel in
  let c := Walk validateField_Visit (mkValidateField false ILLEGAL)
                (NExpr expr) in
  if foundInvalid c then
    fail (EPlain (invalidOperatorMessage (badToken c) pos))
  else
    let* alias := parseAlias in
    consumeWhitespace ;;
    ret (mkField expr alias).

(** [parseFields]. *)
Fixpoint fieldsLoop (fuel : nat) (fields : Fields) : M Fields :=
  match fuel with
  | O => fun _ => OutOfFuel
  | S fuel' =>
      let* f := parseField fuel' in
      let fields := (fields ++ [f])%list in
      let* '(tok, _, _) := scan in
      if negb (tok_eqb tok COMMA) then unscan ;; ret fields
      else fieldsLoop fuel' fields
  end.

Definition parseFields (fuel : nat) : M Fields := fieldsLoop fuel [].

(** *** Sources *)

(** [parseSource]. *)
Definition parseSource (fuel : nat) : M Measurement :=
  let* re := parseRegex in
  match re with
  | Some r => ret (mkMeasurement "" "" "" (Some r))
  | None =>
      let* idents := parseSegmentedIdents fuel in
      match idents with
      | [a; b; c] => ret (mkMeasurement a b c None)
      | _ =>
          let* re := parseRegex in
          match idents with
          | [a] =>
              match re with
              | Some _ => ret (mkMeasurement "" a "" re)
              | None => ret (mkMeasurement "" "" a re)
              end
          | [a; b] =>
              match re with
              | Some _ => ret (mkMeasurement a b "" re)
              | None => ret (mkMeasurement "" a b re)
              end
          | _ => ret (mkMeasurement "" "" "" re)
          end
      end
  end.

(** [parseSources]. *)
Fixpoint sourcesLoop (fuel : nat) (sources : Sources) : M Sources :=
  match fuel with
  | O => fun _ => OutOfFuel
  | S fuel' =>
      let* src := parseSource fuel' in
      let sources := (sources ++ [src])%list in
      let* '(tok, _, _) := scanIgnoreWhitespace in
      if negb (tok_eqb tok COMMA) then unscan ;; ret sources
      else sourcesLoop fuel' sources
  end.

Definition parseSources (fuel : nat) : M Sources := sourcesLoop fuel [].

(** [parseCondition]: the nil expression when there is no WHERE. *)
Definition parseCondition (fuel : nat) : M Expr :=
  let* '(tok, _, _) := scanIgnoreWhitespace in
  if negb (tok_eqb tok WHERE) then unscan ;; ret NilExpr
  else ParseExpr fuel.

(** *** Statements and queries *)

(** The function [parseSelectStatement] hands to [WalkFunc]: a [Call]
    node clears the flag. *)
Definition clearOnCall (raw : bool) (n : Node) : bool :=
  match n with
  | NExpr (Call _ _) => false
  | _ => raw
  end.

(** [parseSelectStatement]: the SELECT token is consumed. *)
Definition parseSelectStatement (fuel : nat) : M SelectStatement :=
  let* fields := parseFields fuel in
  let* '(tok, pos, lit) := scanIgnoreWhitespace in
  if negb (tok_eqb tok FROM) then
    fail (EParse (newParseError (tokstr tok lit) ["FROM"] pos))
  else
    let* sources := parseSources fuel in
    let* cond := parseCondition fuel in
    let raw := WalkFunc (NFields fields) clearOnCall true in
    let stmt := mkSelectStatement fields sources cond raw in
    match validate stmt with
    | Some err => fail err
    | None => ret stmt
    end.

(** [ParseStatement]. *)
Definition ParseStatement (fuel : nat) : M Statement :=
  let* '(tok, pos, lit) := scanIgnoreWhitespace in
  match tok with
  | SELECT =>
      let* stmt := parseSelectStatement fuel in
      ret (StmtSelect stmt)
  | _ => fail (EParse (newParseError (tokstr tok lit) ["SELECT"] pos))
  end.

(** The loop of [ParseQuery]. *)
Fixpoint queryLoop (fuel : nat) (statements : list Statement) (semi : bool)
  : M Query :=
  match fuel with
  | O => fun _ => OutOfFuel
  | S fuel' =>
      let* '(tok, pos, lit) := scanIgnoreWhitespace in
      if tok_eqb tok EOF then ret (mkQuery statements)
      else if tok_eqb tok SEMICOLON then queryLoop fuel' statements true
      else if negb semi then
        fail (EParse (newParseError (tokstr tok lit) [";"] pos))
      else
        unscan ;;
        let* s := ParseStatement fuel' in
        queryLoop fuel' (statements ++ [s])%list false
  end.

(** [ParseQuery]. *)
Definition ParseQuery (fuel : nat) : M Query := queryLoop fuel [] true.
End Parser.


(* ================================================================== *)
(** ** The other methods of the parser *)

Section MoreParser.
Context `{Runtime} `{Lexicon} `{TokenSource}.

(** [strconv.Atoi]: the number, or the text of the error. *)
Variable Atoi : string -> Z + string.

(** [strconv.ParseUint(lit, 10, bitSize)]: the number, or the text of the
    error. *)
Variable ParseUint : string -> Z -> Z + string.

(** The number [strconv.ParseInt(lit, 10, 64)] returns, whatever its
    error: [parseOptionalTokenAndInt] drops the error. *)
Variable ParseInt_value : string -> Z.

Notation "'let*' x ':=' m 'in' k" := (bind m (fun x => k))
  (at level 10, x name, m at level 100, k at level 200).
Notation "'let*' ' p ':=' m 'in' k" :=
  (bind m (fun x => match x with p => k end))
  (at level 10, p pattern, m at level 100, k at level 200).
Notation "m1 ';;' m2" := (bind m1 (fun _ => m2))
  (at level 100, m2 at level 200, right associativity).

Definition invalidValueMessage (n min max : Z) : string :=
  "invalid value " ++ itoa n ++ ": must be " ++ itoa min ++ " <= n <= "
  ++ itoa max.

(** [parseInt]. *)
Definition parseInt (min max : Z) : M Z :=
  let* '(tok, pos, lit) := scanIgnoreWhitespace in
  if negb (tok_eqb tok INTEGER) then
    fail (EParse (newParseError (tokstr tok lit) ["integer"] pos))
  else
    match Atoi lit with
    | inr msg => fail (EParse (messageError msg pos))
    | inl n =>
        if (min >? n) || (n >? max) then
          fail (EParse (messageError (invalidValueMessage n min max) pos))
        else ret n
    end.



(** The loop of [parseIdentList]. *)
Fixpoint identListLoop (fuel : nat) (idents : list string)
  : M (list string) :=
  match fuel with
  | O => fun _ => OutOfFuel
  | S fuel' =>
      let* '(tok, _, _) := scanIgnoreWhitespace in
      if negb (tok_eqb tok COMMA) then
        unscan ;; ret idents
      else
        let* ident := parseIdent in
        identListLoop fuel' (idents ++ [ident])%list
  end.

(** [parseIdentList]. *)
Definition parseIdentList (fuel : nat) : M (list string) :=
  let* ident := parseIdent in
  identListLoop fuel [ident].

(** [parseString]. *)
Definition parseString : M string :=
  let* '(tok, pos, lit) := scanIgnoreWhitespace in
  if negb (tok_eqb tok STRING)
  then fail (EParse (newParseError (tokstr tok lit) ["string"] pos))
  else ret lit.

(** The loop of [parseStringList]. *)
Fixpoint stringListLoop (fuel : nat) (strs : list string)
  : M (list string) :=
  match fuel with
  | O => fun _ => OutOfFuel
  | S fuel' =>
      let* '(tok, _, _) := scanIgnoreWhitespace in
      if negb (tok_eqb tok COMMA) then
        unscan ;; ret strs
      else
        let* str := parseString in
        stringListLoop fuel' (strs ++ [str])%list
  end.

(** [parseStringList]. *)
Definition parseStringList (fuel : nat) : M (list string) :=
  let* str := parseString in
  stringListLoop fuel [str].

(** [parseOptionalTokenAndInt]. *)
Definition parseOptionalTokenAndInt (t : Token) : M Z :=
  let* '(tok, _, _) := scanIgnoreWhitespace in
  if negb (tok_eqb tok t) then
    unscan ;; ret 0
  else
    let* '(tok, pos, lit) := scanIgnoreWhitespace in
    if negb (tok_eqb tok INTEGER) then
      fail (EParse (newParseError (tokstr tok lit) ["integer"] pos))
    else
      let n := ParseInt_value lit in
      if n <? 0 then
        fail (EParse (messageError (Token_String t ++ " must be >= 0") pos))
      else ret n.

(** [parseTokens]. *)
Fixpoint parseTokens (toks : list Token) : M unit :=
  match toks with
  | [] => ret tt
  | expected :: rest =>
      let* '(tok, pos, lit) := scanIgnoreWhitespace in
      if negb (tok_eqb tok expected) then
        fail (EParse (newParseError (tokstr tok lit)
                        [Token_String expected] pos))
      else parseTokens rest
  end.

(** [parseTokenMaybe]. *)
Definition parseTokenMaybe (expected : Token) : M bool :=
  let* '(tok, _, _) := scanIgnoreWhitespace in
  if negb (tok_eqb tok expected) then
    unscan ;; ret false
  else ret true.

(** [split]: the runes of a text. *)
Definition split (s : string) : list rune := list_ascii_of_string s.
End MoreParser.

(* ================================================================== *)
(** ** Notions the properties are stated with *)

Section Notions.
Context `{Runtime} `{Lexicon}.

(** [subexpr a e]: the node [a] is [e] or lies below it, at any depth. *)
Inductive subexpr (a : Expr) : Expr -> Prop :=
  | sub_here : subexpr a a
  | sub_lhs op l r : subexpr a l -> subexpr a (BinaryExpr op l r)
  | sub_rhs op l r : subexpr a r -> subexpr a (BinaryExpr op l r)
  | sub_arg name args x :
      In x args -> subexpr a x -> subexpr a (Call name args)
  | sub_paren x : subexpr a x -> subexpr a (ParenExpr x).

(** An expression contains a function call. *)
Definition containsCall (e : Expr) : Prop :=
  exists name args, subexpr (Call name args) e.

(** The operators [validateField] rejects in a field: the comparisons
    and the boolean-logic operators. *)
Definition isBooleanOp (op : Token) : bool :=
  match op with
  | EQ | NEQ | EQREGEX | NEQREGEX | LT | LTE | GT | GTE | AND | OR => true
  | _ => false
  end.

(** An expression contains a binary expression with such an operator. *)
Definition containsBooleanOp (e : Expr) : Prop :=
  exists op l r, subexpr (BinaryExpr op l r) e /\ isBooleanOp op = true.

(** The two notions as functions, for running them on a tree. *)
Fixpoint hasCall (e : Expr) : bool :=
  match e with
  | Call _ _ => true
  | BinaryExpr _ l r => hasCall l || hasCall r
  | ParenExpr x => hasCall x
  | _ => false
  end.

Fixpoint hasBooleanOp (e : Expr) : bool :=
  match e with
  | BinaryExpr op l r => isBooleanOp op || hasBooleanOp l || hasBooleanOp r
  | Call _ args => existsb hasBooleanOp args
  | ParenExpr x => hasBooleanOp x
  | _ => false
  end.

Definition isBinaryExpr (e : Expr) : bool :=
  match e with
  | BinaryExpr _ _ _ => true
  | _ => false
  end.

(** [atom e]: the expression is not a binary expression. *)
Definition atom (e : Expr) : Prop := isBinaryExpr e = false.

(** The left operand of [op] may be a binary expression whose operator
    binds at least as tightly; the right operand only one whose operator
    binds strictly tighter. *)
Definition lhsFits (op : Token) (l : Expr) : bool :=
  match l with
  | BinaryExpr o _ _ => Precedence op <=? Precedence o
  | _ => true
  end.

Definition rhsFits (op : Token) (r : Expr) : bool :=
  match r with
  | BinaryExpr o _ _ => Precedence op <? Precedence o
  | _ => true
  end.

(** [ordered e]: the tree respects the precedence of the operators and
    groups operators of equal precedence to the left, at every binary
    expression in it. *)
Fixpoint ordered (e : Expr) : bool :=
  match e with
  | BinaryExpr op l r =>
      ordered l && ordered r && lhsFits op l && rhsFits op r
  | ParenExpr x => ordered x
  | Call _ args => forallb ordered args
  | _ => true
  end.

(** [nilFree e]: no node of the tree is the nil expression; the dummy
    root of [ParseExpr], whose left-hand side is nil, is then not in the
    tree. *)
Fixpoint nilFree (e : Expr) : bool :=
  match e with
  | NilExpr => false
  | BinaryExpr _ l r => nilFree l && nilFree r
  | ParenExpr x => nilFree x
  | Call _ args => forallb nilFree args
  | _ => true
  end.

(** [good e]: both hold. *)
Definition good (e : Expr) : Prop :=
  ordered e = true /\ nilFree e = true.

(** The right spine of a tree: the operators and left operands met on
    the way down the right-hand sides, and the expression the way ends
    at. *)
Fixpoint spine (t : Expr) : list (Token * Expr) :=
  match t with
  | BinaryExpr o l r => (o, l) :: spine r
  | _ => []
  end.

Fixpoint spineEnd (t : Expr) : Expr :=
  match t with
  | BinaryExpr _ _ r => spineEnd r
  | _ => t
  end.

Fixpoint rebuild (sp : list (Token * Expr)) (last : Expr) : Expr :=
  match sp with
  | [] => last
  | (o, l) :: sp' => BinaryExpr o l (rebuild sp' last)
  end.

(** The nodes of a spine that bind less tightly than [op], from the top,
    and the rest of the spine below them. *)
Fixpoint looser (op : Token) (sp : list (Token * Expr))
  : list (Token * Expr) :=
  match sp with
  | (o, l) :: sp' =>
      if Precedence o <? Precedence op then (o, l) :: looser op sp' else []
  | [] => []
  end.

Fixpoint fromTighter (op : Token) (sp : list (Token * Expr))
  : list (Token * Expr) :=
  match sp with
  | (o, l) :: sp' =>
      if Precedence o <? Precedence op then fromTighter op sp' else sp
  | [] => []
  end.

(** The insertion rule in the words of the specification: starting at
    the root, "descend along the right child as long as that child is
    itself a BinaryExpr whose operator has precedence >= the new
    operator's precedence; insert the new binary node at the point where
    this condition first fails". *)
Fixpoint insertPastTighterOrEqual (node : Expr) (op : Token) (rhs : Expr)
  : Expr :=
  match node with
  | BinaryExpr nop nl nr =>
      match nr with
      | BinaryExpr rop _ _ =>
          if Precedence rop >=? Precedence op
          then BinaryExpr nop nl (insertPastTighterOrEqual nr op rhs)
          else BinaryExpr nop nl (BinaryExpr op nr rhs)
      | _ => BinaryExpr nop nl (BinaryExpr op nr rhs)
      end
  | _ => node
  end.

(** What the field check finds in [e]: the flag is set, and the
    recorded token is a rejected operator of a binary expression of
    [e]. *)
Definition flagged (c : validateField) (e : Expr) : Prop :=
  foundInvalid c = true /\ isBooleanOp (badToken c) = true
  /\ exists l r, subexpr (BinaryExpr (badToken c) l r) e.

(** The kinds of error a parse returns: a [ParseError]; the plain error
    of the field check; the three plain errors of a bound parameter; and
    the error of the validation hook. *)
Inductive errorKind (validate : SelectStatement -> option error)
  : error -> Prop :=
  | kind_parse pe : errorKind validate (EParse pe)
  | kind_field bad pos :
      isBooleanOp bad = true ->
      errorKind validate (EPlain
        ("invalid operator " ++ Token_String bad
         ++ " in SELECT clause at line " ++ itoa (Line pos + 1)
         ++ ", char " ++ itoa (Char pos + 1)
         ++ "; operator is intended for WHERE clause"))
  | kind_empty_parameter :
      errorKind validate (EPlain "empty bound parameter")
  | kind_missing_parameter k :
      errorKind validate (EPlain ("missing parameter: " ++ k))
  | kind_unbound_type ty :
      errorKind validate
        (EPlain ("unable to bind parameter with type " ++ ty))
  | kind_validate stmt e :
      validate stmt = Some e -> errorKind validate e.

(** [endsWith s suffix]. *)
Definition endsWith (s suffix : string) : Prop :=
  exists front, s = front ++ suffix.

(** The last rune of a text. *)
Fixpoint lastRune (s : string) : option ascii :=
  match s with
  | EmptyString => None
  | String c EmptyString => Some c
  | String _ r => lastRune r
  end.

(** The quoting rule of [QuoteIdent] for one segment, [last] telling
    whether it is the final one. *)
Definition quoted_segment (last : bool) (segment : string) : bool :=
  negb (tok_eqb (Lookup segment) IDENT)
  || badIdentRunes true segment
  || (negb last && negb (String.eqb segment "")).

(** A segment as [QuoteIdent] writes it. *)
Definition render_segment (last : bool) (segment : string) : string :=
  if quoted_segment last segment
  then String dquote (qiReplace segment ++ String dquote EmptyString)
  else qiReplace segment.

Fixpoint render_segments (segments : list string) : list string :=
  match segments with
  | [] => []
  | [x] => [render_segment true x]
  | x :: rest => render_segment false x :: render_segments rest
  end.
End Notions.

(* ================================================================== *)
(** ** Notions for the shape of what the parser returns *)

Section Shapes.
Context `{Runtime} `{Lexicon} `{TokenSource}.

(** The operands and operators of an expression from left to right; an
    expression that is not a binary expression is one operand. *)
Fixpoint inorder (e : Expr) : list (Token + Expr) :=
  match e with
  | BinaryExpr op l r => (inorder l ++ inl op :: inorder r)%list
  | _ => [inr e]
  end.

(** The same sequence for an operand followed by operators with their
    right operands. *)
Fixpoint itemsInorder (items : list (Token * Expr)) : list (Token + Expr) :=
  match items with
  | [] => []
  | (op, rhs) :: rest => inl op :: (inorder rhs ++ itemsInorder rest)%list
  end.

(** [climbed e]: the tree of binary expressions at the top of [e]
    respects the precedence and groups equal precedence to the left; the
    operands are not looked into. *)
Fixpoint climbed (e : Expr) : bool :=
  match e with
  | BinaryExpr op l r => climbed l && climbed r && lhsFits op l && rhsFits op r
  | _ => true
  end.

(** The operators with their right operands that the loop of [ParseExpr]
    reads, without the tree: the loop stops at the first token that is no
    operator and pushes it back. *)
Fixpoint readItems (U : M Expr) (fuel : nat) : M (list (Token * Expr)) :=
  match fuel with
  | O => fun _ => OutOfFuel
  | S fuel' =>
      bind scanIgnoreWhitespace (fun '(op, _, _) =>
        if negb (isOperator op) then bind unscan (fun _ => ret [])
        else
          bind (parseOperand U op) (fun rhs =>
          bind (readItems U fuel') (fun rest => ret ((op, rhs) :: rest))))
  end.

(** The tree the insertions build from a root and such a sequence. *)
Definition buildTree (root : Expr) (items : list (Token * Expr)) : Expr :=
  fold_left (fun r '(op, rhs) => insertOperator r op rhs) items root.

(** [wellFormed e]: what every node of a parsed expression satisfies.  No
    node is nil; the operator of a binary expression is an operator
    token; the name of a call is what [ToLower] returned for a text; a
    regex literal holds a pattern that compiled. *)
Fixpoint wellFormed (e : Expr) : Prop :=
  match e with
  | NilExpr => False
  | RegexLiteral re => exists pattern, regexp_Compile pattern = inl re
  | Call name args =>
      (exists raw, name = ToLower raw)
      /\ (fix all (l : list Expr) : Prop :=
            match l with
            | [] => True
            | a :: l' => wellFormed a /\ all l'
            end) args
  | BinaryExpr op l r => isOperator op = true /\ wellFormed l /\ wellFormed r
  | ParenExpr x => wellFormed x
  | _ => True
  end.

End Shapes.

(* ================================================================== *)
(** ** Notions for the positions of errors *)

Section Positions.
Context `{Runtime} `{Lexicon} `{TokenSource}.
Variable validate : SelectStatement -> option error.

(** [reaches s s']: the token source [s'] is [s] after some calls of its
    methods. *)
Inductive reaches (s : bufScanner) : bufScanner -> Prop :=
  | reaches_here : reaches s s
  | reaches_Scan s1 : reaches s s1 -> reaches s (snd (Scan s1))
  | reaches_Unscan s1 : reaches s s1 -> reaches s (Unscan s1)
  | reaches_ScanRegex s1 : reaches s s1 -> reaches s (snd (ScanRegex s1))
  | reaches_ReadRune s1 : reaches s s1 -> reaches s (snd (ReadRune s1))
  | reaches_UnreadRune s1 : reaches s s1 -> reaches s (UnreadRune s1).

(** [scanned s t]: after some calls on [s], [Scan] or [ScanRegex]
    returns the token [t], with its position and its lexeme. *)
Definition scanned (s : bufScanner) (t : TokInfo) : Prop :=
  exists s1, reaches s s1 /\ (fst (Scan s1) = t \/ fst (ScanRegex s1) = t).

(** The error of [parseSegmentedIdents]: it is built without a
    position, so that it has the zero position. *)
Definition tooManySegments (pe : ParseError) : Prop :=
  exists idents,
    (3 < length idents)%nat
    /\ pe = messageError ("too many segments in " ++ QuoteIdent idents)
                         zeroPos.

(** [positioned s pe]: the position of the error is the position of a
    token the source returned; a found/expected error has the text of
    that token as what was found, and an error with a message has nothing
    found and nothing expected.  The one exception is the error above. *)
Definition positioned (s : bufScanner) (pe : ParseError) : Prop :=
  (exists tok lit,
      scanned s (tok, EPos pe, lit)
      /\ ((Message pe = "" /\ Found pe = tokstr tok lit)
          \/ (Found pe = "" /\ Expected pe = [])))
  \/ tooManySegments pe.

(** What holds of an error of a parse started at [s]: it is the error of
    the validation hook, or a plain error, or a positioned
    [ParseError]. *)
Definition located (s : bufScanner) (e : error) : Prop :=
  (exists stmt, validate stmt = Some e)
  \/ match e with
     | EParse pe => positioned s pe
     | EPlain _ => True
     end.

(** [tracks s0 m]: run on a token source that [s0] reaches, the method
    [m] leaves one that [s0] reaches, and its errors are located from
    [s0]. *)
Definition tracks (s0 : bufScanner) {A : Type} (m : M A) : Prop :=
  forall s, reaches s0 s ->
    match m s with
    | Ok _ s' => reaches s0 s'
    | Err e => located s0 e
    | OutOfFuel => True
    end.
End Positions.

(* ================================================================== *)
(** ** A reference lexicon, runtime and token source

    The general statements below hold for every implementation of the
    three interfaces.  To run the parser on query text, this part gives
    one implementation of each. *)

Module Ref.

Definition between (lo hi c : ascii) : bool :=
  (nat_of_ascii lo <=? nat_of_ascii c)%nat
  && (nat_of_ascii c <=? nat_of_ascii hi)%nat.

Definition isLetter (c : ascii) : bool :=
  between "a" "z" c || between "A" "Z" c.

Definition isDigit (c : ascii) : bool := between "0" "9" c.

Definition tab : ascii := ascii_of_nat 9.

(** Modelled from the spec: the token classification (token.go is not
    part of the sources).  The operators are the arithmetic, the
    comparison and the boolean-logic kinds; [*] and [/] bind tighter
    than [+] and [-], these tighter than the comparisons, these tighter
    than [AND], and [AND] tighter than [OR]. *)
Definition isOperator (t : Token) : bool :=
  match t with
  | ADD | SUB | MUL | DIV | AND | OR
  | EQ | NEQ | EQREGEX | NEQREGEX | LT | LTE | GT | GTE => true
  | _ => false
  end.

Definition Precedence (t : Token) : Z :=
  match t with
  | OR => 1
  | AND => 2
  | EQ | NEQ | EQREGEX | NEQREGEX | LT | LTE | GT | GTE => 3
  | ADD | SUB => 4
  | MUL | DIV => 5
  | _ => 0
  end.

Definition Token_String (t : Token) : string :=
  match t with
  | ILLEGAL => "ILLEGAL" | EOF => "EOF" | WS => "WS"
  | IDENT => "IDENT" | BOUNDPARAM => "BOUNDPARAM" | NUMBER => "NUMBER"
  | INTEGER => "INTEGER" | STRING => "STRING" | BADSTRING => "BADSTRING"
  | BADESCAPE => "BADESCAPE" | TRUE => "TRUE" | FALSE => "FALSE"
  | REGEX => "REGEX" | BADREGEX => "BADREGEX"
  | ADD => "+" | SUB => "-" | MUL => "*" | DIV => "/"
  | AND => "AND" | OR => "OR"
  | EQ => "=" | NEQ => "!=" | EQREGEX => "=~" | NEQREGEX => "!~"
  | LT => "<" | LTE => "<=" | GT => ">" | GTE => ">="
  | LPAREN => "(" | RPAREN => ")" | COMMA => "," | COLON => ":"
  | DOUBLECOLON => "::" | SEMICOLON => ";" | DOT => "."
  | AS => "AS" | FROM => "FROM" | SELECT => "SELECT" | WHERE => "WHERE"
  end.

(** The keyword table: the reserved words of the SELECT dialect, looked
    up without regard to case. *)
Definition Lookup (ident : string) : Token :=
  let l := asciiToLower ident in
  if String.eqb l "and" then AND
  else if String.eqb l "or" then OR
  else if String.eqb l "true" then TRUE
  else if String.eqb l "false" then FALSE
  else if String.eqb l "as" then AS
  else if String.eqb l "from" then FROM
  else if String.eqb l "select" then SELECT
  else if String.eqb l "where" then WHERE
  else IDENT.

Definition isWhitespace (c : rune) : bool :=
  Ascii.eqb c " " || Ascii.eqb c tab || Ascii.eqb c newline.

Definition isIdentFirstChar (c : rune) : bool :=
  isLetter c || Ascii.eqb c "_".

Definition isIdentChar (c : rune) : bool :=
  isLetter c || isDigit c || Ascii.eqb c "_".

#[global] Instance lexicon : Lexicon :=
  Build_Lexicon isOperator Precedence Token_String Lookup
                isWhitespace isIdentFirstChar isIdentChar.

(** The reference runtime keeps a number as the text it was read from
    and a compiled regular expression as its pattern, takes every text
    of digits and every pattern, and lowers the ASCII letters. *)
#[global] Instance runtime : Runtime := {|
  float64 := string;
  ParseFloat := fun s => Some s;
  Regexp := string;
  regexp_Compile := fun s => inl s;
  ToLower := asciiToLower
|}.

(** *** The reference scanner *)

(** Modelled from the spec: the Token Source (scanner.go is not part of
    the sources).  The rune reader is the text still to read with the
    position of its first rune; the scanner turns the runes into the
    tokens the grammar names; the buffered scanner on top of it keeps
    the tokens it handed out, so that [Unscan] can step back. *)
Definition cursor : Type := (string * Pos)%type.

Definition advance (p : Pos) (c : ascii) : Pos :=
  if Ascii.eqb c newline then mkPos (Line p + 1) 0
  else mkPos (Line p) (Char p + 1).

(** The longest run of runes that satisfy [f]. *)
Fixpoint takeWhile (f : ascii -> bool) (s : string) (p : Pos)
  : string * cursor :=
  match s with
  | String c r =>
      if f c then
        let '(lit, st) := takeWhile f r (advance p c) in (String c lit, st)
      else ("", (s, p))
  | EmptyString => ("", (s, p))
  end.

(** Puts the rune [c] in front of the text scanned so far, when the kind
    of the result says that the text is kept. *)
Definition consRune (kept : Token -> bool) (c : ascii)
  (r : (Token * string) * cursor) : (Token * string) * cursor :=
  let '((tok, lit), st) := r in
  if kept tok then ((tok, String c lit), st) else r.

(** The body of a quoted text up to the rune [ending], with the escapes
    for newline, backslash and the two quotes undone; the text is
    [BADSTRING] when it meets a newline or the end of the input, and
    [BADESCAPE] at any other escape. *)
Fixpoint quoted (ending : ascii) (s : string) (p : Pos)
  : (Token * string) * cursor :=
  let keep := consRune (fun tok => negb (tok_eqb tok BADESCAPE)) in
  match s with
  | EmptyString => ((BADSTRING, ""), (s, p))
  | String c r =>
      let p1 := advance p c in
      if Ascii.eqb c ending then ((STRING, ""), (r, p1))
      else if Ascii.eqb c newline then ((BADSTRING, ""), (r, p1))
      else if Ascii.eqb c "\" then
        match r with
        | EmptyString =>
            ((BADESCAPE, String c (String eof EmptyString)), (r, p1))
        | String c1 r1 =>
            let p2 := advance p1 c1 in
            if Ascii.eqb c1 "n" then keep newline (quoted ending r1 p2)
            else if Ascii.eqb c1 "\" then keep "\"%char (quoted ending r1 p2)
            else if Ascii.eqb c1 dquote then keep dquote (quoted ending r1 p2)
            else if Ascii.eqb c1 "'" then keep "'"%char (quoted ending r1 p2)
            else ((BADESCAPE, String c (String c1 EmptyString)), (r1, p2))
        end
      else keep c (quoted ending r p1)
  end.

(** The body of a regex literal up to the closing slash; an escaped
    slash is a slash, every other backslash stays. *)
Fixpoint regexBody (s : string) (p : Pos) : (Token * string) * cursor :=
  let keep := consRune (fun tok => tok_eqb tok REGEX) in
  match s with
  | EmptyString => ((BADREGEX, ""), (s, p))
  | String c r =>
      let p1 := advance p c in
      if Ascii.eqb c "/" then ((REGEX, ""), (r, p1))
      else if Ascii.eqb c newline then ((BADREGEX, ""), (r, p1))
      else if Ascii.eqb c "\" then
        match r with
        | String "/" r1 => keep "/"%char (regexBody r1 (advance p1 "/"))
        | _ => keep c (regexBody r p1)
        end
      else keep c (regexBody r p1)
  end.

(** A bare or a quoted identifier; a bare one is looked up in the
    keyword table when [lookup] is set. *)
Definition scanIdent (lookup : bool) (s : string) (p : Pos)
  : TokInfo * cursor :=
  match s with
  | String c r =>
      if Ascii.eqb c dquote then
        let '((tok, lit), st) := quoted dquote r (advance p c) in
        match tok with
        | STRING => ((IDENT, p, lit), st)
        | _ => ((tok, p, lit), st)
        end
      else
        let '(lit, st) := takeWhile isIdentChar s p in
        let tok := if lookup then Lookup lit else IDENT in
        match tok with
        | IDENT => ((IDENT, p, lit), st)
        | _ => ((tok, p, ""), st)
        end
  | EmptyString => ((IDENT, p, ""), (s, p))
  end.

(** Digits, with a fraction or without. *)
Definition scanNumber (s : string) (p : Pos) : TokInfo * cursor :=
  let '(int, (s1, p1)) := takeWhile isDigit s p in
  match s1 with
  | String "." r =>
      let '(frac, st) := takeWhile isDigit r (advance p1 ".") in
      ((NUMBER, p, int ++ "." ++ frac), st)
  | _ => ((INTEGER, p, int), (s1, p1))
  end.

(** One token in the normal lexing mode. *)
Definition lex (st : cursor) : TokInfo * cursor :=
  let '(s, p) := st in
  match s with
  | EmptyString => ((EOF, p, ""), st)
  | String c r =>
      let p1 := advance p c in
      let one (t : Token) := ((t, p, ""), (r, p1)) in
      let two (c2 : ascii) (t2 t1 : Token) :=
        match r with
        | String c' r' =>
            if Ascii.eqb c' c2 then ((t2, p, ""), (r', advance p1 c'))
            else one t1
        | EmptyString => one t1
        end in
      if isWhitespace c then
        let '(lit, st') := takeWhile isWhitespace s p in ((WS, p, lit), st')
      else if isLetter c || Ascii.eqb c "_" then scanIdent true s p
      else if isDigit c then scanNumber s p
      else if Ascii.eqb c eof then ((EOF, p, ""), (r, p))
      else if Ascii.eqb c dquote then scanIdent true s p
      else if Ascii.eqb c "'" then
        let '((tok, lit), st') := quoted "'" r p1 in ((tok, p, lit), st')
      else if Ascii.eqb c "." then
        match r with
        | String d _ => if isDigit d then scanNumber s p else one DOT
        | EmptyString => one DOT
        end
      else if Ascii.eqb c "$" then
        let '((tok, _, lit), st') := scanIdent false r p1 in
        match tok with
        | IDENT => ((BOUNDPARAM, p, String "$" lit), st')
        | _ => ((tok, p, String "$" lit), st')
        end
      else if Ascii.eqb c "+" then one ADD
      else if Ascii.eqb c "-" then one SUB
      else if Ascii.eqb c "*" then one MUL
      else if Ascii.eqb c "/" then one DIV
      else if Ascii.eqb c "=" then two "~"%char EQREGEX EQ
      else if Ascii.eqb c "!" then
        match r with
        | String "=" r' => ((NEQ, p, ""), (r', advance p1 "="))
        | String "~" r' => ((NEQREGEX, p, ""), (r', advance p1 "~"))
        | _ => ((ILLEGAL, p, String c EmptyString), (r, p1))
        end
      else if Ascii.eqb c ">" then two "="%char GTE GT
      else if Ascii.eqb c "<" then
        match r with
        | String "=" r' => ((LTE, p, ""), (r', advance p1 "="))
        | String ">" r' => ((NEQ, p, ""), (r', advance p1 ">"))
        | _ => one LT
        end
      else if Ascii.eqb c "(" then one LPAREN
      else if Ascii.eqb c ")" then one RPAREN
      else if Ascii.eqb c "," then one COMMA
      else if Ascii.eqb c ";" then one SEMICOLON
      else if Ascii.eqb c ":" then two ":"%char DOUBLECOLON COLON
      else ((ILLEGAL, p, String c EmptyString), (r, p1))
  end.

(** One token in the regex lexing mode, reported at its opening
    slash. *)
Definition lexRegex (st : cursor) : TokInfo * cursor :=
  let '(s, p) := st in
  match s with
  | String "/" r =>
      let '((tok, lit), st') := regexBody r (advance p "/") in
      ((tok, p, lit), st')
  | _ => ((BADREGEX, p, ""), st)
  end.

(** The buffered scanner: the reader, the reader as it was before the
    last [ReadRune], the tokens handed out (the last one first), and the
    number of tokens that were pushed back. *)
Record scanner : Type := mkScanner {
  cur : cursor;
  saved : option cursor;
  history : list TokInfo;
  pushed : nat
}.

Definition newScanner (text : string) : scanner :=
  mkScanner (text, zeroPos) None [] 0.

Definition scanWith (f : cursor -> TokInfo * cursor) (sc : scanner)
  : TokInfo * scanner :=
  match pushed sc with
  | S n =>
      (nth n (history sc) (EOF, zeroPos, ""),
       mkScanner (cur sc) (saved sc) (history sc) n)
  | O =>
      let '(t, c) := f (cur sc) in
      (t, mkScanner c (saved sc) (t :: history sc) 0)
  end.

Definition unscanToken (sc : scanner) : scanner :=
  mkScanner (cur sc) (saved sc) (history sc) (S (pushed sc)).

Definition readRune (sc : scanner) : rune * scanner :=
  let '(s, p) := cur sc in
  match s with
  | String c r =>
      (c, mkScanner (r, advance p c) (Some (cur sc)) (history sc) (pushed sc))
  | EmptyString =>
      (eof, mkScanner (cur sc) (Some (cur sc)) (history sc) (pushed sc))
  end.

Definition unreadRune (sc : scanner) : scanner :=
  match saved sc with
  | Some c => mkScanner c None (history sc) (pushed sc)
  | None => sc
  end.

#[global] Instance source : TokenSource :=
  Build_TokenSource scanner newScanner (scanWith lex) unscanToken
                    (scanWith lexRegex) readRune unreadRune.

(** The entry points on query text, with no bound parameters unless
    given, and a validation hook that accepts every statement. *)
Definition fuel : nat := 64.

Definition ParseExprString (params : gmap string ParamValue) (text : string)
  : result scanner Expr :=
  ParseExpr params fuel (newBufScanner text).

Definition ParseStatementString (params : gmap string ParamValue)
  (text : string) : result scanner Statement :=
  ParseStatement params (fun _ => None) fuel (newBufScanner text).

Definition ParseQueryString (params : gmap string ParamValue)
  (text : string) : result scanner Query :=
  ParseQuery params (fun _ => None) fuel (newBufScanner text).

(** The reference scanner between two tokens: nothing pushed back. *)
Definition between_tokens (c : cursor) (h : list TokInfo) : scanner :=
  mkScanner c None h 0.

(** A text whose first rune is none of the runes the segment loop looks
    for after a dot, and no digit. *)
Definition startsSegment (text : string) : Prop :=
  exists c r,
    text = String c r /\ isDigit c = false
    /\ Ascii.eqb c "/" = false /\ Ascii.eqb c ":" = false
    /\ Ascii.eqb c "." = false /\ Ascii.eqb c eof = false.

(** The scanner an outcome leaves, when there is one. *)
Definition stateOf {A : Type} (r : result scanner A) : scanner :=
  match r with
  | Ok _ s => s
  | _ => newScanner ""
  end.

(** The text [s] between double quotes. *)
Definition dq (s : string) : string :=
  String dquote (s ++ String dquote EmptyString).

(** A variable reference without a declared type. *)
Definition var (name : string) : Expr := VarRef name DataType.Unknown.

(** The value and the error of an outcome, without the scanner. *)
Definition outcome {St A : Type} (r : result St A) : option (A + error) :=
  match r with
  | Ok a _ => Some (inl a)
  | Err e => Some (inr e)
  | OutOfFuel => None
  end.

End Ref.

(* ================================================================== *)
(** ** Reference conversions of numbers

    The methods that read numbers take the conversions of [strconv] as
    they are; to run them on query text, this part gives decimal
    conversions on the digits the scanner hands over. *)

Module RefNum.

(** [strconv.Atoi] on a 64-bit platform. *)
Definition Atoi (lit : string) : Z + string :=
  match ParseInt lit with
  | Some n => inl n
  | None => inr ("strconv.Atoi: parsing " ++ Ref.dq lit ++ ": invalid syntax")
  end.


(** The number of [strconv.ParseInt(lit, 10, 64)]: the nearest bound when
    the digits are out of range, zero when the text is no number. *)
Definition ParseInt_value (lit : string) : Z :=
  let clamp (d : string) (bound : Z) :=
    match d with
    | EmptyString => 0
    | _ => match digits_val d 0 with Some _ => bound | None => 0 end
    end in
  match ParseInt lit with
  | Some n => n
  | None =>
      match lit with
      | String "-" r => clamp r (- 2 ^ 63)
      | String "+" r => clamp r (2 ^ 63 - 1)
      | _ => clamp lit (2 ^ 63 - 1)
      end
  end.

End RefNum.

(* ================================================================== *)
(** ** Properties of the parser, for every lexicon and token source *)

Lemma tok_eqb_eq a b : tok_eqb a b = true <-> a = b.
Proof. unfold tok_eqb; destruct (Token_eq_dec a b); split; congruence. Qed.

Lemma tok_eqb_refl a : tok_eqb a a = true.
Proof. apply tok_eqb_eq; reflexivity. Qed.

Lemma tok_eqb_neq a b : a <> b -> tok_eqb a b = false.
Proof.
  intros Hne. destruct (tok_eqb a b) eqn:E; [|reflexivity].
  apply tok_eqb_eq in E; contradiction.
Qed.

Section Properties.
Context `{Runtime} `{Lexicon} `{TokenSource}.
Variable params : gmap string ParamValue.
Variable validate : SelectStatement -> option error.

(** *** The parser monad *)

Lemma bind_Ok {A B} (m : M A) (k : A -> M B) s b s' :
  bind m k s = Ok b s' ->
  exists a s1, m s = Ok a s1 /\ k a s1 = Ok b s'.
Proof.
  unfold bind; destruct (m s) as [a s1| |]; try discriminate; eauto.
Qed.

Lemma bind_Err {A B} (m : M A) (k : A -> M B) s e :
  bind m k s = Err e ->
  m s = Err e \/ exists a s1, m s = Ok a s1 /\ k a s1 = Err e.
Proof.
  unfold bind; destruct (m s) as [a s1|e0|]; intros Hk;
    [right; eauto | left; injection Hk as ->; reflexivity | discriminate].
Qed.

Lemma ret_Ok {A} (a b : A) s s' : ret a s = Ok b s' -> a = b /\ s = s'.
Proof. unfold ret; intros [= -> ->]; auto. Qed.

(** *** Shapes *)
Lemma rebuild_spine t : rebuild (spine t) (spineEnd t) = t.
Proof.
  induction t; simpl; try reflexivity.
  rewrite IHt2; reflexivity.
Qed.

(** [insertOperator] on a root, seen from the right-hand side. *)
Lemma insertOperator_root x y t op rhs :
  insertOperator (BinaryExpr x y t) op rhs
  = BinaryExpr x y (getRHS (insertOperator (BinaryExpr x y t) op rhs)).
Proof.
  simpl. destruct t; try reflexivity.
  destruct (Precedence Op >=? Precedence op); reflexivity.
Qed.

Lemma insertOperator_spine x y t op rhs :
  getRHS (insertOperator (BinaryExpr x y t) op rhs)
  = rebuild (looser op (spine t))
      (BinaryExpr op (rebuild (fromTighter op (spine t)) (spineEnd t)) rhs).
Proof.
  revert x y.
  induction t; intros x y; try reflexivity.
  cbn [insertOperator spine looser fromTighter spineEnd].
  rewrite Z.geb_leb.
  destruct (Z.leb_spec (Precedence op) (Precedence Op)) as [Hle|Hlt].
  - replace (Precedence Op <? Precedence op) with false
      by (symmetry; apply Z.ltb_ge; lia).
    cbn [getRHS rebuild]. rewrite (rebuild_spine t2). reflexivity.
  - replace (Precedence Op <? Precedence op) with true
      by (symmetry; apply Z.ltb_lt; lia).
    cbn [getRHS rebuild].
    rewrite <- (IHt2 Op t1), <- insertOperator_root. reflexivity.
Qed.

Lemma insertOperator_rhs x y t op rhs :
  getRHS (insertOperator (BinaryExpr x y t) op rhs)
  = match t with
    | BinaryExpr rop l r =>
        if Precedence rop >=? Precedence op then BinaryExpr op t rhs
        else BinaryExpr rop l
               (getRHS (insertOperator (BinaryExpr rop l r) op rhs))
    | _ => BinaryExpr op t rhs
    end.
Proof.
  destruct t; try reflexivity.
  change (insertOperator (BinaryExpr x y (BinaryExpr Op t1 t2)) op rhs)
    with (if Precedence Op >=? Precedence op
          then BinaryExpr x y (BinaryExpr op (BinaryExpr Op t1 t2) rhs)
          else BinaryExpr x y (insertOperator (BinaryExpr Op t1 t2) op rhs)).
  destruct (Precedence Op >=? Precedence op); cbn [getRHS];
    [reflexivity | apply insertOperator_root].
Qed.

Lemma atom_fits op rhs :
  isBinaryExpr rhs = false -> rhsFits op rhs = true /\ lhsFits op rhs = true.
Proof. destruct rhs; try discriminate; auto. Qed.

Lemma insertOperator_ordered t op rhs :
  ordered t = true -> ordered rhs = true -> isBinaryExpr rhs = false ->
  forall x y,
    ordered (getRHS (insertOperator (BinaryExpr x y t) op rhs)) = true
    /\ (rhsFits x t = true -> Precedence x < Precedence op ->
        rhsFits x (getRHS (insertOperator (BinaryExpr x y t) op rhs)) = true).
Proof.
  intros Ht Hr Hb. destruct (atom_fits op rhs Hb) as [Hfr _].
  induction t; intros x y; rewrite insertOperator_rhs;
    try (split; [cbn [ordered lhsFits] in Ht |- *;
                 rewrite ?Ht, Hr, Hfr; reflexivity
                | intros _ Hlt; cbn; apply Z.ltb_lt; exact Hlt]).
  rewrite Z.geb_leb.
  destruct (Z.leb_spec (Precedence op) (Precedence Op)) as [Hle|Hlt].
  - split.
    + cbn [ordered lhsFits] in *. rewrite Ht, Hr, Hfr.
      replace (Precedence op <=? Precedence Op) with true
        by (symmetry; apply Z.leb_le; lia).
      reflexivity.
    + intros _ Hx. cbn. apply Z.ltb_lt; exact Hx.
  - cbn [ordered] in Ht.
    apply andb_prop in Ht as [Ht Hf2]. apply andb_prop in Ht as [Ht Hf1].
    apply andb_prop in Ht as [Ht1 Ht2].
    destruct (IHt2 Ht2 Op t1) as [IHo IHf].
    split.
    + cbn [ordered]. rewrite Ht1, IHo, Hf1, (IHf Hf2 Hlt). reflexivity.
    + intros Hfx _. exact Hfx.
Qed.

Lemma insertOperator_nilFree t op rhs x y :
  nilFree t = true -> nilFree rhs = true ->
  nilFree (getRHS (insertOperator (BinaryExpr x y t) op rhs)) = true.
Proof.
  intros Ht Hr. revert x y.
  induction t; intros x y; rewrite insertOperator_rhs;
    try (cbn [nilFree] in Ht |- *; rewrite ?Ht, Hr; reflexivity).
  cbn [nilFree] in Ht. apply andb_prop in Ht as [Ht1 Ht2].
  destruct (Precedence Op >=? Precedence op); cbn [nilFree].
  - rewrite Ht1, Ht2, Hr; reflexivity.
  - rewrite Ht1, (IHt2 Ht2); reflexivity.
Qed.

(** *** What the expression parser returns *)

Ltac step H :=
  lazymatch type of H with
  | bind _ _ _ = Ok _ _ =>
      let a := fresh "a" in let s1 := fresh "s" in let H1 := fresh "Hm" in
      apply bind_Ok in H as (a & s1 & H1 & H)
  | ret _ _ = Ok _ _ => apply ret_Ok in H as [? ?]; subst
  | fail _ _ = Ok _ _ => discriminate H
  | Err _ = Ok _ _ => discriminate H
  | OutOfFuel = Ok _ _ => discriminate H
  | (let (_, _) := ?x in _) _ = _ => destruct x
  | (if ?b then _ else _) _ = _ => destruct b eqn:?
  | (match ?x with _ => _ end) _ = _ => destruct x eqn:?
  end.


Section OverUnary.
Variable U : M Expr.
Hypothesis U_good : forall s e s', U s = Ok e s' -> good e /\ atom e.

Lemma parseOperand_good op s e s' :
  parseOperand U op s = Ok e s' -> good e /\ atom e.
Proof.
  unfold parseOperand. intros Hp.
  destruct (IsRegexOp op); [|eauto].
  repeat step Hp. repeat split.
Qed.

Lemma exprLoop_good fuel : forall x y t s e s',
  good t ->
  exprLoop U fuel (BinaryExpr x y t) s = Ok e s' -> good e.
Proof.
  induction fuel as [|fuel IH]; intros x y t s e s' Ht Hl;
    [discriminate|].
  cbn [exprLoop] in Hl. repeat step Hl.
  - cbn [getRHS]. exact Ht.
  - apply parseOperand_good in Hm0 as [[Ho Hn] Ha].
    rewrite insertOperator_root in Hl.
    eapply IH; [|exact Hl]. destruct Ht as [Hto Htn]. split.
    + apply insertOperator_ordered; assumption.
    + apply insertOperator_nilFree; assumption.
Qed.

Lemma ParseExpr_over_good fuel s e s' :
  ParseExpr_over U fuel s = Ok e s' -> good e.
Proof.
  unfold ParseExpr_over. intros Hp. step Hp.
  apply U_good in Hm as [Hg _].
  eapply exprLoop_good; [|exact Hp]. exact Hg.
Qed.

Lemma callArgsLoop_good fuel : forall args s res s',
  Forall good args ->
  callArgsLoop U fuel args s = Ok res s' -> Forall good res.
Proof.
  induction fuel as [|fuel IH]; intros args s res s' Ha Hl;
    [discriminate|].
  cbn [callArgsLoop] in Hl. repeat step Hl.
  - exact Ha.
  - eapply IH; [|exact Hl]. apply Forall_app; split; [exact Ha|].
    repeat constructor.
  - apply ParseExpr_over_good in Hm1.
    eapply IH; [|exact Hl]. apply Forall_app; split; [exact Ha|].
    repeat constructor; apply Hm1.
Qed.

Lemma good_Call name args : Forall good args -> good (Call name args).
Proof.
  unfold good; cbn [ordered nilFree].
  induction 1 as [|a l [Ho Hn] _ [IHo IHn]]; cbn [forallb]; [auto|].
  rewrite Ho, Hn, IHo, IHn; auto.
Qed.

Lemma parseCall_over_good fuel name s e s' :
  parseCall_over U fuel name s = Ok e s' -> good e /\ atom e.
Proof.
  unfold parseCall_over. intros Hp. repeat step Hp.
  - apply callArgsLoop_good in Hm0; [|repeat constructor].
    split; [apply good_Call; exact Hm0 | reflexivity].
  - split; [apply good_Call; constructor | reflexivity].
  - apply ParseExpr_over_good in Hm2.
    apply callArgsLoop_good in Hm3; [|repeat constructor; apply Hm2].
    split; [apply good_Call; exact Hm3 | reflexivity].
Qed.
End OverUnary.

Lemma parseVarRef_shape fuel s e s' :
  parseVarRef fuel s = Ok e s' -> exists v t, e = VarRef v t.
Proof.
  unfold parseVarRef. intros Hp. repeat step Hp. eauto.
Qed.

Lemma bindParameter_good lit s e s' :
  bindParameter params lit s = Ok e s' -> good e /\ atom e.
Proof.
  unfold bindParameter. intros Hp. repeat step Hp; repeat split.
Qed.

Lemma parseUnaryExpr_good fuel : forall s e s',
  parseUnaryExpr params fuel s = Ok e s' -> good e /\ atom e.
Proof.
  induction fuel as [|fuel IH]; intros s e s' Hp; [discriminate|].
  cbn [parseUnaryExpr] in Hp. step Hp. destruct a as [[tok0 pos0] lit0].
  destruct (tok_eqb tok0 LPAREN).
  - (* a parenthesised expression *)
    repeat step Hp. apply (ParseExpr_over_good _ IH) in Hm0.
    destruct Hm0; repeat split; assumption.
  - step Hp. step Hp. destruct a0 as [[tok pos] lit].
    destruct tok; try discriminate Hp.
    + (* IDENT *)
      repeat step Hp.
      * apply (parseCall_over_good _ IH) in Hp. exact Hp.
      * apply parseVarRef_shape in Hp as (v & ty & ->).
        repeat split.
    + apply bindParameter_good in Hp; exact Hp.
    + repeat step Hp; repeat split.
    + repeat step Hp; repeat split.
    + repeat step Hp; repeat split.
    + repeat step Hp; repeat split.
    + repeat step Hp; repeat split.
    + repeat step Hp; repeat split.
Qed.

Lemma ParseExpr_good fuel s e s' :
  ParseExpr params fuel s = Ok e s' -> good e.
Proof. apply ParseExpr_over_good, parseUnaryExpr_good. Qed.

(** *** The visitor walk *)

Lemma Expr_nested_ind (P : Expr -> Prop) :
  P NilExpr ->
  (forall v t, P (VarRef v t)) ->
  (forall v, P (StringLiteral v)) ->
  (forall v, P (NumberLiteral v)) ->
  (forall v, P (IntegerLiteral v)) ->
  (forall v, P (BooleanLiteral v)) ->
  (forall v, P (RegexLiteral v)) ->
  (forall name args, Forall P args -> P (Call name args)) ->
  (forall op l r, P l -> P r -> P (BinaryExpr op l r)) ->
  (forall x, P x -> P (ParenExpr x)) ->
  forall e, P e.
Proof.
  intros HNil HVar HStr HNum HInt HBool HRe HCall HBin HPar.
  fix IH 1. intros [ |v t|v|v|v|v|v|name args|op l r|x].
  - exact HNil.
  - apply HVar.
  - apply HStr.
  - apply HNum.
  - apply HInt.
  - apply HBool.
  - apply HRe.
  - apply HCall. induction args as [|a args IHargs]; constructor;
      [apply IH | exact IHargs].
  - apply HBin; apply IH.
  - apply HPar; apply IH.
Qed.

Lemma WalkExpr_clearOnCall e : forall v,
  WalkExpr (fun v n => (clearOnCall v n, true)) v e = v && negb (hasCall e).
Proof.
  induction e as [ | | | | | | |name args IHargs|op l r IHl IHr|x IHx]
    using Expr_nested_ind; intros v0; cbn;
    rewrite ?andb_true_r, ?andb_false_r; try reflexivity.
  - (* Call: the flag is cleared and stays so *)
    induction IHargs as [|a args Ha _ IH]; cbn; [reflexivity|].
    rewrite Ha. cbn. exact IH.
  - rewrite IHr, IHl, negb_orb, andb_assoc. reflexivity.
  - apply IHx.
Qed.

Lemma WalkFields_clearOnCall (fields : Fields) :
  WalkFunc (NFields fields) clearOnCall true
  = negb (existsb (fun f => hasCall (FExpr f)) fields).
Proof.
  unfold WalkFunc, Walk, WalkFields.
  change (fold_left (WalkField (fun v n => (clearOnCall v n, true)))
            fields true
          = negb (existsb (fun f => hasCall (FExpr f)) fields)).
  enough (Hgen : forall v,
    fold_left (WalkField (fun v n => (clearOnCall v n, true))) fields v
    = v && negb (existsb (fun f => hasCall (FExpr f)) fields))
    by (rewrite Hgen; reflexivity).
  induction fields as [|f fields IH]; intros v; cbn [fold_left existsb].
  - rewrite andb_true_r; reflexivity.
  - rewrite IH. unfold WalkField at 1. cbn [clearOnCall].
    rewrite WalkExpr_clearOnCall, negb_orb, andb_assoc. reflexivity.
Qed.

Lemma hasCall_containsCall e : hasCall e = true <-> containsCall e.
Proof.
  unfold containsCall. split.
  - induction e as [ | | | | | | |name args _|op l r IHl IHr|x IHx]
      using Expr_nested_ind; cbn; try discriminate.
    + intros _. exists name, args. constructor.
    + intros Hc. apply orb_prop in Hc as [Hc|Hc].
      * destruct (IHl Hc) as (n & a & Hs); exists n, a; now constructor.
      * destruct (IHr Hc) as (n & a & Hs); exists n, a; now apply sub_rhs.
    + intros Hc. destruct (IHx Hc) as (n & a & Hs); exists n, a.
      now constructor.
  - intros (n & a & Hs).
    induction Hs; cbn; rewrite ?IHHs, ?orb_true_r; reflexivity.
Qed.

(** [existsb] on the fields, as a statement. *)
Lemma existsb_Exists {A} (f : A -> bool) (P : A -> Prop) l :
  (forall a, f a = true <-> P a) ->
  existsb f l = true <-> Exists P l.
Proof.
  intros Hf. induction l as [|a l IH]; cbn.
  - split; [discriminate | intros Hx; inversion Hx].
  - rewrite orb_true_iff, Exists_cons, IH, Hf. reflexivity.
Qed.

Lemma IsRawQuery_of_fields (fields : Fields) :
  WalkFunc (NFields fields) clearOnCall true = false
  <-> Exists (fun f => containsCall (FExpr f)) fields.
Proof.
  rewrite WalkFields_clearOnCall, negb_false_iff.
  apply existsb_Exists. intros f. apply hasCall_containsCall.
Qed.

Lemma parseSelectStatement_IsRawQuery fuel s stmt s' :
  parseSelectStatement params validate fuel s = Ok stmt s' ->
  IsRawQuery stmt = WalkFunc (NFields (SFields stmt)) clearOnCall true.
Proof.
  unfold parseSelectStatement. intros Hp. repeat step Hp. reflexivity.
Qed.

(** *** The field check *)

Lemma hasBooleanOp_containsBooleanOp e :
  hasBooleanOp e = true <-> containsBooleanOp e.
Proof.
  unfold containsBooleanOp. split.
  - induction e as [ | | | | | | |name args IHargs|op l r IHl IHr|x IHx]
      using Expr_nested_ind; cbn [hasBooleanOp]; try discriminate.
    + intros Hc. apply existsb_exists in Hc as (a & Hin & Ha).
      rewrite List.Forall_forall in IHargs.
      destruct (IHargs a Hin Ha) as (o & l & r & Hs & Ho).
      exists o, l, r; split; [|exact Ho]. eapply sub_arg; eauto.
    + intros Hc. apply orb_prop in Hc as [Hc|Hc];
        [apply orb_prop in Hc as [Hc|Hc]|].
      * exists op, l, r; split; [constructor | exact Hc].
      * destruct (IHl Hc) as (o & a & b & Hs & Ho).
        exists o, a, b; split; [now constructor | exact Ho].
      * destruct (IHr Hc) as (o & a & b & Hs & Ho).
        exists o, a, b; split; [now apply sub_rhs | exact Ho].
    + intros Hc. destruct (IHx Hc) as (o & a & b & Hs & Ho).
      exists o, a, b; split; [now constructor | exact Ho].
  - intros (o & a & b & Hs & Ho).
    remember (BinaryExpr o a b) as n eqn:Hn.
    induction Hs; subst; cbn [hasBooleanOp].
    + rewrite Ho; reflexivity.
    + rewrite IHHs, orb_true_r by reflexivity; reflexivity.
    + rewrite IHHs, orb_true_r by reflexivity; reflexivity.
    + apply existsb_exists. exists x; split; [assumption | now apply IHHs].
    + now apply IHHs.
Qed.

Lemma WalkExpr_validateField e : forall c,
  let c' := WalkExpr validateField_Visit c e in
  (hasBooleanOp e = false /\ c' = c) \/ (hasBooleanOp e = true /\ flagged c' e).
Proof.
  induction e as [ | | | | | | |name args IHargs|op l r IHl IHr|x IHx]
    using Expr_nested_ind; intros c; cbn zeta; try (left; split; reflexivity).
  - (* Call *)
    cbn [WalkExpr validateField_Visit hasBooleanOp].
    revert c. induction IHargs as [|a args Ha _ IH]; intros c;
      cbn [fold_left existsb]; [left; split; reflexivity|].
    destruct (Ha c) as [[Hn Hc]|[Hy (Hf & Hb & l & r & Hs)]].
    + rewrite Hn, Hc. cbn [orb].
      destruct (IH c) as [[Hn' Hc']|[Hy' (Hf' & Hb' & l' & r' & Hs')]];
        [left; split; assumption|right].
      split; [assumption|]. split; [assumption|]. split; [assumption|].
      exists l', r'. inversion Hs'; subst.
      eapply sub_arg; [right; eassumption | eassumption].
    + rewrite Hy. cbn [orb]. right. split; [reflexivity|].
      destruct (IH (WalkExpr validateField_Visit c a))
        as [[Hn' Hc']|[Hy' (Hf' & Hb' & l' & r' & Hs')]].
      * rewrite Hc'. split; [assumption|]. split; [assumption|].
        exists l, r. eapply sub_arg; [left; reflexivity | eassumption].
      * split; [assumption|]. split; [assumption|].
        exists l', r'. inversion Hs'; subst.
        eapply sub_arg; [right; eassumption | eassumption].
  - (* BinaryExpr *)
    cbn [hasBooleanOp].
    destruct (isBooleanOp op) eqn:Hop.
    + right. split; [reflexivity|].
      assert (Hw : WalkExpr validateField_Visit c (BinaryExpr op l r)
                   = mkValidateField true op)
        by (destruct op; try discriminate Hop; reflexivity).
      rewrite Hw. repeat split; [exact Hop|]. exists l, r. constructor.
    + assert (Hw : WalkExpr validateField_Visit c (BinaryExpr op l r)
                   = WalkExpr validateField_Visit
                       (WalkExpr validateField_Visit c l) r)
        by (destruct op; try discriminate Hop; reflexivity).
      rewrite Hw. cbn [orb].
      destruct (IHl c) as [[Hn Hc]|[Hy (Hf & Hb & a & b & Hs)]].
      * rewrite Hn, Hc. cbn [orb].
        destruct (IHr c) as [[Hn' Hc']|[Hy' (Hf' & Hb' & a' & b' & Hs')]];
          [left; split; assumption|right].
        repeat split; try assumption. exists a', b'. now apply sub_rhs.
      * rewrite Hy. cbn [orb]. right. split; [reflexivity|].
        destruct (IHr (WalkExpr validateField_Visit c l))
          as [[Hn' Hc']|[Hy' (Hf' & Hb' & a' & b' & Hs')]].
        -- rewrite Hc'. repeat split; try assumption.
           exists a, b. now constructor.
        -- repeat split; try assumption. exists a', b'. now apply sub_rhs.
  - (* ParenExpr *)
    cbn [WalkExpr validateField_Visit hasBooleanOp].
    destruct (IHx c) as [[Hn Hc]|[Hy (Hf & Hb & a & b & Hs)]];
      [left; split; assumption|right].
    repeat split; try assumption. exists a, b. now constructor.
Qed.

Lemma parseField_rejects fuel s t0 pos l0 s1 e s2 :
  scanIgnoreWhitespace s = Ok (t0, pos, l0) s1 ->
  ParseExpr params fuel (Unscan s1) = Ok e s2 ->
  containsBooleanOp e ->
  exists bad l r,
    isBooleanOp bad = true /\ subexpr (BinaryExpr bad l r) e /\
    parseField params fuel s = Err (EPlain (invalidOperatorMessage bad pos)).
Proof.
  intros Hs Hp Hc. apply hasBooleanOp_containsBooleanOp in Hc.
  destruct (WalkExpr_validateField e (mkValidateField false ILLEGAL))
    as [[Hn _]|[_ (Hf & Hb & l & r & Hsub)]]; [congruence|].
  exists (badToken (WalkExpr validateField_Visit
                      (mkValidateField false ILLEGAL) e)), l, r.
  split; [exact Hb|]. split; [exact Hsub|].
  unfold parseField, bind. rewrite Hs. cbv beta iota. unfold unscan.
  rewrite Hp. cbv beta iota zeta. unfold Walk. rewrite Hf. reflexivity.
Qed.

Lemma parseCondition_accepts fuel s pos lit s1 r :
  scanIgnoreWhitespace s = Ok (WHERE, pos, lit) s1 ->
  ParseExpr params fuel s1 = r ->
  parseCondition params fuel s = r.
Proof.
  intros Hs Hp. unfold parseCondition, bind. rewrite Hs.
  cbv beta iota. cbn [tok_eqb negb]. exact Hp.
Qed.

(** *** Bound parameters *)

Lemma parseUnaryExpr_BOUNDPARAM fuel s t0 p0 l0 s1 pos lit s2 :
  scanIgnoreWhitespace s = Ok (t0, p0, l0) s1 ->
  t0 <> LPAREN ->
  scanIgnoreWhitespace (Unscan s1) = Ok (BOUNDPARAM, pos, lit) s2 ->
  parseUnaryExpr params (S fuel) s = bindParameter params lit s2.
Proof.
  intros Hs Hne Hs2. cbn [parseUnaryExpr]. unfold bind. rewrite Hs.
  cbv beta iota.
  replace (tok_eqb t0 LPAREN) with false
    by (symmetry; destruct (tok_eqb t0 LPAREN) eqn:E; [|reflexivity];
        apply tok_eqb_eq in E; contradiction).
  unfold unscan. rewrite Hs2. reflexivity.
Qed.

(** *** Segments and sources *)

Lemma parseSegmentedIdents_Ok fuel s ident s1 idents s2 :
  parseIdent s = Ok ident s1 ->
  segmentsLoop fuel [ident] s1 = Ok idents s2 ->
  parseSegmentedIdents fuel s
  = if (3 <? length idents)%nat
    then Err (EParse (messageError
                        ("too many segments in " ++ QuoteIdent idents)
                        zeroPos))
    else Ok idents s2.
Proof.
  intros Hi Hl. unfold parseSegmentedIdents, bind. rewrite Hi, Hl.
  destruct (3 <? length idents)%nat; reflexivity.
Qed.

Lemma segmentsLoop_length fuel : forall idents s res s',
  segmentsLoop fuel idents s = Ok res s' ->
  (length idents <= length res)%nat.
Proof.
  induction fuel as [|fuel IH]; intros idents s res s' Hl; [discriminate|].
  cbn [segmentsLoop] in Hl. repeat step Hl; try lia.
  - apply IH in Hl. rewrite length_app in Hl. cbn in Hl. lia.
  - apply IH in Hl. rewrite length_app in Hl. cbn in Hl. lia.
Qed.

Lemma parseSegmentedIdents_length fuel s idents s' :
  parseSegmentedIdents fuel s = Ok idents s' ->
  (1 <= length idents <= 3)%nat.
Proof.
  unfold parseSegmentedIdents. intros Hp. repeat step Hp.
  apply segmentsLoop_length in Hm0. cbn in Hm0.
  apply Nat.ltb_ge in Heqb. lia.
Qed.

Lemma segmentsLoop_empty_segment fuel idents s p l s1 s2 :
  Scan s = ((DOT, p, l), s1) ->
  peekRune s1 = Ok "."%char s2 ->
  segmentsLoop (S fuel) idents s = segmentsLoop fuel (idents ++ [""]) s2.
Proof.
  intros Hs Hp. cbn [segmentsLoop]. unfold bind, scan. rewrite Hs.
  cbv beta iota. rewrite tok_eqb_refl. cbn [negb]. rewrite Hp. reflexivity.
Qed.

Lemma parseSource_segments fuel s s1 idents s2 :
  parseRegex s = Ok None s1 ->
  parseSegmentedIdents fuel s1 = Ok idents s2 ->
  (forall db rp name, idents = [db; rp; name] ->
     parseSource fuel s = Ok (mkMeasurement db rp name None) s2)
  /\ (forall rp name s3, idents = [rp; name] ->
       parseRegex s2 = Ok None s3 ->
       parseSource fuel s = Ok (mkMeasurement "" rp name None) s3)
  /\ (forall db rp re s3, idents = [db; rp] ->
       parseRegex s2 = Ok (Some re) s3 ->
       parseSource fuel s = Ok (mkMeasurement db rp "" (Some re)) s3)
  /\ (forall name s3, idents = [name] ->
       parseRegex s2 = Ok None s3 ->
       parseSource fuel s = Ok (mkMeasurement "" "" name None) s3)
  /\ (forall rp re s3, idents = [rp] ->
       parseRegex s2 = Ok (Some re) s3 ->
       parseSource fuel s = Ok (mkMeasurement "" rp "" (Some re)) s3).
Proof.
  intros Hr Hi.
  repeat split; intros; subst; unfold parseSource, bind;
    rewrite Hr, Hi; cbv beta iota; try reflexivity;
    match goal with Hx : parseRegex _ = _ |- _ => rewrite Hx end;
    reflexivity.
Qed.

Lemma parseVarRef_segments_error fuel s e :
  parseSegmentedIdents fuel s = Err e -> parseVarRef fuel s = Err e.
Proof. intros He. unfold parseVarRef, bind. rewrite He. reflexivity. Qed.

Lemma parseSource_segments_error fuel s s1 e :
  parseRegex s = Ok None s1 ->
  parseSegmentedIdents fuel s1 = Err e -> parseSource fuel s = Err e.
Proof.
  intros Hr He. unfold parseSource, bind. rewrite Hr, He. reflexivity.
Qed.

(** *** The query loop *)

Lemma queryLoop_EOF fuel stmts semi s pos lit s1 :
  scanIgnoreWhitespace s = Ok (EOF, pos, lit) s1 ->
  queryLoop params validate (S fuel) stmts semi s = Ok (mkQuery stmts) s1.
Proof.
  intros Hs. cbn [queryLoop]. unfold bind. rewrite Hs. reflexivity.
Qed.

Lemma queryLoop_semicolon fuel stmts semi s pos lit s1 :
  scanIgnoreWhitespace s = Ok (SEMICOLON, pos, lit) s1 ->
  queryLoop params validate (S fuel) stmts semi s
  = queryLoop params validate fuel stmts true s1.
Proof.
  intros Hs. cbn [queryLoop]. unfold bind. rewrite Hs. reflexivity.
Qed.

Lemma queryLoop_missing_semicolon fuel stmts s tok pos lit s1 :
  scanIgnoreWhitespace s = Ok (tok, pos, lit) s1 ->
  tok <> EOF -> tok <> SEMICOLON ->
  queryLoop params validate (S fuel) stmts false s
  = Err (EParse (newParseError (tokstr tok lit) [";"] pos)).
Proof.
  intros Hs He Hsemi. cbn [queryLoop]. unfold bind. rewrite Hs.
  cbv beta iota. rewrite (tok_eqb_neq _ _ He), (tok_eqb_neq _ _ Hsemi).
  reflexivity.
Qed.

Lemma queryLoop_statement fuel stmts s tok pos lit s1 st s2 :
  scanIgnoreWhitespace s = Ok (tok, pos, lit) s1 ->
  tok <> EOF -> tok <> SEMICOLON ->
  ParseStatement params validate fuel (Unscan s1) = Ok st s2 ->
  queryLoop params validate (S fuel) stmts true s
  = queryLoop params validate fuel (stmts ++ [st]) false s2.
Proof.
  intros Hs He Hsemi Hp. cbn [queryLoop]. unfold bind. rewrite Hs.
  cbv beta iota. rewrite (tok_eqb_neq _ _ He), (tok_eqb_neq _ _ Hsemi).
  cbn [negb]. unfold unscan. rewrite Hp. reflexivity.
Qed.

(** *** The first operand of an expression *)

Lemma exprLoop_no_operator U fuel root s tok pos lit s1 :
  scanIgnoreWhitespace s = Ok (tok, pos, lit) s1 ->
  isOperator tok = false ->
  exprLoop U (S fuel) root s = Ok (getRHS root) (Unscan s1).
Proof.
  intros Hs Ho. cbn [exprLoop]. unfold bind. rewrite Hs.
  cbv beta iota. rewrite Ho. reflexivity.
Qed.

Lemma exprLoop_operator U fuel root s op pos lit s1 rhs s2 :
  scanIgnoreWhitespace s = Ok (op, pos, lit) s1 ->
  isOperator op = true ->
  parseOperand U op s1 = Ok rhs s2 ->
  exprLoop U (S fuel) root s
  = exprLoop U fuel (insertOperator root op rhs) s2.
Proof.
  intros Hs Ho Hr. cbn [exprLoop]. unfold bind. rewrite Hs.
  cbv beta iota. rewrite Ho. cbn [negb]. rewrite Hr. reflexivity.
Qed.

Lemma parseUnaryExpr_fuel fuel s e s' :
  parseUnaryExpr params fuel s = Ok e s' -> exists fuel', fuel = S fuel'.
Proof. destruct fuel; [discriminate|eauto]. Qed.

Lemma ParseExpr_first_operand fuel s first s1 tok pos lit s2 :
  parseUnaryExpr params fuel s = Ok first s1 ->
  scanIgnoreWhitespace s1 = Ok (tok, pos, lit) s2 ->
  isOperator tok = false ->
  ParseExpr params fuel s = Ok first (Unscan s2).
Proof.
  intros Hu Hs Ho. destruct (parseUnaryExpr_fuel _ _ _ _ Hu) as [f ->].
  unfold ParseExpr, ParseExpr_over, bind. rewrite Hu.
  rewrite (exprLoop_no_operator _ _ _ _ _ _ _ _ Hs Ho). reflexivity.
Qed.

Lemma ParseExpr_inv fuel s e s' :
  ParseExpr params fuel s = Ok e s' ->
  exists first s1 tok pos lit s2,
    parseUnaryExpr params fuel s = Ok first s1 /\
    scanIgnoreWhitespace s1 = Ok (tok, pos, lit) s2 /\
    (isOperator tok = false -> e = first /\ s' = Unscan s2) /\
    (isBinaryExpr e = true -> isOperator tok = true).
Proof.
  intros Hp. pose proof Hp as Hp0.
  unfold ParseExpr, ParseExpr_over in Hp. step Hp.
  destruct (parseUnaryExpr_fuel _ _ _ _ Hm) as [f ->].
  cbn [exprLoop] in Hp. step Hp. destruct a0 as [[tok pos] lit].
  exists a, s0, tok, pos, lit, s1. split; [exact Hm|]. split; [exact Hm0|].
  split.
  - intros Ho. rewrite (ParseExpr_first_operand _ _ _ _ _ _ _ _ Hm Hm0 Ho)
      in Hp0. injection Hp0 as <- <-. split; reflexivity.
  - intros Hb. destruct (isOperator tok) eqn:Ho; [reflexivity|].
    rewrite (ParseExpr_first_operand _ _ _ _ _ _ _ _ Hm Hm0 Ho) in Hp0.
    injection Hp0 as <- <-.
    apply parseUnaryExpr_good in Hm as [_ Ha]. unfold atom in Ha.
    congruence.
Qed.

(** *** The errors of a parse *)

Lemma scan_Err s e : scan s = Err e -> False.
Proof. unfold scan; destruct (Scan s); discriminate. Qed.

Lemma scanIgnoreWhitespace_Err s e : scanIgnoreWhitespace s = Err e -> False.
Proof.
  unfold scanIgnoreWhitespace, bind, scan, ret.
  destruct (Scan s) as [[[tok pos] lit] s1].
  destruct (tok_eqb tok WS); [destruct (Scan s1)|]; discriminate.
Qed.

Lemma consumeWhitespace_Err s e : consumeWhitespace s = Err e -> False.
Proof.
  unfold consumeWhitespace, bind, scan, unscan, ret.
  destruct (Scan s) as [[[tok pos] lit] s1].
  destruct (negb (tok_eqb tok WS)); discriminate.
Qed.

Lemma peekRune_Err s e : peekRune s = Err e -> False.
Proof.
  unfold peekRune. destruct (ReadRune s) as [r s1].
  destruct (negb (rune_eqb r eof)); discriminate.
Qed.

Lemma ScanRegex_Err s e :
  (let '(t, s') := ScanRegex s in Ok t s') = Err e -> False.
Proof. destruct (ScanRegex s); discriminate. Qed.

Ltac stepE H :=
  lazymatch type of H with
  | scan _ = Err _ => destruct (scan_Err _ _ H)
  | unscan _ = Err _ => discriminate H
  | scanIgnoreWhitespace _ = Err _ => destruct (scanIgnoreWhitespace_Err _ _ H)
  | consumeWhitespace _ = Err _ => destruct (consumeWhitespace_Err _ _ H)
  | peekRune _ = Err _ => destruct (peekRune_Err _ _ H)
  | (let '(_, _) := ScanRegex _ in _) = Err _ => destruct (ScanRegex_Err _ _ H)
  | bind _ _ _ = Err _ =>
      let a := fresh "a" in let s1 := fresh "s" in let H1 := fresh "Hm" in
      apply bind_Err in H as [H|(a & s1 & H1 & H)]
  | ret _ _ = Err _ => discriminate H
  | fail _ _ = Err _ => injection H as <-
  | Ok _ _ = Err _ => discriminate H
  | OutOfFuel = Err _ => discriminate H
  | (let (_, _) := ?x in _) _ = _ => destruct x
  | (if ?b then _ else _) _ = _ => destruct b eqn:?
  | (match ?x with _ => _ end) _ = _ => destruct x eqn:?
  end.

Local Abbreviation kind := (errorKind validate).

Lemma parseIdent_Err s e : parseIdent s = Err e -> kind e.
Proof. unfold parseIdent. intros He. repeat stepE He. constructor. Qed.

Lemma segmentsLoop_Err fuel : forall idents s e,
  segmentsLoop fuel idents s = Err e -> kind e.
Proof.
  induction fuel as [|fuel IH]; intros idents s e He; [discriminate|].
  cbn [segmentsLoop] in He.
  repeat stepE He; eauto using parseIdent_Err.
Qed.

Lemma parseSegmentedIdents_Err fuel s e :
  parseSegmentedIdents fuel s = Err e -> kind e.
Proof.
  unfold parseSegmentedIdents. intros He.
  repeat stepE He; eauto using parseIdent_Err, segmentsLoop_Err, errorKind.
Qed.

Lemma parseRegex_Err s e : parseRegex s = Err e -> kind e.
Proof.
  unfold parseRegex. intros He. repeat stepE He; constructor.
Qed.

Lemma parseVarRef_Err fuel s e : parseVarRef fuel s = Err e -> kind e.
Proof.
  unfold parseVarRef. intros He.
  repeat stepE He; eauto using parseSegmentedIdents_Err, errorKind.
Qed.

Lemma bindParameter_Err lit s e :
  bindParameter params lit s = Err e -> kind e.
Proof.
  unfold bindParameter. intros He. repeat stepE He; constructor.
Qed.

Section ErrorsOverUnary.
Variable U : M Expr.
Hypothesis U_Err : forall s e, U s = Err e -> kind e.

Lemma parseOperand_Err op s e : parseOperand U op s = Err e -> kind e.
Proof.
  unfold parseOperand. intros He.
  destruct (IsRegexOp op); [|eauto].
  repeat stepE He; eauto using parseRegex_Err, errorKind.
Qed.

Lemma exprLoop_Err fuel : forall root s e,
  exprLoop U fuel root s = Err e -> kind e.
Proof.
  induction fuel as [|fuel IH]; intros root s e He; [discriminate|].
  cbn [exprLoop] in He.
  repeat stepE He; eauto using parseOperand_Err.
Qed.

Lemma ParseExpr_over_Err fuel s e :
  ParseExpr_over U fuel s = Err e -> kind e.
Proof.
  unfold ParseExpr_over. intros He.
  repeat stepE He; eauto using exprLoop_Err.
Qed.

Lemma callArgsLoop_Err fuel : forall args s e,
  callArgsLoop U fuel args s = Err e -> kind e.
Proof.
  induction fuel as [|fuel IH]; intros args s e He; [discriminate|].
  cbn [callArgsLoop] in He.
  repeat stepE He; eauto using parseRegex_Err, ParseExpr_over_Err.
Qed.

Lemma parseCall_over_Err fuel name s e :
  parseCall_over U fuel name s = Err e -> kind e.
Proof.
  unfold parseCall_over. intros He.
  repeat stepE He;
    eauto using parseRegex_Err, ParseExpr_over_Err, callArgsLoop_Err,
                errorKind.
Qed.
End ErrorsOverUnary.

Lemma parseUnaryExpr_Err fuel : forall s e,
  parseUnaryExpr params fuel s = Err e -> kind e.
Proof.
  induction fuel as [|fuel IH]; intros s e He; [discriminate|].
  cbn [parseUnaryExpr] in He.
  repeat stepE He;
    eauto using ParseExpr_over_Err, parseCall_over_Err, parseVarRef_Err,
                bindParameter_Err, errorKind.
Qed.

Lemma ParseExpr_Err fuel s e : ParseExpr params fuel s = Err e -> kind e.
Proof. apply ParseExpr_over_Err, parseUnaryExpr_Err. Qed.

Lemma parseAlias_Err s e : parseAlias s = Err e -> kind e.
Proof.
  unfold parseAlias. intros He. repeat stepE He; eauto using parseIdent_Err.
Qed.

Lemma parseField_Err fuel s e : parseField params fuel s = Err e -> kind e.
Proof.
  unfold parseField. intros He.
  repeat stepE He; eauto using ParseExpr_Err, parseAlias_Err.
  unfold Walk in *.
  destruct (WalkExpr_validateField a0 (mkValidateField false ILLEGAL))
    as [[_ Hc]|[_ (_ & Hb & _)]].
  - rewrite Hc in Heqb. discriminate.
  - apply kind_field. exact Hb.
Qed.

Lemma fieldsLoop_Err fuel : forall fields s e,
  fieldsLoop params fuel fields s = Err e -> kind e.
Proof.
  induction fuel as [|fuel IH]; intros fields s e He; [discriminate|].
  cbn [fieldsLoop] in He. repeat stepE He; eauto using parseField_Err.
Qed.

Lemma parseSource_Err fuel s e : parseSource fuel s = Err e -> kind e.
Proof.
  unfold parseSource. intros He.
  repeat stepE He; eauto using parseRegex_Err, parseSegmentedIdents_Err.
Qed.

Lemma sourcesLoop_Err fuel : forall sources s e,
  sourcesLoop fuel sources s = Err e -> kind e.
Proof.
  induction fuel as [|fuel IH]; intros sources s e He; [discriminate|].
  cbn [sourcesLoop] in He. repeat stepE He; eauto using parseSource_Err.
Qed.

Lemma parseCondition_Err fuel s e :
  parseCondition params fuel s = Err e -> kind e.
Proof.
  unfold parseCondition. intros He. repeat stepE He; eauto using ParseExpr_Err.
Qed.

Lemma parseSelectStatement_Err fuel s e :
  parseSelectStatement params validate fuel s = Err e -> kind e.
Proof.
  unfold parseSelectStatement, parseFields, parseSources. intros He.
  repeat stepE He;
    eauto using fieldsLoop_Err, sourcesLoop_Err, parseCondition_Err,
                errorKind.
Qed.

Lemma ParseStatement_Err fuel s e :
  ParseStatement params validate fuel s = Err e -> kind e.
Proof.
  unfold ParseStatement. intros He.
  repeat stepE He; eauto using parseSelectStatement_Err, errorKind.
Qed.

Lemma queryLoop_Err fuel : forall stmts semi s e,
  queryLoop params validate fuel stmts semi s = Err e -> kind e.
Proof.
  induction fuel as [|fuel IH]; intros stmts semi s e He; [discriminate|].
  cbn [queryLoop] in He.
  repeat stepE He; eauto using ParseStatement_Err, errorKind.
Qed.
End Properties.

(* ================================================================== *)
(** ** Texts *)

Lemma append_assoc (a b c : string) : (a ++ b) ++ c = a ++ (b ++ c).
Proof.
  induction a as [|x a IH]; [reflexivity|].
  change (String x ((a ++ b) ++ c) = String x (a ++ (b ++ c))).
  rewrite IH; reflexivity.
Qed.

Lemma lastRune_cons x c r : lastRune (String x (String c r)) = lastRune (String c r).
Proof. reflexivity. Qed.

Lemma lastRune_append (a : string) c r :
  lastRune (a ++ String c r) = lastRune (String c r).
Proof.
  induction a as [|x a IH]; [reflexivity|].
  change (String x a ++ String c r) with (String x (a ++ String c r)).
  destruct a as [|y a]; [reflexivity|].
  change (String y a ++ String c r) with (String y (a ++ String c r)) in *.
  rewrite lastRune_cons. exact IH.
Qed.

Lemma digits_of_last fuel : forall n c acc,
  exists x rest,
    digits_of fuel n (String c acc) = String x rest /\
    lastRune (String x rest) = lastRune (String c acc).
Proof.
  induction fuel as [|fuel IH]; intros n c acc; [eauto|].
  cbn [digits_of]. destruct (n <? 10); [eauto|].
  destruct (IH (n / 10) (digit_char (n mod 10)) (String c acc))
    as (x & rest & -> & Hl).
  exists x, rest. split; [reflexivity|]. rewrite Hl. reflexivity.
Qed.

Lemma digit_char_isDigit d : 0 <= d < 10 -> Ref.isDigit (digit_char d) = true.
Proof.
  intros Hd.
  assert (Hcases : d = 0 \/ d = 1 \/ d = 2 \/ d = 3 \/ d = 4 \/ d = 5
                   \/ d = 6 \/ d = 7 \/ d = 8 \/ d = 9) by lia.
  repeat destruct Hcases as [->|Hcases]; try subst d; reflexivity.
Qed.

Lemma digits_last n :
  0 <= n ->
  exists x rest,
    digits_of (S (Z.to_nat (Z.log2 n))) n "" = String x rest /\
    exists c, lastRune (String x rest) = Some c /\ Ref.isDigit c = true.
Proof.
  intros Hn. cbn [digits_of].
  assert (Hd : Ref.isDigit (digit_char (n mod 10)) = true)
    by (apply digit_char_isDigit, Z.mod_pos_bound; lia).
  destruct (n <? 10); [eauto 6|].
  destruct (digits_of_last (Z.to_nat (Z.log2 n)) (n / 10)
              (digit_char (n mod 10)) "") as (x & rest & -> & Hl).
  exists x, rest. split; [reflexivity|]. rewrite Hl. eauto.
Qed.

Lemma itoa_last n : exists c, lastRune (itoa n) = Some c /\ Ref.isDigit c = true.
Proof.
  unfold itoa. destruct (Z.ltb_spec n 0) as [Hneg|Hpos].
  - destruct (digits_last (- n)) as (x & rest & -> & c & Hc & Hd); [lia|].
    exists c. rewrite lastRune_cons. auto.
  - destruct (digits_last n Hpos) as (x & rest & -> & c & Hc & Hd). eauto.
Qed.

Lemma posSuffix_last p :
  exists c, lastRune (posSuffix p) = Some c /\ Ref.isDigit c = true.
Proof.
  unfold posSuffix.
  destruct (itoa_last (wrapInt (Char p + 1))) as (c & Hc & Hd).
  destruct (itoa (wrapInt (Char p + 1))) as [|x rest] eqn:E; [discriminate|].
  exists c. split; [|exact Hd].
  rewrite <- !append_assoc, lastRune_append. exact Hc.
Qed.

(** A text whose last rune is not a digit does not end with the position
    suffix. *)
Lemma not_endsWith_posSuffix (s : string) c p :
  lastRune s = Some c -> Ref.isDigit c = false -> ~ endsWith s (posSuffix p).
Proof.
  intros Hl Hc (front & ->).
  destruct (posSuffix_last p) as (d & Hd & Hdig).
  destruct (posSuffix p) as [|x rest] eqn:E; [discriminate|].
  rewrite lastRune_append, Hd in Hl. congruence.
Qed.

(* ================================================================== *)
(** ** The positions of the errors *)

Section PositionsOfErrors.
Context `{Runtime} `{Lexicon} `{TokenSource}.
Variable params : gmap string ParamValue.
Variable validate : SelectStatement -> option error.

Local Abbreviation tracked := (tracks validate).

Lemma tracks_ret s0 {A} (a : A) : tracked s0 (ret a).
Proof. intros s Hs. exact Hs. Qed.

Lemma tracks_bind s0 {A B} (m : M A) (k : A -> M B) :
  tracked s0 m -> (forall a, tracked s0 (k a)) -> tracked s0 (bind m k).
Proof.
  intros Hm Hk s Hs. unfold bind. specialize (Hm s Hs).
  destruct (m s) as [a s1|e|]; [|exact Hm|exact I].
  exact (Hk a s1 Hm).
Qed.

Lemma tracks_scan_bind s0 {B} (k : TokInfo -> M B) :
  (forall t, scanned s0 t -> tracked s0 (k t)) -> tracked s0 (bind scan k).
Proof.
  intros Hk s Hs. unfold bind, scan.
  destruct (Scan s) as [t s1] eqn:E.
  apply (Hk t).
  - exists s. split; [exact Hs|]. left. rewrite E. reflexivity.
  - replace s1 with (snd (Scan s)) by (rewrite E; reflexivity).
    apply reaches_Scan, Hs.
Qed.

Lemma tracks_scan s0 : tracked s0 scan.
Proof.
  intros s Hs. unfold scan. destruct (Scan s) as [t s1] eqn:E.
  replace s1 with (snd (Scan s)) by (rewrite E; reflexivity).
  apply reaches_Scan, Hs.
Qed.

Lemma tracks_scanIgnoreWhitespace_bind s0 {B} (k : TokInfo -> M B) :
  (forall t, scanned s0 t -> tracked s0 (k t)) ->
  tracked s0 (bind scanIgnoreWhitespace k).
Proof.
  intros Hk s Hs. unfold bind, scanIgnoreWhitespace, bind, scan, ret.
  destruct (Scan s) as [[[tok pos] lit] s1] eqn:E.
  assert (Hr1 : reaches s0 s1).
  { replace s1 with (snd (Scan s)) by (rewrite E; reflexivity).
    apply reaches_Scan, Hs. }
  destruct (tok_eqb tok WS).
  - destruct (Scan s1) as [t s2] eqn:E2. apply (Hk t).
    + exists s1. split; [exact Hr1|]. left. rewrite E2. reflexivity.
    + replace s2 with (snd (Scan s1)) by (rewrite E2; reflexivity).
      apply reaches_Scan, Hr1.
  - apply (Hk (tok, pos, lit)); [|exact Hr1].
    exists s. split; [exact Hs|]. left. rewrite E. reflexivity.
Qed.

Lemma tracks_ScanRegex_bind s0 {B} (k : TokInfo -> M B) :
  (forall t, scanned s0 t -> tracked s0 (k t)) ->
  tracked s0 (bind (fun s => let '(t, s') := ScanRegex s in Ok t s') k).
Proof.
  intros Hk s Hs. unfold bind.
  destruct (ScanRegex s) as [t s1] eqn:E.
  apply (Hk t).
  - exists s. split; [exact Hs|]. right. rewrite E. reflexivity.
  - replace s1 with (snd (ScanRegex s)) by (rewrite E; reflexivity).
    apply reaches_ScanRegex, Hs.
Qed.

Lemma tracks_unscan s0 : tracked s0 unscan.
Proof. intros s Hs. apply reaches_Unscan, Hs. Qed.

Lemma tracks_consumeWhitespace s0 : tracked s0 consumeWhitespace.
Proof.
  unfold consumeWhitespace. apply tracks_scan_bind. intros [[tok pos] lit] _.
  destruct (negb (tok_eqb tok WS)); [apply tracks_unscan | apply tracks_ret].
Qed.

Lemma tracks_peekRune s0 : tracked s0 peekRune.
Proof.
  intros s Hs. unfold peekRune. destruct (ReadRune s) as [r s1] eqn:E.
  assert (Hr1 : reaches s0 s1).
  { replace s1 with (snd (ReadRune s)) by (rewrite E; reflexivity).
    apply reaches_ReadRune, Hs. }
  destruct (negb (rune_eqb r eof)); [apply reaches_UnreadRune|]; exact Hr1.
Qed.

Lemma tracks_found s0 {A} tok pos lit expected :
  scanned s0 (tok, pos, lit) ->
  tracked s0 (fail (A:=A)
                (EParse (newParseError (tokstr tok lit) expected pos))).
Proof.
  intros Ht s _. right. left. exists tok, lit. split; [exact Ht|].
  left. split; reflexivity.
Qed.

Lemma tracks_message s0 {A} tok pos lit msg :
  scanned s0 (tok, pos, lit) ->
  tracked s0 (fail (A:=A) (EParse (messageError msg pos))).
Proof.
  intros Ht s _. right. left. exists tok, lit. split; [exact Ht|].
  right. split; reflexivity.
Qed.

Lemma tracks_plain s0 {A} msg : tracked s0 (fail (A:=A) (EPlain msg)).
Proof. intros s _. right. exact I. Qed.

Lemma tracks_validate s0 {A} stmt err :
  validate stmt = Some err -> tracked s0 (fail (A:=A) err).
Proof. intros Hv s _. left. exists stmt. exact Hv. Qed.

Lemma tracks_tooManySegments s0 {A} idents :
  (3 < length idents)%nat ->
  tracked s0 (fail (A:=A)
                (EParse (messageError
                           ("too many segments in " ++ QuoteIdent idents)
                           zeroPos))).
Proof.
  intros Hlen s _. right. right. exists idents. split; [exact Hlen|reflexivity].
Qed.

Ltac track :=
  repeat first
    [ apply tracks_ret
    | apply tracks_unscan
    | apply tracks_consumeWhitespace
    | apply tracks_peekRune
    | apply tracks_scan
    | apply tracks_plain
    | (eapply tracks_found; eassumption)
    | (eapply tracks_message; eassumption)
    | (eapply tracks_validate; eassumption)
    | assumption
    | match goal with
      | IH : forall _, tracks _ _ _ |- _ => apply IH
      | IH : forall _ _, tracks _ _ _ |- _ => apply IH
      end
    | (apply tracks_scanIgnoreWhitespace_bind; intros [[? ?] ?] ?;
       cbv beta iota)
    | (apply tracks_scan_bind; intros [[? ?] ?] ?; cbv beta iota)
    | (apply tracks_ScanRegex_bind; intros [[? ?] ?] ?; cbv beta iota)
    | (apply tracks_bind; [ | intros ?; cbv beta iota ])
    | match goal with
      | |- tracks _ _ (if ?b then _ else _) => destruct b eqn:?
      | |- tracks _ _ (match ?x with _ => _ end) => destruct x eqn:?
      end ].

Lemma tracks_parseIdent s0 : tracked s0 parseIdent.
Proof. unfold parseIdent. track. Qed.

Lemma tracks_segmentsLoop s0 fuel : forall idents,
  tracked s0 (segmentsLoop fuel idents).
Proof.
  induction fuel as [|fuel IH]; intros idents; [intros s _; exact I|].
  cbn [segmentsLoop]. pose proof (tracks_parseIdent s0). track.
Qed.

Lemma tracks_parseSegmentedIdents s0 fuel :
  tracked s0 (parseSegmentedIdents fuel).
Proof.
  unfold parseSegmentedIdents.
  pose proof (tracks_parseIdent s0). pose proof (tracks_segmentsLoop s0 fuel).
  track. apply tracks_tooManySegments.
  match goal with Hl : (3 <? _)%nat = true |- _ => apply Nat.ltb_lt in Hl; exact Hl end.
Qed.

Lemma tracks_parseRegex s0 : tracked s0 parseRegex.
Proof. unfold parseRegex. track. Qed.

Lemma tracks_parseVarRef s0 fuel : tracked s0 (parseVarRef fuel).
Proof.
  unfold parseVarRef. pose proof (tracks_parseSegmentedIdents s0 fuel). track.
Qed.

Section TracksOverUnary.
Variable U : M Expr.
Variable s0 : bufScanner.
Hypothesis U_tracks : tracked s0 U.

Lemma tracks_parseOperand op : tracked s0 (parseOperand U op).
Proof. unfold parseOperand. pose proof (tracks_parseRegex s0). track. Qed.

Lemma tracks_exprLoop fuel : forall root, tracked s0 (exprLoop U fuel root).
Proof.
  induction fuel as [|fuel IH]; intros root; [intros s _; exact I|].
  cbn [exprLoop]. pose proof tracks_parseOperand. track.
Qed.

Lemma tracks_ParseExpr_over fuel : tracked s0 (ParseExpr_over U fuel).
Proof. unfold ParseExpr_over. pose proof tracks_exprLoop. track. Qed.

Lemma tracks_callArgsLoop fuel : forall args,
  tracked s0 (callArgsLoop U fuel args).
Proof.
  induction fuel as [|fuel IH]; intros args; [intros s _; exact I|].
  cbn [callArgsLoop].
  pose proof (tracks_parseRegex s0). pose proof (tracks_ParseExpr_over fuel).
  track.
Qed.

Lemma tracks_parseCall_over fuel name :
  tracked s0 (parseCall_over U fuel name).
Proof.
  unfold parseCall_over.
  pose proof (tracks_parseRegex s0). pose proof (tracks_ParseExpr_over fuel).
  pose proof (tracks_callArgsLoop fuel). track.
Qed.
End TracksOverUnary.

Lemma tracks_bindParameter s0 lit : tracked s0 (bindParameter params lit).
Proof. unfold bindParameter. track. Qed.

Lemma tracks_parseUnaryExpr s0 fuel : tracked s0 (parseUnaryExpr params fuel).
Proof.
  induction fuel as [|fuel IH]; [intros s _; exact I|].
  cbn [parseUnaryExpr].
  pose proof (tracks_ParseExpr_over _ s0 IH fuel).
  pose proof (tracks_parseCall_over _ s0 IH fuel).
  pose proof (tracks_parseVarRef s0 fuel).
  pose proof (tracks_bindParameter s0).
  track.
Qed.

Lemma tracks_ParseExpr s0 fuel : tracked s0 (ParseExpr params fuel).
Proof. apply tracks_ParseExpr_over, tracks_parseUnaryExpr. Qed.

Lemma tracks_parseAlias s0 : tracked s0 parseAlias.
Proof. unfold parseAlias. pose proof (tracks_parseIdent s0). track. Qed.

Lemma tracks_parseField s0 fuel : tracked s0 (parseField params fuel).
Proof.
  unfold parseField.
  pose proof (tracks_ParseExpr s0 fuel). pose proof (tracks_parseAlias s0).
  track.
Qed.

Lemma tracks_fieldsLoop s0 fuel : forall fields,
  tracked s0 (fieldsLoop params fuel fields).
Proof.
  induction fuel as [|fuel IH]; intros fields; [intros s _; exact I|].
  cbn [fieldsLoop]. pose proof (tracks_parseField s0 fuel). track.
Qed.

Lemma tracks_parseSource s0 fuel : tracked s0 (parseSource fuel).
Proof.
  unfold parseSource.
  pose proof (tracks_parseRegex s0).
  pose proof (tracks_parseSegmentedIdents s0 fuel). track.
Qed.

Lemma tracks_sourcesLoop s0 fuel : forall sources,
  tracked s0 (sourcesLoop fuel sources).
Proof.
  induction fuel as [|fuel IH]; intros sources; [intros s _; exact I|].
  cbn [sourcesLoop]. pose proof (tracks_parseSource s0 fuel). track.
Qed.

Lemma tracks_parseCondition s0 fuel : tracked s0 (parseCondition params fuel).
Proof. unfold parseCondition. pose proof (tracks_ParseExpr s0 fuel). track. Qed.

Lemma tracks_parseSelectStatement s0 fuel :
  tracked s0 (parseSelectStatement params validate fuel).
Proof.
  unfold parseSelectStatement, parseFields, parseSources.
  pose proof (tracks_fieldsLoop s0 fuel).
  pose proof (tracks_sourcesLoop s0 fuel).
  pose proof (tracks_parseCondition s0 fuel). track.
Qed.

Lemma tracks_ParseStatement s0 fuel :
  tracked s0 (ParseStatement params validate fuel).
Proof.
  unfold ParseStatement. pose proof (tracks_parseSelectStatement s0 fuel).
  track.
Qed.

Lemma tracks_queryLoop s0 fuel : forall stmts semi,
  tracked s0 (queryLoop params validate fuel stmts semi).
Proof.
  induction fuel as [|fuel IH]; intros stmts semi; [intros s _; exact I|].
  cbn [queryLoop]. pose proof (tracks_ParseStatement s0 fuel). track.
Qed.

Lemma tracks_ParseQuery s0 fuel :
  tracked s0 (ParseQuery params validate fuel).
Proof. apply tracks_queryLoop. Qed.
End PositionsOfErrors.

(* ================================================================== *)
(** ** The claims *)

(** C1 (as amended).  Every expression [ParseExpr] accepts is ordered: at
    each binary expression a right operand that is a binary expression
    binds strictly tighter and a left one at least as tightly, so the
    tree respects the precedence and groups equal precedence to the left.
    Each new operator is put in place by going down the right spine past
    every binary expression whose operator has a precedence strictly
    below the one of the new operator; it goes above the rest of the
    spine, which becomes its left operand, and the new operand becomes
    its right operand.  [a + b * c] parses with [+] at the root and
    [b * c] on its right; [a - b - c] parses with [a - b] on the left of
    the root. *)
Theorem C1_precedence_climbing :
  (forall (rt : Runtime) (lx : Lexicon) (ts : TokenSource)
          (params : gmap string ParamValue) fuel s e s',
      ParseExpr params fuel s = Ok e s' -> ordered e = true)
  /\ (forall (rt : Runtime) (lx : Lexicon) (ts : TokenSource)
             (U : M Expr) fuel root s op pos lit s1 rhs s2,
         scanIgnoreWhitespace s = Ok (op, pos, lit) s1 ->
         isOperator op = true ->
         parseOperand U op s1 = Ok rhs s2 ->
         exprLoop U (S fuel) root s
         = exprLoop U fuel (insertOperator root op rhs) s2)
  /\ (forall (rt : Runtime) (lx : Lexicon) x y t op rhs,
         getRHS (insertOperator (BinaryExpr x y t) op rhs)
         = rebuild (looser op (spine t))
             (BinaryExpr op
                (rebuild (fromTighter op (spine t)) (spineEnd t)) rhs))
  /\ Ref.outcome (Ref.ParseExprString ∅ "a + b * c")
     = Some (inl (BinaryExpr ADD (Ref.var "a")
                    (BinaryExpr MUL (Ref.var "b") (Ref.var "c"))))
  /\ Ref.outcome (Ref.ParseExprString ∅ "a - b - c")
     = Some (inl (BinaryExpr SUB (BinaryExpr SUB (Ref.var "a") (Ref.var "b"))
                    (Ref.var "c"))).
Proof.
  split; [|split; [|split; [|split]]].
  - intros rt lx ts params fuel s e s' Hp.
    apply (ParseExpr_good params) in Hp. apply Hp.
  - intros. eapply exprLoop_operator; eassumption.
  - intros. apply insertOperator_spine.
  - vm_compute. reflexivity.
  - vm_compute. reflexivity.
Qed.

Lemma C1_precedence_climbing_witness :
  let s0 := newBufScanner "a + b * c" in
  let e := BinaryExpr ADD (Ref.var "a") (BinaryExpr MUL (Ref.var "b") (Ref.var "c")) in
  let s1 := Ref.stateOf (parseUnaryExpr ∅ 8 s0) in
  let s2 := Ref.stateOf (scanIgnoreWhitespace s1) in
  let s3 := Ref.stateOf (parseOperand (parseUnaryExpr ∅ 8) ADD s2) in
  let root := setRHS emptyBinaryExpr (Ref.var "a") in
  (ParseExpr ∅ 8 s0 = Ok e (Ref.stateOf (ParseExpr ∅ 8 s0)) /\ ordered e = true)
  /\ (scanIgnoreWhitespace s1 = Ok (ADD, mkPos 0 2, "") s2
      /\ isOperator ADD = true
      /\ parseOperand (parseUnaryExpr ∅ 8) ADD s2 = Ok (Ref.var "b") s3
      /\ exprLoop (parseUnaryExpr ∅ 8) 8 root s1
         = exprLoop (parseUnaryExpr ∅ 8) 7
             (insertOperator root ADD (Ref.var "b")) s3).
Proof.
  intros s0 e s1 s2 s3 root.
  destruct C1_precedence_climbing as (Hord & Hloop & _).
  split; split.
  - vm_compute; reflexivity.
  - apply (Hord Ref.runtime Ref.lexicon Ref.source ∅ 8%nat s0 e (Ref.stateOf (ParseExpr ∅ 8 s0))).
    vm_compute; reflexivity.
  - vm_compute; reflexivity.
  - split; [reflexivity|]. split; [vm_compute; reflexivity|].
    apply (Hloop Ref.runtime Ref.lexicon Ref.source (parseUnaryExpr ∅ 8)
             7%nat root s1 ADD (mkPos 0 2) "" s2 (Ref.var "b") s3);
      vm_compute; reflexivity.
Defined.

(** C1, the counterexample.  The specification has each new operator go
    down the right spine past every binary expression whose operator has
    a precedence [>=] its own.  On [a - b - c] the second [-] would then go
    below the first one and give [a - (b - c)]; the parser puts it above
    and returns [(a - b) - c]. *)
Lemma C1_counterexample :
  let root := setRHS emptyBinaryExpr (BinaryExpr SUB (Ref.var "a") (Ref.var "b")) in
  Ref.outcome (Ref.ParseExprString ∅ "a - b - c")
  = Some (inl (getRHS (insertOperator root SUB (Ref.var "c"))))
  /\ getRHS (insertOperator root SUB (Ref.var "c"))
     = BinaryExpr SUB (BinaryExpr SUB (Ref.var "a") (Ref.var "b")) (Ref.var "c")
  /\ getRHS (insertPastTighterOrEqual root SUB (Ref.var "c"))
     = BinaryExpr SUB (Ref.var "a") (BinaryExpr SUB (Ref.var "b") (Ref.var "c"))
  /\ insertOperator root SUB (Ref.var "c")
     <> insertPastTighterOrEqual root SUB (Ref.var "c").
Proof.
  repeat split; try (vm_compute; reflexivity).
  vm_compute. discriminate.
Qed.

(** C10.  When [parseUnaryExpr] returns [first] and the next token that is
    not whitespace is not an operator, [ParseExpr] returns exactly [first]
    (and pushes that token back).  Every expression [ParseExpr] returns is
    free of nil nodes, so the dummy root is neither the result nor a part
    of it; and the result is a binary expression only if the token after
    the first operand was an operator. *)
Theorem C10_first_operand_is_returned :
  forall (rt : Runtime) (lx : Lexicon) (ts : TokenSource)
         (params : gmap string ParamValue) fuel s,
    (forall first s1 tok pos lit s2,
        parseUnaryExpr params fuel s = Ok first s1 ->
        scanIgnoreWhitespace s1 = Ok (tok, pos, lit) s2 ->
        isOperator tok = false ->
        ParseExpr params fuel s = Ok first (Unscan s2))
    /\ (forall e s',
          ParseExpr params fuel s = Ok e s' ->
          nilFree e = true
          /\ exists first s1 tok pos lit s2,
              parseUnaryExpr params fuel s = Ok first s1
              /\ scanIgnoreWhitespace s1 = Ok (tok, pos, lit) s2
              /\ (isOperator tok = false -> e = first /\ s' = Unscan s2)
              /\ (isBinaryExpr e = true -> isOperator tok = true)).
Proof.
  intros rt lx ts params fuel s. split.
  - intros. eapply ParseExpr_first_operand; eassumption.
  - intros e s' Hp. split.
    + apply (ParseExpr_good params) in Hp. apply Hp.
    + apply ParseExpr_inv. exact Hp.
Qed.

Lemma C10_first_operand_is_returned_witness :
  let s0 := newBufScanner "value FROM cpu" in
  let s1 := Ref.stateOf (parseUnaryExpr ∅ 8 s0) in
  let s2 := Ref.stateOf (scanIgnoreWhitespace s1) in
  parseUnaryExpr ∅ 8 s0 = Ok (Ref.var "value") s1
  /\ scanIgnoreWhitespace s1 = Ok (FROM, mkPos 0 6, "") s2
  /\ isOperator FROM = false
  /\ ParseExpr ∅ 8 s0 = Ok (Ref.var "value") (Unscan s2)
  /\ nilFree (Ref.var "value") = true.
Proof.
  intros s0 s1 s2.
  destruct (C10_first_operand_is_returned Ref.runtime Ref.lexicon Ref.source ∅ 8%nat s0) as [Hfirst Hinv].
  assert (Hp : ParseExpr ∅ 8 s0 = Ok (Ref.var "value") (Unscan s2)).
  { apply (Hfirst (Ref.var "value") s1 FROM (mkPos 0 6) "" s2);
      vm_compute; reflexivity. }
  split; [vm_compute; reflexivity|].
  split; [vm_compute; reflexivity|].
  split; [reflexivity|].
  split; [exact Hp|].
  exact (proj1 (Hinv _ _ Hp)).
Defined.

(** C2.  For every SELECT statement that [parseSelectStatement] returns,
    the flag [IsRawQuery] is false if and only if some field expression
    contains a call node, at any depth; the flag is a field of the
    statement the parser builds.  [SELECT mean(value) FROM cpu] has the
    flag false and [SELECT value FROM cpu] has it true. *)
Theorem C2_IsRawQuery_iff_no_call :
  (forall (rt : Runtime) (lx : Lexicon) (ts : TokenSource)
          (params : gmap string ParamValue)
          (validate : SelectStatement -> option error) fuel s stmt s',
      parseSelectStatement params validate fuel s = Ok stmt s' ->
      (IsRawQuery stmt = false
       <-> Exists (fun f => containsCall (FExpr f)) (SFields stmt)))
  /\ Ref.outcome (Ref.ParseStatementString ∅ "SELECT mean(value) FROM cpu")
     = Some (inl (StmtSelect
          (mkSelectStatement
             [mkField (Call "mean" [Ref.var "value"]) ""]
             [mkMeasurement "" "" "cpu" None] NilExpr false)))
  /\ Ref.outcome (Ref.ParseStatementString ∅ "SELECT value FROM cpu")
     = Some (inl (StmtSelect
          (mkSelectStatement
             [mkField (Ref.var "value") ""]
             [mkMeasurement "" "" "cpu" None] NilExpr true))).
Proof.
  split; [|split; vm_compute; reflexivity].
  intros rt lx ts params validate fuel s stmt s' Hp.
  rewrite (parseSelectStatement_IsRawQuery params validate _ _ _ _ Hp).
  apply IsRawQuery_of_fields.
Qed.

Lemma C2_IsRawQuery_iff_no_call_witness :
  let s0 := Ref.stateOf (scanIgnoreWhitespace
                           (newBufScanner "SELECT mean(value) FROM cpu")) in
  let stmt := mkSelectStatement
                [mkField (Call "mean" [Ref.var "value"]) ""]
                [mkMeasurement "" "" "cpu" None] NilExpr false in
  let s1 := Ref.stateOf (parseSelectStatement ∅ (fun _ => None) 8 s0) in
  parseSelectStatement ∅ (fun _ => None) 8 s0 = Ok stmt s1
  /\ (IsRawQuery stmt = false
      <-> Exists (fun f => containsCall (FExpr f)) (SFields stmt)).
Proof.
  intros s0 stmt s1. split; [vm_compute; reflexivity|].
  apply (proj1 C2_IsRawQuery_iff_no_call Ref.runtime Ref.lexicon Ref.source ∅ (fun _ => None) 8%nat
           s0 stmt s1).
  vm_compute; reflexivity.
Defined.

(** C3.  When no regex leads a source, the segments [parseSegmentedIdents]
    returns go to the fields of the measurement by their number: three
    segments are database, retention policy and name; two segments are
    retention policy and name, or database and retention policy when a
    regex follows; one segment is the name, or the retention policy when a
    regex follows.  A dot followed at once by another dot adds an empty
    segment, so ["db"..m] has database [db], an empty retention policy and
    name [m]. *)
Theorem C3_segments_to_measurement :
  (forall (rt : Runtime) (lx : Lexicon) (ts : TokenSource)
          fuel s s1 idents s2,
      parseRegex s = Ok None s1 ->
      parseSegmentedIdents fuel s1 = Ok idents s2 ->
      (forall db rp name, idents = [db; rp; name] ->
         parseSource fuel s = Ok (mkMeasurement db rp name None) s2)
      /\ (forall rp name s3, idents = [rp; name] ->
           parseRegex s2 = Ok None s3 ->
           parseSource fuel s = Ok (mkMeasurement "" rp name None) s3)
      /\ (forall db rp re s3, idents = [db; rp] ->
           parseRegex s2 = Ok (Some re) s3 ->
           parseSource fuel s = Ok (mkMeasurement db rp "" (Some re)) s3)
      /\ (forall name s3, idents = [name] ->
           parseRegex s2 = Ok None s3 ->
           parseSource fuel s = Ok (mkMeasurement "" "" name None) s3)
      /\ (forall rp re s3, idents = [rp] ->
           parseRegex s2 = Ok (Some re) s3 ->
           parseSource fuel s = Ok (mkMeasurement "" rp "" (Some re)) s3))
  /\ (forall (rt : Runtime) (lx : Lexicon) (ts : TokenSource)
             fuel idents s p l s1 s2,
         Scan s = ((DOT, p, l), s1) ->
         peekRune s1 = Ok "."%char s2 ->
         segmentsLoop (S fuel) idents s
         = segmentsLoop fuel (idents ++ [""]) s2)
  /\ Ref.outcome (Ref.ParseStatementString ∅
        ("SELECT v FROM " ++ Ref.dq "db" ++ "." ++ Ref.dq "rp" ++ ".m"))
     = Some (inl (StmtSelect (mkSelectStatement [mkField (Ref.var "v") ""]
          [mkMeasurement "db" "rp" "m" None] NilExpr true)))
  /\ Ref.outcome (Ref.ParseStatementString ∅
        ("SELECT v FROM " ++ Ref.dq "rp" ++ ".m"))
     = Some (inl (StmtSelect (mkSelectStatement [mkField (Ref.var "v") ""]
          [mkMeasurement "" "rp" "m" None] NilExpr true)))
  /\ Ref.outcome (Ref.ParseStatementString ∅ "SELECT v FROM m")
     = Some (inl (StmtSelect (mkSelectStatement [mkField (Ref.var "v") ""]
          [mkMeasurement "" "" "m" None] NilExpr true)))
  /\ Ref.outcome (Ref.ParseStatementString ∅
        ("SELECT v FROM " ++ Ref.dq "db" ++ "..m"))
     = Some (inl (StmtSelect (mkSelectStatement [mkField (Ref.var "v") ""]
          [mkMeasurement "db" "" "m" None] NilExpr true))).
Proof.
  split; [|split; [|repeat split; vm_compute; reflexivity]].
  - intros. eapply parseSource_segments; eassumption.
  - intros. eapply segmentsLoop_empty_segment; eassumption.
Qed.

Lemma C3_segments_to_measurement_witness :
  let s0 := newBufScanner (" " ++ Ref.dq "db" ++ "..m") in
  let s1 := Ref.stateOf (parseRegex s0) in
  let s2 := Ref.stateOf (parseSegmentedIdents 8 s1) in
  let t0 := newBufScanner (" " ++ Ref.dq "rp" ++ "./cpu.*/") in
  let t1 := Ref.stateOf (parseRegex t0) in
  let t2 := Ref.stateOf (parseSegmentedIdents 8 t1) in
  let t3 := Ref.stateOf (parseRegex t2) in
  let u0 := Ref.stateOf (parseIdent s1) in
  let u1 := snd (Scan u0) in
  let u2 := Ref.stateOf (peekRune u1) in
  (parseRegex s0 = Ok None s1
   /\ parseSegmentedIdents 8 s1 = Ok ["db"; ""; "m"] s2
   /\ parseSource 8 s0 = Ok (mkMeasurement "db" "" "m" None) s2)
  /\ (parseRegex t0 = Ok None t1
      /\ parseSegmentedIdents 8 t1 = Ok ["rp"] t2
      /\ parseRegex t2 = Ok (Some "cpu.*") t3
      /\ parseSource 8 t0 = Ok (mkMeasurement "" "rp" "" (Some "cpu.*")) t3)
  /\ (Scan u0 = ((DOT, mkPos 0 5, ""), u1)
      /\ peekRune u1 = Ok "."%char u2
      /\ segmentsLoop 8 ["db"] u0 = segmentsLoop 7 (["db"] ++ [""]) u2).
Proof.
  intros s0 s1 s2 t0 t1 t2 t3 u0 u1 u2.
  destruct C3_segments_to_measurement as (Hsrc & Hempty & _).
  assert (Hs1 : parseRegex s0 = Ok None s1) by (vm_compute; reflexivity).
  assert (Hs2 : parseSegmentedIdents 8 s1 = Ok ["db"; ""; "m"] s2)
    by (vm_compute; reflexivity).
  assert (Ht1 : parseRegex t0 = Ok None t1) by (vm_compute; reflexivity).
  assert (Ht2 : parseSegmentedIdents 8 t1 = Ok ["rp"] t2)
    by (vm_compute; reflexivity).
  assert (Ht3 : parseRegex t2 = Ok (Some "cpu.*") t3)
    by (vm_compute; reflexivity).
  assert (Hu1 : Scan u0 = ((DOT, mkPos 0 5, ""), u1))
    by (vm_compute; reflexivity).
  assert (Hu2 : peekRune u1 = Ok "."%char u2) by (vm_compute; reflexivity).
  split; [|split].
  - split; [exact Hs1|]. split; [exact Hs2|].
    destruct (Hsrc Ref.runtime Ref.lexicon Ref.source 8%nat s0 s1 _ s2 Hs1 Hs2) as (H3 & _).
    apply H3. reflexivity.
  - split; [exact Ht1|]. split; [exact Ht2|]. split; [exact Ht3|].
    destruct (Hsrc Ref.runtime Ref.lexicon Ref.source 8%nat t0 t1 _ t2 Ht1 Ht2) as (_ & _ & _ & _ & H1).
    apply (H1 "rp" "cpu.*" t3); [reflexivity | exact Ht3].
  - split; [exact Hu1|]. split; [exact Hu2|].
    apply (Hempty Ref.runtime Ref.lexicon Ref.source 7%nat ["db"] u0 (mkPos 0 5) "" u1 u2 Hu1 Hu2).
Defined.

(** C4.  When the expression [ParseExpr] returns for a field contains, at
    any depth, a binary expression whose operator is a comparison or a
    boolean-logic operator, [parseField] fails with the error "invalid
    operator ... in SELECT clause at line L, char C; operator is intended
    for WHERE clause", which names such an operator of the expression
    and the position of the first token of the field.  After a WHERE
    token the same call of [ParseExpr] is the result of
    [parseCondition]: the expression is accepted there. *)
Theorem C4_boolean_operator_in_field :
  forall (rt : Runtime) (lx : Lexicon) (ts : TokenSource)
         (params : gmap string ParamValue) fuel,
    (forall s t0 pos l0 s1 e s2,
        scanIgnoreWhitespace s = Ok (t0, pos, l0) s1 ->
        ParseExpr params fuel (Unscan s1) = Ok e s2 ->
        containsBooleanOp e ->
        exists bad l r,
          isBooleanOp bad = true /\ subexpr (BinaryExpr bad l r) e /\
          parseField params fuel s
          = Err (EPlain
               ("invalid operator " ++ Token_String bad
                ++ " in SELECT clause at line " ++ itoa (Line pos + 1)
                ++ ", char " ++ itoa (Char pos + 1)
                ++ "; operator is intended for WHERE clause")))
    /\ (forall s pos lit s1 e s2,
          scanIgnoreWhitespace s = Ok (WHERE, pos, lit) s1 ->
          ParseExpr params fuel s1 = Ok e s2 ->
          parseCondition params fuel s = Ok e s2).
Proof.
  intros rt lx ts params fuel. split.
  - intros s t0 pos l0 s1 e s2 Hs Hp Hc.
    exact (parseField_rejects params fuel s t0 pos l0 s1 e s2 Hs Hp Hc).
  - intros s pos lit s1 e s2 Hs Hp.
    exact (parseCondition_accepts params fuel s pos lit s1 _ Hs Hp).
Qed.

Lemma C4_boolean_operator_in_field_witness :
  let e := BinaryExpr GT (Ref.var "value") (IntegerLiteral 10) in
  let s0 := Ref.stateOf (scanIgnoreWhitespace
                           (newBufScanner "SELECT value > 10 FROM cpu")) in
  let s1 := Ref.stateOf (scanIgnoreWhitespace s0) in
  let s2 := Ref.stateOf (ParseExpr ∅ 8 (Unscan s1)) in
  let w0 := newBufScanner " WHERE value > 10" in
  let w1 := Ref.stateOf (scanIgnoreWhitespace w0) in
  let w2 := Ref.stateOf (ParseExpr ∅ 8 w1) in
  (scanIgnoreWhitespace s0 = Ok (IDENT, mkPos 0 7, "value") s1
   /\ ParseExpr ∅ 8 (Unscan s1) = Ok e s2
   /\ containsBooleanOp e
   /\ parseField ∅ 8 s0
      = Err (EPlain "invalid operator > in SELECT clause at line 1, char 8; operator is intended for WHERE clause"))
  /\ (scanIgnoreWhitespace w0 = Ok (WHERE, mkPos 0 1, "") w1
      /\ ParseExpr ∅ 8 w1 = Ok e w2
      /\ parseCondition ∅ 8 w0 = Ok e w2).
Proof.
  intros e s0 s1 s2 w0 w1 w2.
  destruct (C4_boolean_operator_in_field Ref.runtime Ref.lexicon Ref.source ∅ 8%nat) as [Hfield Hwhere].
  assert (Hs1 : scanIgnoreWhitespace s0 = Ok (IDENT, mkPos 0 7, "value") s1)
    by (vm_compute; reflexivity).
  assert (Hs2 : ParseExpr ∅ 8 (Unscan s1) = Ok e s2)
    by (vm_compute; reflexivity).
  assert (Hc : containsBooleanOp e).
  { exists GT, (Ref.var "value"), (IntegerLiteral 10).
    split; [constructor | reflexivity]. }
  assert (Hw1 : scanIgnoreWhitespace w0 = Ok (WHERE, mkPos 0 1, "") w1)
    by (vm_compute; reflexivity).
  assert (Hw2 : ParseExpr ∅ 8 w1 = Ok e w2) by (vm_compute; reflexivity).
  split.
  - split; [exact Hs1|]. split; [exact Hs2|]. split; [exact Hc|].
    destruct (Hfield s0 _ _ _ s1 e s2 Hs1 Hs2 Hc)
      as (bad & l & r & _ & Hsub & He).
    assert (Hbad : bad = GT).
    { inversion Hsub as [Heq|op a b Hin|op a b Hin| |]; subst;
        [reflexivity | inversion Hin | inversion Hin]. }
    rewrite He, Hbad. reflexivity.
  - split; [exact Hw1|]. split; [exact Hw2|].
    exact (Hwhere w0 _ _ w1 e w2 Hw1 Hw2).
Defined.

(** C5.  When the token [parseUnaryExpr] reads is a bound parameter
    [$name]: an empty name is the error "empty bound parameter"; a name
    that is not in the parameter map is the error "missing parameter";
    otherwise the run-time type of the value picks the literal — a
    64-bit float a [NumberLiteral], a 64-bit integer an [IntegerLiteral],
    a string a [StringLiteral], a boolean a [BooleanLiteral] — and a
    value of any other type is the error "unable to bind parameter". *)
Theorem C5_bound_parameter :
  forall (rt : Runtime) (lx : Lexicon) (ts : TokenSource)
         (params : gmap string ParamValue) fuel s t0 p0 l0 s1 pos lit s2,
    scanIgnoreWhitespace s = Ok (t0, p0, l0) s1 ->
    t0 <> LPAREN ->
    scanIgnoreWhitespace (Unscan s1) = Ok (BOUNDPARAM, pos, lit) s2 ->
    let k := TrimPrefix_dollar lit in
    parseUnaryExpr params (S fuel) s
    = if String.eqb k "" then Err (EPlain "empty bound parameter")
      else match params !! k with
           | None => Err (EPlain ("missing parameter: " ++ k))
           | Some (PFloat64 v) => Ok (NumberLiteral v) s2
           | Some (PInt64 v) => Ok (IntegerLiteral v) s2
           | Some (PString v) => Ok (StringLiteral v) s2
           | Some (PBool v) => Ok (BooleanLiteral v) s2
           | Some (POther ty) =>
               Err (EPlain ("unable to bind parameter with type " ++ ty))
           end.
Proof.
  intros rt lx ts params fuel s t0 p0 l0 s1 pos lit s2 Hs Hne Hs2 k.
  rewrite (parseUnaryExpr_BOUNDPARAM params fuel s t0 p0 l0 s1 pos lit s2
             Hs Hne Hs2).
  unfold bindParameter. fold k.
  destruct k as [|c k']; [reflexivity|].
  cbn [String.length Nat.eqb String.eqb].
  replace (String.eqb (String c k') "") with false by reflexivity.
  destruct (params !! String c k') as [[v|v|v|v|ty]|]; reflexivity.
Qed.

Lemma C5_bound_parameter_witness :
  let params : gmap string ParamValue := <["host" := PString "server01"]> ∅ in
  let s0 := newBufScanner " $host" in
  let s1 := Ref.stateOf (scanIgnoreWhitespace s0) in
  let s2 := Ref.stateOf (scanIgnoreWhitespace (Unscan s1)) in
  scanIgnoreWhitespace s0 = Ok (BOUNDPARAM, mkPos 0 1, "$host") s1
  /\ BOUNDPARAM <> LPAREN
  /\ scanIgnoreWhitespace (Unscan s1) = Ok (BOUNDPARAM, mkPos 0 1, "$host") s2
  /\ parseUnaryExpr params 1 s0 = Ok (StringLiteral "server01") s2
  /\ parseUnaryExpr ∅ 1 s0 = Err (EPlain "missing parameter: host").
Proof.
  intros params s0 s1 s2.
  assert (Hs1 : scanIgnoreWhitespace s0 = Ok (BOUNDPARAM, mkPos 0 1, "$host") s1)
    by (vm_compute; reflexivity).
  assert (Hne : BOUNDPARAM <> LPAREN) by discriminate.
  assert (Hs2 : scanIgnoreWhitespace (Unscan s1)
                = Ok (BOUNDPARAM, mkPos 0 1, "$host") s2)
    by (vm_compute; reflexivity).
  split; [exact Hs1|]. split; [exact Hne|]. split; [exact Hs2|]. split.
  - rewrite (C5_bound_parameter Ref.runtime Ref.lexicon Ref.source params 0%nat s0 _ _ _ s1 _ _ s2
               Hs1 Hne Hs2).
    vm_compute. reflexivity.
  - rewrite (C5_bound_parameter Ref.runtime Ref.lexicon Ref.source ∅ 0%nat s0 _ _ _ s1 _ _ s2
               Hs1 Hne Hs2).
    vm_compute. reflexivity.
Defined.

(** C6.  In the loop of [ParseQuery], after a statement has been parsed
    the semicolon flag is false; with the flag false, a token that is
    neither the end of the input nor a semicolon is the found/expected
    error with the expected set [";"], at that token; a semicolon sets
    the flag again.  So a second statement that starts right after a
    first one, with no semicolon in between, fails with that error. *)
Theorem C6_statements_need_semicolon :
  forall (rt : Runtime) (lx : Lexicon) (ts : TokenSource)
         (params : gmap string ParamValue)
         (validate : SelectStatement -> option error) fuel stmts,
    (forall s tok pos lit s1 st s2,
        scanIgnoreWhitespace s = Ok (tok, pos, lit) s1 ->
        tok <> EOF -> tok <> SEMICOLON ->
        ParseStatement params validate (S fuel) (Unscan s1) = Ok st s2 ->
        queryLoop params validate (S (S fuel)) stmts true s
        = queryLoop params validate (S fuel) (stmts ++ [st]) false s2)
    /\ (forall s tok pos lit s1,
          scanIgnoreWhitespace s = Ok (tok, pos, lit) s1 ->
          tok <> EOF -> tok <> SEMICOLON ->
          queryLoop params validate (S fuel) stmts false s
          = Err (EParse (newParseError (tokstr tok lit) [";"] pos)))
    /\ (forall semi s pos lit s1,
          scanIgnoreWhitespace s = Ok (SEMICOLON, pos, lit) s1 ->
          queryLoop params validate (S fuel) stmts semi s
          = queryLoop params validate fuel stmts true s1)
    /\ (forall s tok pos lit s1 st s2 tok2 pos2 lit2 s3,
          scanIgnoreWhitespace s = Ok (tok, pos, lit) s1 ->
          tok <> EOF -> tok <> SEMICOLON ->
          ParseStatement params validate (S fuel) (Unscan s1) = Ok st s2 ->
          scanIgnoreWhitespace s2 = Ok (tok2, pos2, lit2) s3 ->
          tok2 <> EOF -> tok2 <> SEMICOLON ->
          queryLoop params validate (S (S fuel)) stmts true s
          = Err (EParse (newParseError (tokstr tok2 lit2) [";"] pos2))).
Proof.
  intros rt lx ts params validate fuel stmts.
  split; [|split; [|split]].
  - intros. eapply queryLoop_statement; eassumption.
  - intros. eapply queryLoop_missing_semicolon; eassumption.
  - intros. eapply queryLoop_semicolon; eassumption.
  - intros s tok pos lit s1 st s2 tok2 pos2 lit2 s3 Hs He Hsemi Hp Hs2 He2 Hsemi2.
    rewrite (queryLoop_statement params validate _ _ _ _ _ _ _ _ _
               Hs He Hsemi Hp).
    eapply queryLoop_missing_semicolon; eassumption.
Qed.

Lemma C6_statements_need_semicolon_witness :
  let valid : SelectStatement -> option error := fun _ => None in
  let s0 := newBufScanner "SELECT a FROM b SELECT c FROM d" in
  let s1 := Ref.stateOf (scanIgnoreWhitespace s0) in
  let st := StmtSelect (mkSelectStatement [mkField (Ref.var "a") ""]
                          [mkMeasurement "" "" "b" None] NilExpr true) in
  let s2 := Ref.stateOf (ParseStatement ∅ valid 7 (Unscan s1)) in
  let s3 := Ref.stateOf (scanIgnoreWhitespace s2) in
  scanIgnoreWhitespace s0 = Ok (SELECT, zeroPos, "") s1
  /\ SELECT <> EOF /\ SELECT <> SEMICOLON
  /\ ParseStatement ∅ valid 7 (Unscan s1) = Ok st s2
  /\ scanIgnoreWhitespace s2 = Ok (SELECT, mkPos 0 16, "") s3
  /\ ParseQuery ∅ valid 8 s0
     = Err (EParse (mkParseError "" "SELECT" [";"] (mkPos 0 16))).
Proof.
  intros valid s0 s1 st s2 s3.
  assert (Hs1 : scanIgnoreWhitespace s0 = Ok (SELECT, zeroPos, "") s1)
    by (vm_compute; reflexivity).
  assert (He : SELECT <> EOF) by discriminate.
  assert (Hsemi : SELECT <> SEMICOLON) by discriminate.
  assert (Hp : ParseStatement ∅ valid 7 (Unscan s1) = Ok st s2)
    by (vm_compute; reflexivity).
  assert (Hs3 : scanIgnoreWhitespace s2 = Ok (SELECT, mkPos 0 16, "") s3)
    by (vm_compute; reflexivity).
  repeat (split; [assumption|]).
  destruct (C6_statements_need_semicolon Ref.runtime Ref.lexicon Ref.source ∅ valid 6%nat [])
    as (_ & _ & _ & Hboth).
  exact (Hboth s0 _ _ _ s1 st s2 _ _ _ s3 Hs1 He Hsemi Hp Hs3 He Hsemi).
Defined.

(** C7.  When the segments read for a source or a variable reference are
    more than three, [parseSegmentedIdents] fails with the error "too
    many segments in ..." on the quoted segments, and so do [parseVarRef]
    and [parseSource]; the lists [parseSegmentedIdents] returns have one
    to three segments. *)
Theorem C7_too_many_segments :
  forall (rt : Runtime) (lx : Lexicon) (ts : TokenSource) fuel,
    (forall s ident s1 idents s2,
        parseIdent s = Ok ident s1 ->
        segmentsLoop fuel [ident] s1 = Ok idents s2 ->
        (3 < length idents)%nat ->
        let err := EParse (mkParseError
                             ("too many segments in " ++ QuoteIdent idents)
                             "" [] zeroPos) in
        parseSegmentedIdents fuel s = Err err
        /\ parseVarRef fuel s = Err err
        /\ (forall s0, parseRegex s0 = Ok None s ->
                       parseSource fuel s0 = Err err))
    /\ (forall s idents s',
          parseSegmentedIdents fuel s = Ok idents s' ->
          (1 <= length idents <= 3)%nat).
Proof.
  intros rt lx ts fuel. split.
  - intros s ident s1 idents s2 Hi Hl Hlen err.
    assert (He : parseSegmentedIdents fuel s = Err err).
    { rewrite (parseSegmentedIdents_Ok fuel s ident s1 idents s2 Hi Hl).
      apply Nat.ltb_lt in Hlen. rewrite Hlen. reflexivity. }
    split; [exact He|]. split.
    + apply parseVarRef_segments_error. exact He.
    + intros s0 Hr. eapply parseSource_segments_error; eassumption.
  - intros s idents s' Hp. eapply parseSegmentedIdents_length. exact Hp.
Qed.

Lemma C7_too_many_segments_witness :
  let s0 := newBufScanner " a.b.c.d" in
  let s := Ref.stateOf (parseRegex s0) in
  let s1 := Ref.stateOf (parseIdent s) in
  let s2 := Ref.stateOf (segmentsLoop 8 ["a"] s1) in
  let err := EParse (mkParseError
                       ("too many segments in " ++ Ref.dq "a" ++ "."
                        ++ Ref.dq "b" ++ "." ++ Ref.dq "c" ++ ".d")
                       "" [] zeroPos) in
  parseRegex s0 = Ok None s
  /\ parseIdent s = Ok "a" s1
  /\ segmentsLoop 8 ["a"] s1 = Ok ["a"; "b"; "c"; "d"] s2
  /\ (3 < length ["a"; "b"; "c"; "d"])%nat
  /\ parseSegmentedIdents 8 s = Err err
  /\ parseVarRef 8 s = Err err
  /\ parseSource 8 s0 = Err err.
Proof.
  intros s0 s s1 s2 err.
  assert (Hr : parseRegex s0 = Ok None s) by (vm_compute; reflexivity).
  assert (Hi : parseIdent s = Ok "a" s1) by (vm_compute; reflexivity).
  assert (Hl : segmentsLoop 8 ["a"] s1 = Ok ["a"; "b"; "c"; "d"] s2)
    by (vm_compute; reflexivity).
  assert (Hlen : (3 < length ["a"; "b"; "c"; "d"])%nat) by (cbn; lia).
  repeat (split; [assumption|]).
  destruct (C7_too_many_segments Ref.runtime Ref.lexicon Ref.source 8%nat) as [Hmany _].
  destruct (Hmany s "a" s1 _ s2 Hi Hl Hlen) as (H1 & H2 & H3).
  split; [exact H1|]. split; [exact H2|]. exact (H3 s0 Hr).
Defined.

(** C8 (as amended).  A [ParseError] renders as its message, or as its
    found/expected text when the message is empty, followed by
    [ at line L, char C], where L and C are the line and the character
    of its position plus one, as a Go [int] computes them: exactly plus
    one for every position below the largest [int].  Every error a parse
    of a query returns is a [ParseError], or the plain error of the field
    check (which has the position before its last clause), or one of the
    three plain errors of a bound parameter (which have no position), or
    the error of the validation hook.  And a [ParseError] that
    [ParseQuery], [ParseStatement] or [ParseExpr] returns, when it is not
    the error of the validation hook, has the position of a token the
    token source returned, which for a found/expected error is the token
    reported as found; the one exception is the error of too many
    segments, which is built without a position and so has the zero
    position. *)
Theorem C8_errors_and_positions :
  (forall pe : ParseError,
      ParseError_Error pe
      = (if negb (String.eqb (Message pe) "") then Message pe
         else "found " ++ Found pe ++ ", expected "
              ++ Join (Expected pe) ", ")
        ++ " at line " ++ itoa (wrapInt (Line (EPos pe) + 1))
        ++ ", char " ++ itoa (wrapInt (Char (EPos pe) + 1)))
  /\ (forall n : Z, - 2 ^ 63 <= n < 2 ^ 63 - 1 -> wrapInt (n + 1) = n + 1)
  /\ (forall (rt : Runtime) (lx : Lexicon) (ts : TokenSource)
             (params : gmap string ParamValue)
             (validate : SelectStatement -> option error) fuel s e,
         ParseQuery params validate fuel s = Err e ->
         errorKind validate e)
  /\ (forall (rt : Runtime) (lx : Lexicon) (ts : TokenSource)
             (params : gmap string ParamValue)
             (validate : SelectStatement -> option error) fuel s pe,
         ParseQuery params validate fuel s = Err (EParse pe)
         \/ ParseStatement params validate fuel s = Err (EParse pe)
         \/ ParseExpr params fuel s = Err (EParse pe) ->
         (exists stmt, validate stmt = Some (EParse pe))
         \/ positioned s pe).
Proof.
  split; [|split; [|split]].
  - intros pe. unfold ParseError_Error, posSuffix.
    destruct (negb (String.eqb (Message pe) "")); [reflexivity|].
    rewrite !append_assoc. reflexivity.
  - intros n Hn. unfold wrapInt. rewrite Z.mod_small; lia.
  - intros rt lx ts params validate fuel s e He.
    exact (queryLoop_Err params validate fuel [] true s e He).
  - intros rt lx ts params validate fuel s pe [He|[He|He]].
    + pose proof (tracks_ParseQuery params validate s fuel s
                    (reaches_here s)) as Ht.
      rewrite He in Ht. exact Ht.
    + pose proof (tracks_ParseStatement params validate s fuel s
                    (reaches_here s)) as Ht.
      rewrite He in Ht. exact Ht.
    + pose proof (tracks_ParseExpr params validate s fuel s
                    (reaches_here s)) as Ht.
      rewrite He in Ht. exact Ht.
Qed.

Lemma C8_errors_and_positions_witness :
  let valid : SelectStatement -> option error := fun _ => None in
  let s0 := newBufScanner "SELECT a FROM b SELECT c FROM d" in
  let pe := mkParseError "" "SELECT" [";"] (mkPos 0 16) in
  ParseQuery ∅ valid 8 s0 = Err (EParse pe)
  /\ errorKind valid (EParse pe)
  /\ positioned s0 pe
  /\ - 2 ^ 63 <= 16 < 2 ^ 63 - 1
  /\ wrapInt (16 + 1) = 16 + 1
  /\ error_Error (EParse pe) = "found SELECT, expected ; at line 1, char 17".
Proof.
  intros valid s0 pe.
  assert (He : ParseQuery ∅ valid 8 s0 = Err (EParse pe))
    by (vm_compute; reflexivity).
  assert (Hn : - 2 ^ 63 <= 16 < 2 ^ 63 - 1) by lia.
  destruct C8_errors_and_positions as (_ & Hwrap & Hkind & Hpos).
  split; [exact He|]. split; [|split; [|split; [|split]]].
  - exact (Hkind Ref.runtime Ref.lexicon Ref.source ∅ valid 8%nat s0 _ He).
  - destruct (Hpos Ref.runtime Ref.lexicon Ref.source ∅ valid 8%nat s0 pe
                (or_introl He)) as [(stmt & Hv)|Hp]; [discriminate Hv|exact Hp].
  - exact Hn.
  - exact (Hwrap 16 Hn).
  - vm_compute. reflexivity.
Defined.

(** C8, the counterexample.  With no parameter bound, the query
    [SELECT value FROM cpu WHERE host = $host] fails with a plain error
    that has no position: it renders as "missing parameter: host", which
    ends with no position suffix.  [SELECT value > 10 FROM cpu] fails
    with the error of the field check, which has its position in the
    middle of the text and does not end with it either.  And a reference
    of four segments that starts the second line of a query fails with
    the error of too many segments at the zero position, rendered at
    line 1, char 1. *)
Lemma C8_counterexample :
  (Ref.outcome (Ref.ParseQueryString ∅ "SELECT value FROM cpu WHERE host = $host")
   = Some (inr (EPlain "missing parameter: host"))
   /\ (forall pe, EPlain "missing parameter: host" <> EParse pe)
   /\ forall p, ~ endsWith (error_Error (EPlain "missing parameter: host"))
                           (posSuffix p))
  /\ (exists e,
        Ref.outcome (Ref.ParseQueryString ∅ "SELECT value > 10 FROM cpu")
        = Some (inr e)
        /\ error_Error e
           = "invalid operator > in SELECT clause at line 1, char 8; operator is intended for WHERE clause"
        /\ forall p, ~ endsWith (error_Error e) (posSuffix p))
  /\ (let text := "SELECT v FROM m WHERE" ++ String newline "a.b.c.d = 1" in
      let e := EParse (messageError
                         ("too many segments in "
                          ++ QuoteIdent ["a"; "b"; "c"; "d"]) zeroPos) in
      Ref.outcome (Ref.ParseQueryString ∅ text) = Some (inr e)
      /\ Ref.outcome
           (bind (parseTokens [SELECT; IDENT; FROM; IDENT; WHERE])
              (fun _ => scanIgnoreWhitespace) (newBufScanner text))
         = Some (inl (IDENT, mkPos 1 0, "a"))
      /\ error_Error e
         = "too many segments in " ++ QuoteIdent ["a"; "b"; "c"; "d"]
           ++ " at line 1, char 1").
Proof.
  split; [|split].
  - split; [vm_compute; reflexivity|]. split; [discriminate|].
    intros p. apply (not_endsWith_posSuffix _ "t"%char); reflexivity.
  - eexists. split; [vm_compute; reflexivity|]. split; [reflexivity|].
    intros p. apply (not_endsWith_posSuffix _ "e"%char); reflexivity.
  - cbv zeta. split; [vm_compute; reflexivity|].
    split; vm_compute; reflexivity.
Qed.

(* ================================================================== *)
(** ** Quoting and reading back *)

Lemma append_cons c (a b : string) : String c a ++ b = String c (a ++ b).
Proof. reflexivity. Qed.

Lemma append_nil_r (a : string) : a ++ "" = a.
Proof.
  induction a as [|x a IH]; [reflexivity|].
  rewrite append_cons, IH. reflexivity.
Qed.

Lemma Join_cons x l sep :
  l <> [] -> Join (x :: l) sep = x ++ sep ++ Join l sep.
Proof. destruct l; [congruence | reflexivity]. Qed.

Section QuotingRule.
Context `{Lexicon}.

Lemma IdentNeedsQuotes_rule segment :
  IdentNeedsQuotes segment
  = negb (tok_eqb (Lookup segment) IDENT) || badIdentRunes true segment.
Proof.
  unfold IdentNeedsQuotes. destruct (tok_eqb (Lookup segment) IDENT); reflexivity.
Qed.

Lemma QuoteIdent_render segments :
  QuoteIdent segments = Join (render_segments segments) ".".
Proof.
  induction segments as [|x rest IH]; [reflexivity|].
  cbn [QuoteIdent]. rewrite IH, IdentNeedsQuotes_rule.
  destruct rest as [|y rest].
  - cbn [render_segments Join]. unfold render_segment, quoted_segment, quoteIf.
    cbn [negb andb]. rewrite orb_false_r.
    destruct (negb (tok_eqb (Lookup x) IDENT) || badIdentRunes true x).
    + rewrite append_cons. change ("" ++ ?a) with a.
      rewrite !append_nil_r. reflexivity.
    + change ("" ++ ?a) with a. rewrite !append_nil_r. reflexivity.
  - change (render_segments (x :: y :: rest))
      with (render_segment false x :: render_segments (y :: rest)).
    rewrite Join_cons by (destruct rest; discriminate).
    unfold render_segment, quoted_segment, quoteIf.
    cbn [negb andb].
    destruct (negb (tok_eqb (Lookup x) IDENT) || badIdentRunes true x
              || negb (String.eqb x "")).
    + rewrite !append_cons. change ("" ++ ?a) with a.
      rewrite !append_assoc. reflexivity.
    + change ("" ++ ?a) with a. reflexivity.
Qed.

Lemma badIdentRunes_rest s :
  badIdentRunes false s
  = existsb (fun c => negb (isIdentChar c)) (list_ascii_of_string s).
Proof.
  induction s as [|c s IH]; [reflexivity|].
  cbn [badIdentRunes list_ascii_of_string existsb andb negb].
  destruct (isIdentChar c); cbn [negb orb]; [exact IH | reflexivity].
Qed.

Lemma badIdentRunes_first c s :
  badIdentRunes true (String c s)
  = negb (isIdentFirstChar c)
    || existsb (fun c => negb (isIdentChar c)) (list_ascii_of_string s).
Proof.
  cbn [badIdentRunes andb negb].
  destruct (isIdentFirstChar c); cbn [negb orb]; [|reflexivity].
  apply badIdentRunes_rest.
Qed.
End QuotingRule.

(** *** The reference scanner on the text [QuoteIdent] writes *)

Lemma identFirst_facts c :
  Ref.isIdentFirstChar c = true ->
  Ref.isWhitespace c = false /\ Ascii.eqb c dquote = false
  /\ Ref.isIdentChar c = true /\ Ref.isDigit c = false
  /\ Ascii.eqb c "/" = false /\ Ascii.eqb c ":" = false
  /\ Ascii.eqb c "." = false /\ Ascii.eqb c eof = false
  /\ (Ref.isLetter c || Ascii.eqb c "_") = true.
Proof.
  destruct c as [[] [] [] [] [] [] [] []]; vm_compute; intros Hc;
    try discriminate Hc; repeat split.
Qed.

Lemma quoted_qiReplace seg : forall rest p,
  exists p',
    Ref.quoted dquote (qiReplace seg ++ String dquote rest) p
    = ((STRING, seg), (rest, p')).
Proof.
  induction seg as [|c seg IH]; intros rest p.
  - eexists. cbn [qiReplace]. change ("" ++ ?a) with a.
    cbn [Ref.quoted]. rewrite Ascii.eqb_refl. reflexivity.
  - cbn [qiReplace].
    destruct (Ascii.eqb c newline) eqn:Enl;
      [|destruct (Ascii.eqb c "\") eqn:Ebs;
        [|destruct (Ascii.eqb c dquote) eqn:Edq]].
    + apply Ascii.eqb_eq in Enl; subst c.
      rewrite !append_assoc, !append_cons. change ("" ++ ?a) with a.
      cbn [Ref.quoted].
      change (Ascii.eqb "\" dquote) with false.
      change (Ascii.eqb "\" newline) with false.
      change (Ascii.eqb "\" "\") with true.
      change (Ascii.eqb "n" "n") with true. cbv iota.
      destruct (IH rest (Ref.advance (Ref.advance p "\") "n")) as (p' & ->).
      eexists. reflexivity.
    + apply Ascii.eqb_eq in Ebs; subst c.
      rewrite !append_assoc, !append_cons. change ("" ++ ?a) with a.
      cbn [Ref.quoted].
      change (Ascii.eqb "\" dquote) with false.
      change (Ascii.eqb "\" newline) with false.
      change (Ascii.eqb "\" "\") with true.
      change (Ascii.eqb "\" "n") with false. cbv iota.
      destruct (IH rest (Ref.advance (Ref.advance p "\") "\")) as (p' & ->).
      eexists. reflexivity.
    + apply Ascii.eqb_eq in Edq; subst c.
      rewrite !append_assoc, !append_cons. change ("" ++ ?a) with a.
      cbn [Ref.quoted].
      change (Ascii.eqb "\" dquote) with false.
      change (Ascii.eqb "\" newline) with false.
      change (Ascii.eqb "\" "\") with true.
      change (Ascii.eqb dquote "n") with false.
      change (Ascii.eqb dquote "\") with false.
      change (Ascii.eqb dquote dquote) with true. cbv iota.
      destruct (IH rest (Ref.advance (Ref.advance p "\") dquote)) as (p' & ->).
      eexists. reflexivity.
    + rewrite !append_cons. change ("" ++ ?a) with a.
      cbn [Ref.quoted]. rewrite Edq, Enl, Ebs.
      destruct (IH rest (Ref.advance p c)) as (p' & ->).
      eexists. reflexivity.
Qed.

Lemma takeWhile_identChars seg : forall p,
  @badIdentRunes Ref.lexicon false seg = false ->
  exists p', Ref.takeWhile Ref.isIdentChar seg p = (seg, ("", p')).
Proof.
  induction seg as [|c seg IH]; intros p Hb; [eexists; reflexivity|].
  cbn [badIdentRunes andb negb] in Hb.
  change (@isIdentChar Ref.lexicon c) with (Ref.isIdentChar c) in Hb.
  cbn [Ref.takeWhile].
  destruct (Ref.isIdentChar c); [|discriminate Hb].
  destruct (IH (Ref.advance p c) Hb) as (p' & ->). eexists; reflexivity.
Qed.

(** A segment that needs no quotes, alone at the end of the text. *)
Lemma lex_bare seg p :
  seg <> "" ->
  @IdentNeedsQuotes Ref.lexicon seg = false ->
  exists p', Ref.lex (seg, p) = ((IDENT, p, seg), ("", p')).
Proof.
  intros Hne Hq. destruct seg as [|c seg]; [congruence|].
  rewrite IdentNeedsQuotes_rule in Hq. apply orb_false_elim in Hq as [Hk Hb].
  apply negb_false_iff in Hk.
  change (@Lookup Ref.lexicon (String c seg)) with (Ref.Lookup (String c seg))
    in Hk.
  cbn [badIdentRunes andb negb] in Hb.
  change (@isIdentFirstChar Ref.lexicon c) with (Ref.isIdentFirstChar c) in Hb.
  destruct (Ref.isIdentFirstChar c) eqn:Hc; [|discriminate Hb].
  cbn [negb] in Hb.
  destruct (identFirst_facts c Hc)
    as (Hws & Hdq & Hic & _ & _ & _ & _ & _ & Hl).
  assert (Hall : @badIdentRunes Ref.lexicon false (String c seg) = false).
  { cbn [badIdentRunes andb negb].
    change (@isIdentChar Ref.lexicon c) with (Ref.isIdentChar c).
    rewrite Hic. exact Hb. }
  destruct (takeWhile_identChars (String c seg) p Hall) as (p' & Ht).
  exists p'. unfold Ref.lex. rewrite Hws, Hl.
  unfold Ref.scanIdent. rewrite Hdq, Ht.
  apply tok_eqb_eq in Hk. rewrite Hk. reflexivity.
Qed.

(** A quoted segment, whatever follows it. *)
Lemma lex_quoted seg rest p :
  exists p',
    Ref.lex (String dquote (qiReplace seg ++ String dquote rest), p)
    = ((IDENT, p, seg), (rest, p')).
Proof.
  destruct (quoted_qiReplace seg rest (Ref.advance p dquote)) as (p' & Hq).
  exists p'. unfold Ref.lex.
  change (Ref.isWhitespace dquote) with false.
  change (Ref.isLetter dquote || Ascii.eqb dquote "_") with false.
  change (Ref.isDigit dquote) with false.
  change (Ascii.eqb dquote eof) with false.
  change (Ascii.eqb dquote dquote) with true. cbv iota.
  unfold Ref.scanIdent.
  change (Ascii.eqb dquote dquote) with true. cbv iota.
  rewrite Hq. reflexivity.
Qed.

(** A dot that no digit follows. *)
Lemma lex_dot rest p :
  match rest with
  | String d _ => Ref.isDigit d = false
  | EmptyString => True
  end ->
  Ref.lex (String "." rest, p) = ((DOT, p, ""), (rest, Ref.advance p ".")).
Proof.
  intros Hd. unfold Ref.lex.
  change (Ref.isWhitespace "."%char) with false.
  change (Ref.isLetter "."%char || Ascii.eqb "." "_") with false.
  change (Ref.isDigit "."%char) with false.
  change (Ascii.eqb "." eof) with false.
  change (Ascii.eqb "." dquote) with false.
  change (Ascii.eqb "." "'") with false.
  change (Ascii.eqb "." ".") with true. cbv iota.
  destruct rest as [|d rest]; [reflexivity|]. rewrite Hd. reflexivity.
Qed.

Lemma identChar_plain c :
  Ref.isIdentChar c = true ->
  Ascii.eqb c newline = false /\ Ascii.eqb c "\" = false
  /\ Ascii.eqb c dquote = false.
Proof.
  destruct c as [[] [] [] [] [] [] [] []]; vm_compute; intros Hc;
    try discriminate Hc; repeat split.
Qed.

Lemma qiReplace_identChars seg :
  @badIdentRunes Ref.lexicon false seg = false -> qiReplace seg = seg.
Proof.
  induction seg as [|c seg IH]; intros Hb; [reflexivity|].
  cbn [badIdentRunes andb negb] in Hb.
  change (@isIdentChar Ref.lexicon c) with (Ref.isIdentChar c) in Hb.
  destruct (Ref.isIdentChar c) eqn:Hc; [|discriminate Hb].
  destruct (identChar_plain c Hc) as (Hnl & Hbs & Hdq).
  cbn [qiReplace]. rewrite Hnl, Hbs, Hdq, (IH Hb). reflexivity.
Qed.

Lemma bare_identChars c seg :
  @badIdentRunes Ref.lexicon true (String c seg) = false ->
  Ref.isIdentFirstChar c = true
  /\ @badIdentRunes Ref.lexicon false (String c seg) = false.
Proof.
  cbn [badIdentRunes andb negb].
  change (@isIdentFirstChar Ref.lexicon c) with (Ref.isIdentFirstChar c).
  change (@isIdentChar Ref.lexicon c) with (Ref.isIdentChar c).
  destruct (Ref.isIdentFirstChar c) eqn:Hc; [|discriminate].
  destruct (identFirst_facts c Hc) as (_ & _ & Hic & _).
  rewrite Hic. cbn [negb]. auto.
Qed.

(** What [QuoteIdent] writes for a segment that is not empty reads back
    as that segment: quoted, whatever follows; bare, at the end of the
    text. *)
Lemma lex_segment last seg rest p :
  seg <> "" ->
  (last = true -> rest = "") ->
  exists p',
    Ref.lex (@render_segment Ref.lexicon last seg ++ rest, p)
    = ((IDENT, p, seg), (rest, p')).
Proof.
  intros Hne Hrest. unfold render_segment.
  destruct (@quoted_segment Ref.lexicon last seg) eqn:Hq.
  - rewrite append_cons, append_assoc, append_cons.
    change ("" ++ rest) with rest. apply lex_quoted.
  - unfold quoted_segment in Hq.
    apply orb_false_elim in Hq as [Hq Hl].
    apply orb_false_elim in Hq as [Hk Hb].
    assert (Hlast : last = true).
    { destruct last; [reflexivity|]. cbn [negb andb] in Hl.
      apply negb_false_iff, String.eqb_eq in Hl. contradiction. }
    rewrite (Hrest Hlast), append_nil_r.
    destruct seg as [|c seg]; [congruence|].
    destruct (bare_identChars c seg Hb) as [_ Hall].
    rewrite (qiReplace_identChars _ Hall).
    apply lex_bare; [exact Hne|].
    rewrite IdentNeedsQuotes_rule, Hk, Hb. reflexivity.
Qed.

Lemma render_startsSegment last seg rest :
  seg <> "" ->
  Ref.startsSegment (@render_segment Ref.lexicon last seg ++ rest).
Proof.
  intros Hne. unfold render_segment.
  destruct (@quoted_segment Ref.lexicon last seg) eqn:Hq.
  - rewrite append_cons. eexists _, _. split; [reflexivity|].
    repeat split.
  - unfold quoted_segment in Hq.
    apply orb_false_elim in Hq as [Hq _].
    apply orb_false_elim in Hq as [_ Hb].
    destruct seg as [|c seg]; [congruence|].
    destruct (bare_identChars c seg Hb) as [Hc Hall].
    rewrite (qiReplace_identChars _ Hall), append_cons.
    destruct (identFirst_facts c Hc) as (_ & _ & _ & Hd & H1 & H2 & H3 & H4 & _).
    eexists _, _. split; [reflexivity|]. repeat split; assumption.
Qed.

Lemma Scan_at c h t c' :
  Ref.lex c = (t, c') -> scan (Ref.between_tokens c h) = Ok t (Ref.between_tokens c' (t :: h)).
Proof.
  intros Hl. unfold scan, Scan, Ref.source, Ref.scanWith, Ref.between_tokens.
  cbn [Ref.pushed Ref.cur Ref.saved Ref.history]. rewrite Hl. reflexivity.
Qed.

Lemma peekRune_at ch r p h :
  Ascii.eqb ch eof = false ->
  peekRune (Ref.between_tokens (String ch r, p) h) = Ok ch (Ref.between_tokens (String ch r, p) h).
Proof.
  intros He. unfold peekRune, ReadRune, UnreadRune, Ref.source, Ref.readRune,
    Ref.unreadRune, Ref.between_tokens, rune_eqb.
  cbn [Ref.pushed Ref.cur Ref.saved Ref.history]. rewrite He. reflexivity.
Qed.

Lemma parseIdent_at c h p seg c' :
  Ref.lex c = ((IDENT, p, seg), c') ->
  parseIdent (Ref.between_tokens c h) = Ok seg (Ref.between_tokens c' ((IDENT, p, seg) :: h)).
Proof.
  intros Hl. unfold parseIdent, scanIgnoreWhitespace, bind.
  rewrite (Scan_at c h _ c' Hl). reflexivity.
Qed.

Lemma segmentsLoop_end fuel idents p h :
  exists s',
    segmentsLoop (S fuel) idents (Ref.between_tokens ("", p) h) = Ok idents s'.
Proof.
  eexists. cbn [segmentsLoop]. unfold bind.
  rewrite (Scan_at ("", p) h (EOF, p, "") ("", p)) by reflexivity.
  reflexivity.
Qed.

Lemma segmentsLoop_segment fuel idents text p h seg c' :
  Ref.startsSegment text ->
  Ref.lex (text, Ref.advance p ".")
  = ((IDENT, Ref.advance p ".", seg), c') ->
  segmentsLoop (S fuel) idents (Ref.between_tokens (String "." text, p) h)
  = segmentsLoop fuel (idents ++ [seg])
      (Ref.between_tokens c' ((IDENT, Ref.advance p ".", seg) :: (DOT, p, "") :: h)).
Proof.
  intros (c & r & -> & Hd & H1 & H2 & H3 & H4) Hl.
  cbn [segmentsLoop]. unfold bind.
  rewrite (Scan_at _ h _ _ (lex_dot (String c r) p Hd)).
  cbv beta iota. rewrite tok_eqb_refl. cbn [negb].
  rewrite (peekRune_at c r _ _ H4).
  unfold rune_eqb. rewrite H1, H2, H3.
  rewrite (parseIdent_at _ _ _ _ _ Hl). reflexivity.
Qed.

Lemma segmentsLoop_empty fuel idents text p h :
  segmentsLoop (S fuel) idents (Ref.between_tokens (String "." (String "." text), p) h)
  = segmentsLoop fuel (idents ++ [""])
      (Ref.between_tokens (String "." text, Ref.advance p ".") ((DOT, p, "") :: h)).
Proof.
  cbn [segmentsLoop]. unfold bind.
  rewrite (Scan_at _ h _ _ (lex_dot (String "." text) p eq_refl)).
  cbv beta iota. rewrite tok_eqb_refl. cbn [negb].
  rewrite (peekRune_at "." text _ _ eq_refl).
  reflexivity.
Qed.

Lemma segmentsLoop_last fuel idents seg p h :
  seg <> "" ->
  exists s',
    segmentsLoop (S (S fuel)) idents
      (Ref.between_tokens (String "." (@render_segment Ref.lexicon true seg), p) h)
    = Ok (idents ++ [seg])%list s'.
Proof.
  intros Hne.
  destruct (lex_segment true seg "" (Ref.advance p ".") Hne (fun _ => eq_refl))
    as (p' & Hl).
  pose proof (render_startsSegment true seg "" Hne) as Hst.
  rewrite append_nil_r in Hl, Hst.
  rewrite (segmentsLoop_segment _ _ _ _ _ _ _ Hst Hl).
  apply segmentsLoop_end.
Qed.

Lemma segmentsLoop_two_more fuel idents mid seg p h :
  seg <> "" ->
  exists s',
    segmentsLoop (S (S (S fuel))) idents
      (Ref.between_tokens (String "." (@render_segment Ref.lexicon false mid ++ "."
                        ++ @render_segment Ref.lexicon true seg), p) h)
    = Ok (idents ++ [mid; seg])%list s'.
Proof.
  intros Hne.
  replace (idents ++ [mid; seg])%list with ((idents ++ [mid]) ++ [seg])%list
    by (rewrite <- List.app_assoc; reflexivity).
  destruct mid as [|c mid].
  - change (@render_segment Ref.lexicon false "") with "".
    change ("" ++ ?a) with a. change ("." ++ ?a) with (String "." a).
    rewrite segmentsLoop_empty. apply segmentsLoop_last. exact Hne.
  - assert (Hm : String c mid <> "") by discriminate.
    destruct (lex_segment false (String c mid)
                ("." ++ @render_segment Ref.lexicon true seg)
                (Ref.advance p ".") Hm) as (p' & Hl); [discriminate|].
    rewrite (segmentsLoop_segment _ _ _ _ _ _ _
               (render_startsSegment false _ _ Hm) Hl).
    change ("." ++ ?a) with (String "." a).
    apply segmentsLoop_last. exact Hne.
Qed.

(** Reading back what [QuoteIdent] writes, with the reference scanner:
    one to three segments, the first and the last not empty. *)
Lemma QuoteIdent_roundtrip fuel segments :
  (3 <= fuel)%nat ->
  (1 <= length segments <= 3)%nat ->
  List.hd "" segments <> "" ->
  List.last segments "" <> "" ->
  exists s',
    parseSegmentedIdents fuel (newBufScanner (QuoteIdent segments))
    = Ok segments s'.
Proof.
  intros Hfuel Hlen Hfirst Hlast.
  destruct fuel as [|[|[|fuel]]]; try lia.
  rewrite QuoteIdent_render.
  change (newBufScanner ?t) with (Ref.between_tokens (t, zeroPos) []).
  destruct segments as [|a [|b [|c [|d rest]]]]; cbn [length] in Hlen; try lia;
    cbn [List.hd] in Hfirst; cbn [List.last] in Hlast.
  - (* one segment *)
    cbn [render_segments Join].
    destruct (lex_segment true a "" zeroPos Hfirst (fun _ => eq_refl))
      as (p' & Hl).
    rewrite append_nil_r in Hl.
    destruct (segmentsLoop_end (S (S fuel)) [a] p' [(IDENT, zeroPos, a)])
      as (s' & Hloop).
    exists s'.
    exact (parseSegmentedIdents_Ok _ _ _ _ _ _
             (parseIdent_at _ _ _ _ _ Hl) Hloop).
  - (* two segments *)
    cbn [render_segments Join].
    destruct (lex_segment false a ("." ++ @render_segment Ref.lexicon true b)
                zeroPos Hfirst) as (p' & Hl); [discriminate|].
    change ("." ++ ?t) with (String "." t) in Hl.
    destruct (segmentsLoop_last (S fuel) [a] b p' [(IDENT, zeroPos, a)] Hlast)
      as (s' & Hloop).
    exists s'.
    exact (parseSegmentedIdents_Ok _ _ _ _ _ _
             (parseIdent_at _ _ _ _ _ Hl) Hloop).
  - (* three segments *)
    cbn [render_segments Join].
    destruct (lex_segment false a
                ("." ++ @render_segment Ref.lexicon false b ++ "."
                 ++ @render_segment Ref.lexicon true c)
                zeroPos Hfirst) as (p' & Hl); [discriminate|].
    change ("." ++ ?t) with (String "." t) in Hl at 1.
    destruct (segmentsLoop_two_more fuel [a] b c p' [(IDENT, zeroPos, a)] Hlast)
      as (s' & Hloop).
    exists s'.
    exact (parseSegmentedIdents_Ok _ _ _ _ _ _
             (parseIdent_at _ _ _ _ _ Hl) Hloop).
Qed.

(** C9 (as amended).  [QuoteIdent] joins the segments with a dot and
    writes a segment between double quotes exactly when [IdentNeedsQuotes]
    holds for it — it is a reserved word, or its first rune may not start
    a bare identifier, or a later rune may not continue one — or when it
    is not the last segment and not empty; an empty segment that is no
    reserved word is written as nothing, without quotes.  For one to
    three segments whose first and last segments are not empty, reading
    the text [QuoteIdent] writes as segmented identifiers gives the same
    segments back. *)
Theorem C9_quote_and_read_back :
  (forall (lx : Lexicon) segments,
      QuoteIdent segments = Join (render_segments segments) ".")
  /\ (forall (lx : Lexicon) last segment,
         quoted_segment last segment
         = IdentNeedsQuotes segment
           || (negb last && negb (String.eqb segment "")))
  /\ (forall (lx : Lexicon) segment,
         IdentNeedsQuotes segment
         = negb (tok_eqb (Lookup segment) IDENT)
           || match segment with
              | EmptyString => false
              | String c rest =>
                  negb (isIdentFirstChar c)
                  || existsb (fun x => negb (isIdentChar x))
                       (list_ascii_of_string rest)
              end)
  /\ (forall (lx : Lexicon) last,
         Lookup "" = IDENT -> render_segment last "" = "")
  /\ (forall fuel segments,
         (3 <= fuel)%nat ->
         (1 <= length segments <= 3)%nat ->
         List.hd "" segments <> "" ->
         List.last segments "" <> "" ->
         Ref.outcome (parseSegmentedIdents fuel
                        (newBufScanner (QuoteIdent segments)))
         = Some (inl segments)).
Proof.
  split; [|split; [|split; [|split]]].
  - intros lx segments. apply QuoteIdent_render.
  - intros lx last segment. unfold quoted_segment.
    rewrite IdentNeedsQuotes_rule. reflexivity.
  - intros lx segment. rewrite IdentNeedsQuotes_rule.
    destruct segment as [|c rest]; [reflexivity|].
    rewrite badIdentRunes_first. reflexivity.
  - intros lx last Hk. unfold render_segment, quoted_segment.
    rewrite Hk. destruct last; reflexivity.
  - intros fuel segments Hfuel Hlen Hfirst Hlast.
    destruct (QuoteIdent_roundtrip fuel segments Hfuel Hlen Hfirst Hlast)
      as (s' & ->).
    reflexivity.
Qed.

Lemma C9_quote_and_read_back_witness :
  let segments := ["db"; ""; "select"] in
  (3 <= 8)%nat
  /\ (1 <= length segments <= 3)%nat
  /\ List.hd "" segments <> ""
  /\ List.last segments "" <> ""
  /\ QuoteIdent segments = Ref.dq "db" ++ ".." ++ Ref.dq "select"
  /\ Ref.outcome (parseSegmentedIdents 8
                    (newBufScanner (QuoteIdent segments)))
     = Some (inl segments).
Proof.
  intros segments.
  assert (Hfuel : (3 <= 8)%nat) by lia.
  assert (Hlen : (1 <= length segments <= 3)%nat) by (cbn; lia).
  assert (Hfirst : List.hd "" segments <> "") by discriminate.
  assert (Hlast : List.last segments "" <> "") by discriminate.
  repeat (split; [assumption|]).
  split; [vm_compute; reflexivity|].
  destruct C9_quote_and_read_back as (_ & _ & _ & _ & Hback).
  exact (Hback 8%nat segments Hfuel Hlen Hfirst Hlast).
Defined.

(** C9, the counterexample.  The specification has an empty segment
    written between double quotes, and every sequence of one to three
    segments read back as it was.  [QuoteIdent] writes the single empty segment as
    the empty text, with no quotes, and reading that text back fails: the
    parser finds the end of the input where it expects an identifier.  The
    same holds for a last segment that is empty. *)
Lemma C9_counterexample :
  (QuoteIdent [""] = ""
   /\ QuoteIdent [""] <> Ref.dq ""
   /\ Ref.outcome (parseSegmentedIdents 8 (newBufScanner (QuoteIdent [""])))
      = Some (inr (EParse (mkParseError "" "EOF" ["identifier"] zeroPos)))
   /\ Ref.outcome (parseSegmentedIdents 8 (newBufScanner (QuoteIdent [""])))
      <> Some (inl [""]))
  /\ (QuoteIdent ["a"; ""] = Ref.dq "a" ++ "."
      /\ Ref.outcome (parseSegmentedIdents 8
                        (newBufScanner (QuoteIdent ["a"; ""])))
         = Some (inr (EParse (mkParseError "" "EOF" ["identifier"]
                                (mkPos 0 4))))).
Proof.
  split; [split; [|split; [|split]] | split].
  - vm_compute; reflexivity.
  - vm_compute; discriminate.
  - vm_compute; reflexivity.
  - vm_compute; discriminate.
  - vm_compute; reflexivity.
  - vm_compute; reflexivity.
Qed.

(* ================================================================== *)
(** ** More properties of the parser *)

Section MoreProperties.
Context `{Runtime} `{Lexicon} `{TokenSource}.
Variable params : gmap string ParamValue.
Variable validate : SelectStatement -> option error.

Ltac ok_step H :=
  lazymatch type of H with
  | bind _ _ _ = Ok _ _ =>
      let a := fresh "a" in let s1 := fresh "s" in let H1 := fresh "Hm" in
      apply bind_Ok in H as (a & s1 & H1 & H)
  | ret _ _ = Ok _ _ => apply ret_Ok in H as [? ?]; subst
  | fail _ _ = Ok _ _ => discriminate H
  | Err _ = Ok _ _ => discriminate H
  | OutOfFuel = Ok _ _ => discriminate H
  | (let (_, _) := ?x in _) _ = _ => destruct x
  | (if ?b then _ else _) _ = _ => destruct b eqn:?
  | (match ?x with _ => _ end) _ = _ => destruct x eqn:?
  end.

(** *** The sequence an expression is built from *)

Lemma inorder_insertOperator t op rhs : forall x y,
  inorder (getRHS (insertOperator (BinaryExpr x y t) op rhs))
  = (inorder t ++ inl op :: inorder rhs)%list.
Proof.
  induction t; intros x y; rewrite insertOperator_rhs; try reflexivity.
  destruct (Precedence Op >=? Precedence op); [reflexivity|].
  cbn [inorder]. rewrite IHt2, <- List.app_assoc. reflexivity.
Qed.

Lemma buildTree_root items : forall x y t,
  buildTree (BinaryExpr x y t) items
  = BinaryExpr x y (getRHS (buildTree (BinaryExpr x y t) items)).
Proof.
  induction items as [|[op rhs] items IH]; intros x y t; [reflexivity|].
  unfold buildTree in *. cbn [fold_left].
  rewrite (insertOperator_root x y t op rhs). apply IH.
Qed.

Lemma inorder_buildTree items : forall x y t,
  inorder (getRHS (buildTree (BinaryExpr x y t) items))
  = (inorder t ++ itemsInorder items)%list.
Proof.
  induction items as [|[op rhs] items IH]; intros x y t.
  - cbn. rewrite List.app_nil_r. reflexivity.
  - unfold buildTree in *. cbn [fold_left itemsInorder].
    rewrite (insertOperator_root x y t op rhs), IH, inorder_insertOperator.
    rewrite <- List.app_assoc. reflexivity.
Qed.

Lemma exprLoop_readItems U fuel : forall root s,
  exprLoop U fuel root s
  = bind (readItems U fuel)
      (fun items => ret (getRHS (buildTree root items))) s.
Proof.
  induction fuel as [|fuel IH]; intros root s; [reflexivity|].
  cbn [exprLoop readItems]. unfold bind.
  destruct (scanIgnoreWhitespace s) as [[[op pos] lit] s1| |]; try reflexivity.
  destruct (isOperator op); cbn [negb]; [|reflexivity].
  destruct (parseOperand U op s1) as [rhs s2| |]; try reflexivity.
  rewrite IH. unfold bind.
  destruct (readItems U fuel s2) as [rest s3| |]; reflexivity.
Qed.

(** *** One tree for a sequence *)

Lemma inorder_atom e : isBinaryExpr e = false -> inorder e = [inr e].
Proof. destruct e; try discriminate; reflexivity. Qed.

Lemma climbed_root_loosest t :
  climbed t = true ->
  forall o, List.In (inl o) (inorder t) ->
  match t with
  | BinaryExpr op _ _ => Precedence op <= Precedence o
  | _ => True
  end.
Proof.
  induction t; intros Hc o Hin; try exact I.
  cbn [climbed] in Hc.
  apply andb_prop in Hc as [Hc Hfr]. apply andb_prop in Hc as [Hc Hfl].
  apply andb_prop in Hc as [Hc1 Hc2].
  cbn [inorder] in Hin. apply List.in_app_or in Hin as [Hin|[Heq|Hin]].
  - specialize (IHt1 Hc1 o Hin). destruct t1; try (cbn in Hin; intuition discriminate).
    cbn [lhsFits] in Hfl. apply Z.leb_le in Hfl. lia.
  - injection Heq as ->. lia.
  - specialize (IHt2 Hc2 o Hin). destruct t2; try (cbn in Hin; intuition discriminate).
    cbn [rhsFits] in Hfr. apply Z.ltb_lt in Hfr. lia.
Qed.

Lemma climbed_sides op l r :
  climbed (BinaryExpr op l r) = true ->
  climbed l = true /\ climbed r = true
  /\ (forall o, List.In (inl o) (inorder l) -> Precedence op <= Precedence o)
  /\ (forall o, List.In (inl o) (inorder r) -> Precedence op < Precedence o).
Proof.
  intros Hc. pose proof Hc as Hc0. cbn [climbed] in Hc.
  apply andb_prop in Hc as [Hc Hfr]. apply andb_prop in Hc as [Hc Hfl].
  apply andb_prop in Hc as [Hc1 Hc2].
  split; [exact Hc1|]. split; [exact Hc2|]. split.
  - intros o Hin. pose proof (climbed_root_loosest l Hc1 o Hin) as Hl.
    destruct l; try (cbn in Hin; intuition discriminate).
    cbn [lhsFits] in Hfl. apply Z.leb_le in Hfl. lia.
  - intros o Hin. pose proof (climbed_root_loosest r Hc2 o Hin) as Hr.
    destruct r; try (cbn in Hin; intuition discriminate).
    cbn [rhsFits] in Hfr. apply Z.ltb_lt in Hfr. lia.
Qed.

(** The root operator is the last one of the loosest precedence: a
    sequence splits around it in one way only. *)
Lemma split_at_root (xs : list (Token + Expr)) : forall a ys xs' a' ys',
  (xs ++ inl a :: ys = xs' ++ inl a' :: ys')%list ->
  (forall o, List.In (inl o) xs -> Precedence a <= Precedence o) ->
  (forall o, List.In (inl o) ys -> Precedence a < Precedence o) ->
  (forall o, List.In (inl o) xs' -> Precedence a' <= Precedence o) ->
  (forall o, List.In (inl o) ys' -> Precedence a' < Precedence o) ->
  xs = xs' /\ a = a' /\ ys = ys'.
Proof.
  induction xs as [|z xs IH]; intros a ys xs' a' ys' Heq Hx Hy Hx' Hy'.
  - destruct xs' as [|z' xs']; cbn in Heq.
    + injection Heq as -> ->. auto.
    + injection Heq as <- ->.
      assert (Precedence a' <= Precedence a) by (apply Hx'; left; reflexivity).
      assert (Precedence a < Precedence a')
        by (apply Hy, List.in_or_app; right; left; reflexivity).
      lia.
  - destruct xs' as [|z' xs']; cbn in Heq.
    + injection Heq as -> <-.
      assert (Precedence a <= Precedence a') by (apply Hx; left; reflexivity).
      assert (Precedence a' < Precedence a)
        by (apply Hy', List.in_or_app; right; left; reflexivity).
      lia.
    + injection Heq as -> Heq.
      destruct (IH a ys xs' a' ys' Heq) as (-> & -> & ->); auto.
      * intros o Hin. apply Hx. right; exact Hin.
      * intros o Hin. apply Hx'. right; exact Hin.
Qed.

Lemma inorder_not_operator e op xs ys :
  isBinaryExpr e = false -> inorder e <> (xs ++ inl op :: ys)%list.
Proof.
  intros Ha Heq. rewrite (inorder_atom e Ha) in Heq.
  assert (Hin : List.In (inl op) [inr e])
    by (rewrite Heq; apply List.in_or_app; right; left; reflexivity).
  destruct Hin as [Hin|[]]. discriminate.
Qed.

Lemma climbed_unique t1 : forall t2,
  climbed t1 = true -> climbed t2 = true ->
  inorder t1 = inorder t2 -> t1 = t2.
Proof.
  induction t1 as [ | | | | | | | |op1 l1 IHl r1 IHr| ]; intros t2 Hc1 Hc2 Heq;
    try (destruct (isBinaryExpr t2) eqn:Hb2;
         [destruct t2; try discriminate Hb2;
          exfalso; eapply inorder_not_operator; [|exact Heq]; reflexivity
         |rewrite (inorder_atom t2 Hb2) in Heq; cbn in Heq; congruence]).
  destruct t2 as [ | | | | | | | |op2 l2 r2| ];
    try (exfalso; symmetry in Heq;
         eapply inorder_not_operator; [|exact Heq]; reflexivity).
  destruct (climbed_sides _ _ _ Hc1) as (Hl1 & Hr1 & Hx & Hy).
  destruct (climbed_sides _ _ _ Hc2) as (Hl2 & Hr2 & Hx' & Hy').
  cbn [inorder] in Heq.
  destruct (split_at_root _ _ _ _ _ _ Heq Hx Hy Hx' Hy') as (El & -> & Er).
  rewrite (IHl l2 Hl1 Hl2 El), (IHr r2 Hr1 Hr2 Er). reflexivity.
Qed.

Lemma ordered_climbed e : ordered e = true -> climbed e = true.
Proof.
  induction e; intros Ho; try reflexivity.
  cbn [ordered climbed] in *.
  apply andb_prop in Ho as [Ho Hfr]. apply andb_prop in Ho as [Ho Hfl].
  apply andb_prop in Ho as [Ho1 Ho2].
  rewrite (IHe1 Ho1), (IHe2 Ho2), Hfl, Hfr. reflexivity.
Qed.

Lemma ParseExpr_readItems fuel s :
  ParseExpr params fuel s
  = bind (parseUnaryExpr params fuel) (fun first =>
    bind (readItems (parseUnaryExpr params fuel) fuel) (fun items =>
    ret (getRHS (buildTree (setRHS emptyBinaryExpr first) items)))) s.
Proof.
  unfold ParseExpr, ParseExpr_over, bind.
  destruct (parseUnaryExpr params fuel s) as [first s1| |]; try reflexivity.
  rewrite exprLoop_readItems. reflexivity.
Qed.

Lemma readItems_atoms fuel0 : forall fuel s items s',
  readItems (parseUnaryExpr params fuel0) fuel s = Ok items s' ->
  Forall (fun item => isOperator (fst item) = true /\ atom (snd item)) items.
Proof.
  induction fuel as [|fuel IH]; intros s items s' Hr; [discriminate|].
  cbn [readItems] in Hr. repeat ok_step Hr.
  - constructor.
  - constructor; [|eapply IH; eassumption].
    split; [apply negb_false_iff; assumption|].
    eapply parseOperand_good in Hm0; [apply Hm0|].
    apply parseUnaryExpr_good.
Qed.

Lemma ParseExpr_sequence fuel s e s' :
  ParseExpr params fuel s = Ok e s' ->
  exists first s1 items,
    parseUnaryExpr params fuel s = Ok first s1
    /\ readItems (parseUnaryExpr params fuel) fuel s1 = Ok items s'
    /\ Forall (fun item => isOperator (fst item) = true /\ atom (snd item))
         items
    /\ inorder e = inr first :: itemsInorder items.
Proof.
  intros Hp. rewrite ParseExpr_readItems in Hp. repeat ok_step Hp.
  exists a, s0, a0. split; [exact Hm|]. split; [exact Hm0|].
  split; [eapply readItems_atoms; exact Hm0|].
  cbn [setRHS emptyBinaryExpr]. rewrite inorder_buildTree.
  apply parseUnaryExpr_good in Hm as [_ Ha].
  rewrite (inorder_atom a Ha). reflexivity.
Qed.

Lemma ParseExpr_canonical fuel s e s' t :
  ParseExpr params fuel s = Ok e s' ->
  climbed t = true -> inorder t = inorder e -> t = e.
Proof.
  intros Hp Hc Heq. apply climbed_unique; [exact Hc| |exact Heq].
  apply ordered_climbed. apply ParseExpr_good in Hp. apply Hp.
Qed.

(** *** What every node of a parsed expression satisfies *)

Lemma lower_char_idempotent c : lower_char (lower_char c) = lower_char c.
Proof. destruct c as [[] [] [] [] [] [] [] []]; reflexivity. Qed.

Lemma asciiToLower_idempotent s :
  asciiToLower (asciiToLower s) = asciiToLower s.
Proof.
  induction s as [|c s IH]; [reflexivity|].
  cbn [asciiToLower]. rewrite lower_char_idempotent, IH. reflexivity.
Qed.

Lemma wellFormed_Call name args :
  wellFormed (Call name args)
  <-> (exists raw, name = ToLower raw) /\ Forall wellFormed args.
Proof.
  cbn [wellFormed]. split; intros [Hn Ha]; (split; [exact Hn|]).
  - induction args as [|a args IH]; constructor; [apply Ha | apply IH, Ha].
  - induction Ha as [|a args Ha _ IH]; [exact I | split; assumption].
Qed.

Lemma wellFormed_subexpr a e : subexpr a e -> wellFormed e -> wellFormed a.
Proof.
  induction 1 as [|op l r _ IH|op l r _ IH|name args x Hin _ IH|x _ IH];
    intros Hw.
  - exact Hw.
  - apply IH, Hw.
  - apply IH, Hw.
  - apply IH. apply wellFormed_Call in Hw as [_ Hw].
    rewrite List.Forall_forall in Hw. apply Hw, Hin.
  - apply IH, Hw.
Qed.

Lemma wellFormed_Binary op l r :
  isOperator op = true -> wellFormed l -> wellFormed r ->
  wellFormed (BinaryExpr op l r).
Proof. intros; cbn [wellFormed]; auto. Qed.

Lemma insertOperator_wellFormed t op rhs :
  isOperator op = true -> wellFormed t -> wellFormed rhs ->
  forall x y,
    wellFormed (getRHS (insertOperator (BinaryExpr x y t) op rhs)).
Proof.
  intros Ho Ht Hr.
  induction t; intros x y; rewrite insertOperator_rhs;
    try (apply wellFormed_Binary; assumption).
  destruct (Precedence Op >=? Precedence op).
  - apply wellFormed_Binary; assumption.
  - destruct Ht as (HOp & Ht1 & Ht2).
    apply wellFormed_Binary; [assumption..|]. apply IHt2. exact Ht2.
Qed.

Lemma parseRegex_compiled s re s' :
  parseRegex s = Ok (Some re) s' ->
  exists pattern, regexp_Compile pattern = inl re.
Proof.
  unfold parseRegex. intros Hp. repeat ok_step Hp; try discriminate;
    match goal with
    | Heq : Some _ = Some _ |- _ => injection Heq as <-
    end; eauto.
Qed.

Section WellFormedOverUnary.
Variable U : M Expr.
Hypothesis U_wf : forall s e s', U s = Ok e s' -> wellFormed e.

Lemma parseOperand_wellFormed op s e s' :
  parseOperand U op s = Ok e s' -> wellFormed e.
Proof.
  unfold parseOperand. intros Hp.
  destruct (IsRegexOp op); [|eauto].
  repeat ok_step Hp. cbn [wellFormed]. eapply parseRegex_compiled; eassumption.
Qed.

Lemma exprLoop_wellFormed fuel : forall x y t s e s',
  wellFormed t ->
  exprLoop U fuel (BinaryExpr x y t) s = Ok e s' -> wellFormed e.
Proof.
  induction fuel as [|fuel IH]; intros x y t s e s' Ht Hl; [discriminate|].
  cbn [exprLoop] in Hl. repeat ok_step Hl.
  - exact Ht.
  - rewrite insertOperator_root in Hl. eapply IH; [|exact Hl].
    apply insertOperator_wellFormed;
      [apply negb_false_iff; assumption | exact Ht
      | eapply parseOperand_wellFormed; eassumption].
Qed.

Lemma ParseExpr_over_wellFormed fuel s e s' :
  ParseExpr_over U fuel s = Ok e s' -> wellFormed e.
Proof.
  unfold ParseExpr_over. intros Hp. ok_step Hp.
  eapply exprLoop_wellFormed; [|exact Hp]. eapply U_wf; eassumption.
Qed.

Lemma callArgsLoop_wellFormed fuel : forall args s res s',
  Forall wellFormed args ->
  callArgsLoop U fuel args s = Ok res s' -> Forall wellFormed res.
Proof.
  induction fuel as [|fuel IH]; intros args s res s' Ha Hl; [discriminate|].
  cbn [callArgsLoop] in Hl. repeat ok_step Hl.
  - exact Ha.
  - eapply IH; [|exact Hl]. apply Forall_app; split; [exact Ha|].
    constructor; [|constructor]. cbn [wellFormed].
    eapply parseRegex_compiled; eassumption.
  - eapply IH; [|exact Hl]. apply Forall_app; split; [exact Ha|].
    constructor; [|constructor].
    eapply ParseExpr_over_wellFormed; eassumption.
Qed.

Lemma parseCall_over_wellFormed fuel name s e s' :
  parseCall_over U fuel name s = Ok e s' -> wellFormed e.
Proof.
  unfold parseCall_over. intros Hp. repeat ok_step Hp.
  - apply wellFormed_Call. split; [eexists; reflexivity|].
    eapply callArgsLoop_wellFormed; [|eassumption].
    constructor; [|constructor]. cbn [wellFormed].
    eapply parseRegex_compiled; eassumption.
  - apply wellFormed_Call. split; [eexists; reflexivity|constructor].
  - apply wellFormed_Call. split; [eexists; reflexivity|].
    eapply callArgsLoop_wellFormed; [|eassumption].
    constructor; [|constructor].
    eapply ParseExpr_over_wellFormed; eassumption.
Qed.
End WellFormedOverUnary.

Lemma parseVarRef_wellFormed fuel s e s' :
  parseVarRef fuel s = Ok e s' -> wellFormed e.
Proof.
  unfold parseVarRef. intros Hp. ok_step Hp.
  apply parseSegmentedIdents_length in Hm.
  repeat ok_step Hp; cbn [wellFormed]; eauto.
Qed.

Lemma bindParameter_wellFormed lit s e s' :
  bindParameter params lit s = Ok e s' -> wellFormed e.
Proof.
  unfold bindParameter. intros Hp. repeat ok_step Hp; exact I.
Qed.

Lemma parseUnaryExpr_wellFormed fuel : forall s e s',
  parseUnaryExpr params fuel s = Ok e s' -> wellFormed e.
Proof.
  induction fuel as [|fuel IH]; intros s e s' Hp; [discriminate|].
  cbn [parseUnaryExpr] in Hp. ok_step Hp. destruct a as [[tok0 pos0] lit0].
  destruct (tok_eqb tok0 LPAREN).
  - repeat ok_step Hp. cbn [wellFormed].
    eapply (ParseExpr_over_wellFormed _ IH); eassumption.
  - ok_step Hp. ok_step Hp. destruct a0 as [[tok pos] lit].
    destruct tok; try discriminate Hp.
    + repeat ok_step Hp.
      * eapply (parseCall_over_wellFormed _ IH); eassumption.
      * eapply parseVarRef_wellFormed; eassumption.
    + eapply bindParameter_wellFormed; eassumption.
    + repeat ok_step Hp; exact I.
    + repeat ok_step Hp; exact I.
    + repeat ok_step Hp; exact I.
    + repeat ok_step Hp; exact I.
    + repeat ok_step Hp; exact I.
    + repeat ok_step Hp. cbn [wellFormed]. eauto.
Qed.

Lemma ParseExpr_wellFormed fuel s e s' :
  ParseExpr params fuel s = Ok e s' -> wellFormed e.
Proof.
  apply ParseExpr_over_wellFormed, parseUnaryExpr_wellFormed.
Qed.

(** *** Fields, sources and statements *)

Lemma parseField_accepted fuel s f s' :
  parseField params fuel s = Ok f s' ->
  hasBooleanOp (FExpr f) = false /\ good (FExpr f) /\ wellFormed (FExpr f).
Proof.
  unfold parseField. intros Hp. repeat ok_step Hp. cbn [FExpr].
  split; [|split].
  - unfold Walk in *.
    destruct (WalkExpr_validateField a0 (mkValidateField false ILLEGAL))
      as [[Hn _]|[_ (Hf & _)]]; [exact Hn | congruence].
  - eapply ParseExpr_good; eassumption.
  - eapply ParseExpr_wellFormed; eassumption.
Qed.

Lemma fieldsLoop_added fuel : forall fields s res s',
  fieldsLoop params fuel fields s = Ok res s' ->
  exists added,
    res = (fields ++ added)%list /\ added <> []
    /\ Forall (fun f => hasBooleanOp (FExpr f) = false /\ good (FExpr f)
                        /\ wellFormed (FExpr f)) added.
Proof.
  induction fuel as [|fuel IH]; intros fields s res s' Hl; [discriminate|].
  cbn [fieldsLoop] in Hl. repeat ok_step Hl.
  - exists [a]. split; [reflexivity|]. split; [discriminate|].
    constructor; [eapply parseField_accepted; eassumption | constructor].
  - apply IH in Hl as (added & -> & _ & Hall).
    exists (a :: added). rewrite <- List.app_assoc. split; [reflexivity|].
    split; [discriminate|].
    constructor; [eapply parseField_accepted; eassumption | exact Hall].
Qed.

Lemma parseSource_shape fuel s m s' :
  parseSource fuel s = Ok m s' ->
  match Regex m with
  | Some re => Name m = "" /\ exists pattern, regexp_Compile pattern = inl re
  | None => True
  end.
Proof.
  unfold parseSource. intros Hp. repeat ok_step Hp; cbn [Regex Name];
    try exact I;
    try (split; [reflexivity | eapply parseRegex_compiled; eassumption]);
    (destruct a1; [split; [reflexivity|]|exact I];
     eapply parseRegex_compiled; eassumption).
Qed.

Lemma sourcesLoop_added fuel : forall sources s res s',
  sourcesLoop fuel sources s = Ok res s' ->
  exists added,
    res = (sources ++ added)%list /\ added <> []
    /\ Forall (fun m => match Regex m with
                        | Some re =>
                            Name m = ""
                            /\ exists pattern, regexp_Compile pattern = inl re
                        | None => True
                        end) added.
Proof.
  induction fuel as [|fuel IH]; intros sources s res s' Hl; [discriminate|].
  cbn [sourcesLoop] in Hl. repeat ok_step Hl.
  - exists [a]. split; [reflexivity|]. split; [discriminate|].
    constructor; [eapply parseSource_shape; eassumption | constructor].
  - apply IH in Hl as (added & -> & _ & Hall).
    exists (a :: added). rewrite <- List.app_assoc. split; [reflexivity|].
    split; [discriminate|].
    constructor; [eapply parseSource_shape; eassumption | exact Hall].
Qed.

Lemma parseCondition_shape fuel s e s' :
  parseCondition params fuel s = Ok e s' ->
  e = NilExpr \/ (good e /\ wellFormed e).
Proof.
  unfold parseCondition. intros Hp. repeat ok_step Hp; [left; reflexivity|].
  right. split; [eapply ParseExpr_good | eapply ParseExpr_wellFormed];
    eassumption.
Qed.

Lemma parseSelectStatement_shape fuel s stmt s' :
  parseSelectStatement params validate fuel s = Ok stmt s' ->
  SFields stmt <> [] /\ SSources stmt <> []
  /\ Forall (fun f => hasBooleanOp (FExpr f) = false /\ good (FExpr f)
                      /\ wellFormed (FExpr f)) (SFields stmt)
  /\ Forall (fun m => match Regex m with
                      | Some re =>
                          Name m = ""
                          /\ exists pattern, regexp_Compile pattern = inl re
                      | None => True
                      end) (SSources stmt)
  /\ (Condition stmt = NilExpr
      \/ (good (Condition stmt) /\ wellFormed (Condition stmt)))
  /\ validate stmt = None.
Proof.
  unfold parseSelectStatement, parseFields, parseSources. intros Hp.
  repeat ok_step Hp. cbn [SFields SSources Condition].
  apply fieldsLoop_added in Hm as (fs & -> & Hf & Hfs).
  apply sourcesLoop_added in Hm1 as (ms & -> & Hs & Hms).
  apply parseCondition_shape in Hm2.
  repeat split; assumption.
Qed.

Lemma ParseStatement_shape fuel s st s' :
  ParseStatement params validate fuel s = Ok st s' ->
  match st with
  | StmtSelect stmt =>
      validate stmt = None /\ SFields stmt <> [] /\ SSources stmt <> []
  end.
Proof.
  unfold ParseStatement. intros Hp. repeat ok_step Hp.
  match goal with
  | Hx : parseSelectStatement _ _ _ _ = Ok _ _ |- _ =>
      apply parseSelectStatement_shape in Hx as (Hf & Hs & _ & _ & _ & Hv)
  end.
  auto.
Qed.

Lemma queryLoop_added fuel : forall stmts semi s q s',
  queryLoop params validate fuel stmts semi s = Ok q s' ->
  exists added,
    Statements q = (stmts ++ added)%list
    /\ Forall (fun st => match st with
                         | StmtSelect stmt =>
                             validate stmt = None
                             /\ SFields stmt <> [] /\ SSources stmt <> []
                         end) added.
Proof.
  induction fuel as [|fuel IH]; intros stmts semi s q s' Hl; [discriminate|].
  cbn [queryLoop] in Hl. repeat ok_step Hl.
  - exists []. cbn [Statements]. rewrite List.app_nil_r. auto.
  - apply IH in Hl. exact Hl.
  - apply IH in Hl as (added & -> & Hall).
    match goal with
    | Hx : ParseStatement _ _ _ _ = Ok ?st _ |- _ =>
        apply ParseStatement_shape in Hx; exists (st :: added)
    end.
    rewrite <- List.app_assoc. split; [reflexivity|]. constructor; auto.
Qed.

(** *** Lists of identifiers and of strings, and sequences of tokens *)

Lemma identListLoop_added fuel : forall idents s res s',
  identListLoop fuel idents s = Ok res s' ->
  exists added, res = (idents ++ added)%list.
Proof.
  induction fuel as [|fuel IH]; intros idents s res s' Hl; [discriminate|].
  cbn [identListLoop] in Hl. repeat ok_step Hl.
  - exists []. rewrite List.app_nil_r. reflexivity.
  - apply IH in Hl as (added & ->).
    match goal with
    | Hx : parseIdent _ = Ok ?x _ |- _ => exists (x :: added)
    end.
    rewrite <- List.app_assoc. reflexivity.
Qed.

Lemma stringListLoop_added fuel : forall strs s res s',
  stringListLoop fuel strs s = Ok res s' ->
  exists added, res = (strs ++ added)%list.
Proof.
  induction fuel as [|fuel IH]; intros strs s res s' Hl; [discriminate|].
  cbn [stringListLoop] in Hl. repeat ok_step Hl.
  - exists []. rewrite List.app_nil_r. reflexivity.
  - apply IH in Hl as (added & ->).
    match goal with
    | Hx : parseString _ = Ok ?x _ |- _ => exists (x :: added)
    end.
    rewrite <- List.app_assoc. reflexivity.
Qed.

Lemma parseTokens_app toks1 : forall toks2 s,
  parseTokens (toks1 ++ toks2) s
  = bind (parseTokens toks1) (fun _ => parseTokens toks2) s.
Proof.
  induction toks1 as [|t toks1 IH]; intros toks2 s; [reflexivity|].
  cbn [parseTokens List.app]. unfold bind in *.
  destruct (scanIgnoreWhitespace s) as [[[tok pos] lit] s1| |]; try reflexivity.
  destruct (negb (tok_eqb tok t)); [reflexivity|]. apply IH.
Qed.

(** *** Numbers *)

Section Numbers.
Variable Atoi : string -> Z + string.
Variable ParseUint : string -> Z -> Z + string.
Variable ParseInt_value : string -> Z.

Lemma parseInt_Ok min max s n s' :
  parseInt Atoi min max s = Ok n s' ->
  exists pos lit,
    scanIgnoreWhitespace s = Ok (INTEGER, pos, lit) s'
    /\ Atoi lit = inl n /\ min <= n <= max.
Proof.
  unfold parseInt. intros Hp. ok_step Hp. destruct a as [[tok pos] lit].
  destruct (tok_eqb tok INTEGER) eqn:Htok; cbn [negb] in Hp; [|discriminate Hp].
  apply tok_eqb_eq in Htok as ->.
  destruct (Atoi lit) as [k|msg] eqn:Ha; [|discriminate Hp].
  destruct ((min >? k) || (k >? max)) eqn:Hr; [discriminate Hp|].
  apply ret_Ok in Hp as [-> ->].
  apply orb_false_elim in Hr as [Hlo Hhi].
  exists pos, lit. split; [exact Hm|]. split; [exact Ha|]. lia.
Qed.

Lemma parseInt_out_of_range min max s pos lit s1 n :
  scanIgnoreWhitespace s = Ok (INTEGER, pos, lit) s1 ->
  Atoi lit = inl n ->
  n < min \/ max < n ->
  parseInt Atoi min max s
  = Err (EParse (messageError (invalidValueMessage n min max) pos)).
Proof.
  intros Hs Ha Hr. unfold parseInt, bind. rewrite Hs. cbn [tok_eqb negb].
  rewrite tok_eqb_refl. cbn [negb]. rewrite Ha.
  replace ((min >? n) || (n >? max)) with true; [reflexivity|].
  symmetry. apply orb_true_iff. destruct Hr; [left|right]; lia.
Qed.



Lemma parseOptionalTokenAndInt_Ok t s n s' :
  parseOptionalTokenAndInt ParseInt_value t s = Ok n s' ->
  0 <= n
  /\ exists tok pos lit s1,
       scanIgnoreWhitespace s = Ok (tok, pos, lit) s1
       /\ ((tok <> t /\ n = 0 /\ s' = Unscan s1)
           \/ (tok = t
               /\ exists pos1 lit1,
                    scanIgnoreWhitespace s1 = Ok (INTEGER, pos1, lit1) s'
                    /\ n = ParseInt_value lit1)).
Proof.
  unfold parseOptionalTokenAndInt. intros Hp. ok_step Hp.
  destruct a as [[tok pos] lit].
  destruct (tok_eqb tok t) eqn:Htok; cbn [negb] in Hp.
  - apply tok_eqb_eq in Htok as ->. ok_step Hp.
    destruct a as [[tok1 pos1] lit1].
    destruct (tok_eqb tok1 INTEGER) eqn:Htok1; cbn [negb] in Hp;
      [|discriminate Hp].
    apply tok_eqb_eq in Htok1 as ->.
    destruct (ParseInt_value lit1 <? 0) eqn:Hneg; [discriminate Hp|].
    apply ret_Ok in Hp as [<- ->]. apply Z.ltb_ge in Hneg.
    split; [exact Hneg|].
    exists t, pos, lit, s0. split; [exact Hm|]. right.
    split; [reflexivity|]. exists pos1, lit1. auto.
  - unfold bind, unscan, ret in Hp. injection Hp as <- <-.
    split; [lia|]. exists tok, pos, lit, s0. split; [exact Hm|]. left.
    split; [|auto]. intros ->. rewrite tok_eqb_refl in Htok. discriminate.
Qed.
End Numbers.

(** *** Lists and token sequences *)

Lemma parseIdentList_Ok fuel s res s' :
  parseIdentList fuel s = Ok res s' ->
  exists first s1 rest,
    parseIdent s = Ok first s1 /\ res = first :: rest.
Proof.
  unfold parseIdentList. intros Hp. ok_step Hp.
  apply identListLoop_added in Hp as (added & ->). eauto.
Qed.

Lemma parseStringList_Ok fuel s res s' :
  parseStringList fuel s = Ok res s' ->
  exists first s1 rest,
    parseString s = Ok first s1 /\ res = first :: rest.
Proof.
  unfold parseStringList. intros Hp. ok_step Hp.
  apply stringListLoop_added in Hp as (added & ->). eauto.
Qed.

Lemma parseTokens_Err toks : forall s e,
  parseTokens toks s = Err e ->
  exists t found pos,
    List.In t toks /\ e = EParse (newParseError found [Token_String t] pos).
Proof.
  induction toks as [|t toks IH]; intros s e He; [discriminate He|].
  cbn [parseTokens] in He. apply bind_Err in He as [He|(a & s1 & Hs & He)].
  - destruct (scanIgnoreWhitespace_Err _ _ He).
  - destruct a as [[tok pos] lit].
    destruct (negb (tok_eqb tok t)).
    + injection He as <-. exists t, (tokstr tok lit), pos.
      split; [left; reflexivity | reflexivity].
    + apply IH in He as (t' & found & pos' & Hin & ->).
      exists t', found, pos'. split; [right; exact Hin | reflexivity].
Qed.

Lemma parseTokenMaybe_parseTokens t s s' :
  parseTokenMaybe t s = Ok true s' <-> parseTokens [t] s = Ok tt s'.
Proof.
  unfold parseTokenMaybe. cbn [parseTokens]. unfold bind.
  destruct (scanIgnoreWhitespace s) as [[[tok pos] lit] s1| |];
    [|split; discriminate..].
  destruct (negb (tok_eqb tok t)); unfold unscan, ret, fail;
    split; intros Heq; try discriminate Heq.
  - injection Heq as ->. reflexivity.
  - injection Heq as ->. reflexivity.
Qed.

Lemma parseTokenMaybe_false t s s' :
  parseTokenMaybe t s = Ok false s' ->
  exists tok pos lit s1,
    scanIgnoreWhitespace s = Ok (tok, pos, lit) s1
    /\ tok <> t /\ s' = Unscan s1.
Proof.
  unfold parseTokenMaybe. intros Hp. ok_step Hp.
  destruct a as [[tok pos] lit].
  destruct (tok_eqb tok t) eqn:Htok; cbn [negb] in Hp.
  - apply ret_Ok in Hp as [Hf _]. discriminate Hf.
  - unfold bind, unscan, ret in Hp. injection Hp as <-.
    exists tok, pos, lit, s0. split; [exact Hm|]. split; [|reflexivity].
    intros ->. rewrite tok_eqb_refl in Htok. discriminate.
Qed.

(** *** Variable references and calls *)

Lemma parseVarRef_type_rejected fuel s segments s1 p0 l0 s2 pos lit s3 :
  parseSegmentedIdents fuel s = Ok segments s1 ->
  scan s1 = Ok (DOUBLECOLON, p0, l0) s2 ->
  scan s2 = Ok (IDENT, pos, lit) s3 ->
  ToLower lit <> "float" -> ToLower lit <> "integer" ->
  ToLower lit <> "string" -> ToLower lit <> "boolean" ->
  parseVarRef fuel s
  = Err (EParse (newParseError (tokstr IDENT lit)
                   ["float"; "integer"; "string"; "boolean"; "field"; "tag"]
                   pos)).
Proof.
  intros Hseg Hs1 Hs2 Hf Hi Hst Hb. unfold parseVarRef, bind.
  rewrite Hseg, Hs1. cbn [tok_eqb]. rewrite tok_eqb_refl, Hs2.
  apply String.eqb_neq in Hf, Hi, Hst, Hb. rewrite Hf, Hi, Hst, Hb.
  reflexivity.
Qed.

End MoreProperties.

(* ================================================================== *)
(** ** The texts the quoting functions write *)

Lemma split_append (a b : string) : split (a ++ b) = (split a ++ split b)%list.
Proof.
  unfold split. induction a as [|c a IH]; [reflexivity|].
  rewrite append_cons. cbn [list_ascii_of_string List.app]. rewrite IH.
  reflexivity.
Qed.

Lemma qsReplace_cons c r :
  qsReplace (String c r)
  = (if Ascii.eqb c newline then "\n"
     else if Ascii.eqb c "\" then "\\"
     else if Ascii.eqb c "'" then "\'"
     else String c EmptyString) ++ qsReplace r.
Proof. reflexivity. Qed.

Lemma qiReplace_cons c r :
  qiReplace (String c r)
  = (if Ascii.eqb c newline then "\n"
     else if Ascii.eqb c "\" then "\\"
     else if Ascii.eqb c dquote then String "\" (String dquote EmptyString)
     else String c EmptyString) ++ qiReplace r.
Proof. reflexivity. Qed.

Ltac escape_cases Heq :=
  repeat match type of Heq with
  | context [Ascii.eqb ?c ?d] =>
      let E := fresh "E" in
      destruct (Ascii.eqb c d) eqn:E;
      [apply Ascii.eqb_eq in E; try subst c | apply Ascii.eqb_neq in E]
  end;
  cbv [String.append] in Heq.

Lemma qsReplace_injective s1 : forall s2,
  qsReplace s1 = qsReplace s2 -> s1 = s2.
Proof.
  induction s1 as [|c1 r1 IH]; intros [|c2 r2] Heq.
  - reflexivity.
  - exfalso. rewrite qsReplace_cons in Heq. cbn [qsReplace] in Heq.
    escape_cases Heq; discriminate Heq.
  - exfalso. rewrite qsReplace_cons in Heq. cbn [qsReplace] in Heq.
    escape_cases Heq; discriminate Heq.
  - rewrite !qsReplace_cons in Heq.
    escape_cases Heq; try discriminate Heq;
      try (injection Heq as Heq; apply IH in Heq; subst; reflexivity);
      try (injection Heq as Hc Heq; congruence);
      try (injection Heq as Hc Heq; apply IH in Heq; subst; reflexivity).
Qed.

Lemma qiReplace_injective s1 : forall s2,
  qiReplace s1 = qiReplace s2 -> s1 = s2.
Proof.
  induction s1 as [|c1 r1 IH]; intros [|c2 r2] Heq.
  - reflexivity.
  - exfalso. rewrite qiReplace_cons in Heq. cbn [qiReplace] in Heq.
    escape_cases Heq; discriminate Heq.
  - exfalso. rewrite qiReplace_cons in Heq. cbn [qiReplace] in Heq.
    escape_cases Heq; discriminate Heq.
  - rewrite !qiReplace_cons in Heq.
    escape_cases Heq; try discriminate Heq;
      try (injection Heq as Heq; apply IH in Heq; subst; reflexivity);
      try (injection Heq as Hc Heq; congruence);
      try (injection Heq as Hc Heq; apply IH in Heq; subst; reflexivity).
Qed.

Lemma append_rune_injective (a b : string) c :
  a ++ String c "" = b ++ String c "" -> a = b.
Proof.
  revert b. induction a as [|x a IH]; intros [|y b] Heq.
  - reflexivity.
  - exfalso. rewrite append_cons in Heq. injection Heq as _ Heq.
    destruct b; discriminate Heq.
  - exfalso. rewrite append_cons in Heq. injection Heq as _ Heq.
    destruct a; discriminate Heq.
  - rewrite !append_cons in Heq. injection Heq as -> Heq.
    f_equal. apply IH. exact Heq.
Qed.

Lemma QuoteString_injective_text s1 s2 :
  QuoteString s1 = QuoteString s2 -> s1 = s2.
Proof.
  unfold QuoteString. intros Heq. rewrite !append_cons in Heq.
  injection Heq as Heq. apply append_rune_injective in Heq.
  apply qsReplace_injective. exact Heq.
Qed.

Lemma qsReplace_no_newline s : ~ List.In newline (split (qsReplace s)).
Proof.
  induction s as [|c r IH]; [intros []|].
  rewrite qsReplace_cons, split_append. intros Hin.
  apply List.in_app_or in Hin as [Hin|Hin]; [|exact (IH Hin)].
  destruct (Ascii.eqb c newline) eqn:E1;
    [|destruct (Ascii.eqb c "\") eqn:E2;
      [|destruct (Ascii.eqb c "'") eqn:E3]];
    cbn in Hin; try (intuition discriminate).
  apply Ascii.eqb_neq in E1. destruct Hin as [Hin|[]]. congruence.
Qed.

Lemma qiReplace_no_newline s : ~ List.In newline (split (qiReplace s)).
Proof.
  induction s as [|c r IH]; [intros []|].
  rewrite qiReplace_cons, split_append. intros Hin.
  apply List.in_app_or in Hin as [Hin|Hin]; [|exact (IH Hin)].
  destruct (Ascii.eqb c newline) eqn:E1;
    [|destruct (Ascii.eqb c "\") eqn:E2;
      [|destruct (Ascii.eqb c dquote) eqn:E3]];
    cbn in Hin; try (intuition discriminate).
  apply Ascii.eqb_neq in E1. destruct Hin as [Hin|[]]. congruence.
Qed.

Lemma quoteIf_no_newline b : ~ List.In newline (split (quoteIf b)).
Proof. destruct b; cbn; intuition discriminate. Qed.

Lemma QuoteIdent_no_newline `{Lexicon} segments :
  ~ List.In newline (split (QuoteIdent segments)).
Proof.
  induction segments as [|seg rest IH]; [intros []|].
  cbn [QuoteIdent]. rewrite !split_append. intros Hin.
  repeat (apply List.in_app_or in Hin as [Hin|Hin]).
  - exact (quoteIf_no_newline _ Hin).
  - exact (qiReplace_no_newline _ Hin).
  - exact (quoteIf_no_newline _ Hin).
  - destruct rest; cbn in Hin; intuition discriminate.
  - exact (IH Hin).
Qed.

Lemma qiReplace_not_quote s x : qiReplace s <> String dquote x.
Proof.
  destruct s as [|c r]; [discriminate|].
  rewrite qiReplace_cons. intros Heq.
  escape_cases Heq; try discriminate Heq.
  injection Heq as Hc _. congruence.
Qed.

Lemma QuoteIdent_single `{Lexicon} s :
  QuoteIdent [s]
  = quoteIf (IdentNeedsQuotes s) ++ qiReplace s
    ++ quoteIf (IdentNeedsQuotes s).
Proof.
  cbn [QuoteIdent]. rewrite !append_nil_r.
  cbn [andb]. rewrite orb_false_r. reflexivity.
Qed.

Lemma QuoteIdent_single_injective `{Lexicon} s1 s2 :
  QuoteIdent [s1] = QuoteIdent [s2] -> s1 = s2.
Proof.
  rewrite !QuoteIdent_single. intros Heq.
  destruct (IdentNeedsQuotes s1), (IdentNeedsQuotes s2); cbn [quoteIf] in Heq.
  - rewrite !append_cons in Heq. injection Heq as Heq.
    apply append_rune_injective in Heq. apply qiReplace_injective, Heq.
  - exfalso. rewrite append_cons, append_nil_r in Heq.
    symmetry in Heq. exact (qiReplace_not_quote _ _ Heq).
  - exfalso. rewrite append_cons, append_nil_r in Heq.
    exact (qiReplace_not_quote _ _ Heq).
  - rewrite !append_nil_r in Heq. apply qiReplace_injective, Heq.
Qed.

(* ================================================================== *)
(** ** Further properties of the parser *)

(** *** The order of the operands *)

(** X1.  Putting a new operator in place in the loop of [ParseExpr] keeps
    the operands and operators in the order they were read: read from
    left to right, the tree after the insertion is the tree before it,
    then the new operator, then the new operand. *)
Theorem X1_insertion_keeps_the_reading_order :
  forall (rt : Runtime) (lx : Lexicon) x y t op rhs,
    inorder (getRHS (insertOperator (BinaryExpr x y t) op rhs))
    = (inorder t ++ inl op :: inorder rhs)%list.
Proof. intros. apply inorder_insertOperator. Qed.

Lemma itemsInorder_atoms `{Runtime} `{Lexicon} (items : list (Token * Expr)) :
  Forall (fun item => isOperator (fst item) = true /\ atom (snd item)) items ->
  itemsInorder items
  = flat_map (fun item => [inl (fst item); inr (snd item)]) items.
Proof.
  induction 1 as [|[op rhs] items [_ Ha] _ IH]; [reflexivity|].
  cbn [itemsInorder flat_map fst snd]. rewrite (inorder_atom rhs Ha), IH.
  reflexivity.
Qed.

(** X2.  An expression [ParseExpr] returns, read from left to right, is
    what the parser read: the first operand [parseUnaryExpr] returned,
    then each operator with the operand read after it, in that order.
    Every token taken for an operator is an operator, and no operand is
    split: each one is a leaf of the tree of binary expressions. *)
Theorem X2_ParseExpr_keeps_the_reading_order :
  forall (rt : Runtime) (lx : Lexicon) (ts : TokenSource)
         (params : gmap string ParamValue) fuel s e s',
    ParseExpr params fuel s = Ok e s' ->
    exists first s1 items,
      parseUnaryExpr params fuel s = Ok first s1
      /\ readItems (parseUnaryExpr params fuel) fuel s1 = Ok items s'
      /\ Forall (fun item => isOperator (fst item) = true
                             /\ isBinaryExpr (snd item) = false) items
      /\ inorder e
         = inr first
           :: flat_map (fun item => [inl (fst item); inr (snd item)]) items.
Proof.
  intros rt lx ts params fuel s e s' Hp.
  destruct (ParseExpr_sequence params fuel s e s' Hp)
    as (first & s1 & items & Hu & Hr & Hall & Hin).
  exists first, s1, items. split; [exact Hu|]. split; [exact Hr|].
  split; [exact Hall|]. rewrite Hin, (itemsInorder_atoms items Hall).
  reflexivity.
Qed.

Lemma X2_ParseExpr_keeps_the_reading_order_witness :
  let s0 := newBufScanner "a + b * c" in
  let e := BinaryExpr ADD (Ref.var "a")
             (BinaryExpr MUL (Ref.var "b") (Ref.var "c")) in
  let s' := Ref.stateOf (ParseExpr ∅ 8 s0) in
  ParseExpr ∅ 8 s0 = Ok e s'
  /\ exists first s1 items,
       parseUnaryExpr ∅ 8 s0 = Ok first s1
       /\ readItems (parseUnaryExpr ∅ 8) 8 s1 = Ok items s'
       /\ Forall (fun item => isOperator (fst item) = true
                              /\ isBinaryExpr (snd item) = false) items
       /\ inorder e
          = inr first
            :: flat_map (fun item => [inl (fst item); inr (snd item)]) items.
Proof.
  intros s0 e s'.
  assert (Hp : ParseExpr ∅ 8 s0 = Ok e s') by (vm_compute; reflexivity).
  split; [exact Hp|].
  exact (X2_ParseExpr_keeps_the_reading_order
           Ref.runtime Ref.lexicon Ref.source ∅ 8%nat s0 e s' Hp).
Defined.

(** X3.  The tree [ParseExpr] returns is the only one for what was read:
    every tree of binary expressions over the same operands and
    operators in the same order, in which a right operand binds strictly
    tighter than its operator and a left operand at least as tightly, is
    the tree returned. *)
Theorem X3_ParseExpr_tree_is_the_only_one :
  forall (rt : Runtime) (lx : Lexicon) (ts : TokenSource)
         (params : gmap string ParamValue) fuel s e s' t,
    ParseExpr params fuel s = Ok e s' ->
    climbed t = true ->
    inorder t = inorder e ->
    t = e.
Proof.
  intros rt lx ts params fuel s e s' t Hp Hc Heq.
  exact (ParseExpr_canonical params fuel s e s' t Hp Hc Heq).
Qed.

Lemma X3_ParseExpr_tree_is_the_only_one_witness :
  let s0 := newBufScanner "a + b * c - d" in
  let e := BinaryExpr SUB
             (BinaryExpr ADD (Ref.var "a")
                (BinaryExpr MUL (Ref.var "b") (Ref.var "c")))
             (Ref.var "d") in
  let s' := Ref.stateOf (ParseExpr ∅ 8 s0) in
  let t := rebuild [(SUB, BinaryExpr ADD (Ref.var "a")
                            (BinaryExpr MUL (Ref.var "b") (Ref.var "c")))]
             (Ref.var "d") in
  ParseExpr ∅ 8 s0 = Ok e s'
  /\ climbed t = true
  /\ inorder t = inorder e
  /\ t = e.
Proof.
  intros s0 e s' t.
  assert (Hp : ParseExpr ∅ 8 s0 = Ok e s') by (vm_compute; reflexivity).
  assert (Hc : climbed t = true) by (vm_compute; reflexivity).
  assert (Hin : inorder t = inorder e) by (vm_compute; reflexivity).
  split; [exact Hp|]. split; [exact Hc|]. split; [exact Hin|].
  exact (X3_ParseExpr_tree_is_the_only_one
           Ref.runtime Ref.lexicon Ref.source ∅ 8%nat s0 e s' t Hp Hc Hin).
Defined.

(** *** The nodes of a parsed expression *)

(** X4.  In an expression [ParseExpr] returns, the name of every call,
    at any depth, is what [strings.ToLower] returned for a text:
    [parseCall] lowers the name it is given.  Where lowering a lowered
    text changes nothing, lowering such a name gives the name back. *)
Theorem X4_call_names_are_lower_case :
  forall (rt : Runtime) (lx : Lexicon) (ts : TokenSource)
         (params : gmap string ParamValue) fuel s e s' name args,
    ParseExpr params fuel s = Ok e s' ->
    subexpr (Call name args) e ->
    (exists raw, name = ToLower raw)
    /\ ((forall t, ToLower (ToLower t) = ToLower t) -> ToLower name = name).
Proof.
  intros rt lx ts params fuel s e s' name args Hp Hsub.
  apply (ParseExpr_wellFormed params) in Hp.
  apply (wellFormed_subexpr _ _ Hsub) in Hp.
  destruct Hp as [(raw & ->) _]. split; [exists raw; reflexivity|].
  intros Hidem. apply Hidem.
Qed.

Lemma X4_call_names_are_lower_case_witness :
  let s0 := newBufScanner "MEAN(value) + 1" in
  let e := BinaryExpr ADD (Call "mean" [Ref.var "value"]) (IntegerLiteral 1) in
  ParseExpr ∅ 8 s0 = Ok e (Ref.stateOf (ParseExpr ∅ 8 s0))
  /\ subexpr (Call "mean" [Ref.var "value"]) e
  /\ (forall t, ToLower (ToLower t) = ToLower t)
  /\ (exists raw, "mean" = ToLower raw)
  /\ ToLower "mean" = "mean".
Proof.
  intros s0 e.
  assert (Hp : ParseExpr ∅ 8 s0 = Ok e (Ref.stateOf (ParseExpr ∅ 8 s0)))
    by (vm_compute; reflexivity).
  assert (Hsub : subexpr (Call "mean" [Ref.var "value"]) e)
    by (apply sub_lhs, sub_here).
  assert (Hidem : forall t, ToLower (ToLower t) = ToLower t)
    by exact asciiToLower_idempotent.
  destruct (X4_call_names_are_lower_case
              Ref.runtime Ref.lexicon Ref.source ∅ 8%nat s0 e _ _ _ Hp Hsub)
    as [Hraw Hfix].
  split; [exact Hp|]. split; [exact Hsub|]. split; [exact Hidem|].
  split; [exact Hraw|]. exact (Hfix Hidem).
Defined.

(** X5.  In an expression [ParseExpr] returns, the operator of every
    binary expression, at any depth, is a token [isOperator] accepts; the
    [ILLEGAL] operator of the dummy root never shows. *)
Theorem X5_binary_operators_are_operators :
  forall (rt : Runtime) (lx : Lexicon) (ts : TokenSource)
         (params : gmap string ParamValue) fuel s e s' op l r,
    ParseExpr params fuel s = Ok e s' ->
    subexpr (BinaryExpr op l r) e ->
    isOperator op = true.
Proof.
  intros rt lx ts params fuel s e s' op l r Hp Hsub.
  apply (ParseExpr_wellFormed params) in Hp.
  apply (wellFormed_subexpr _ _ Hsub) in Hp. apply Hp.
Qed.

Lemma X5_binary_operators_are_operators_witness :
  let s0 := newBufScanner "(a + b) * c" in
  let e := BinaryExpr MUL
             (ParenExpr (BinaryExpr ADD (Ref.var "a") (Ref.var "b")))
             (Ref.var "c") in
  ParseExpr ∅ 8 s0 = Ok e (Ref.stateOf (ParseExpr ∅ 8 s0))
  /\ subexpr (BinaryExpr ADD (Ref.var "a") (Ref.var "b")) e
  /\ isOperator ADD = true.
Proof.
  intros s0 e.
  assert (Hp : ParseExpr ∅ 8 s0 = Ok e (Ref.stateOf (ParseExpr ∅ 8 s0)))
    by (vm_compute; reflexivity).
  assert (Hsub : subexpr (BinaryExpr ADD (Ref.var "a") (Ref.var "b")) e)
    by (apply sub_lhs, sub_paren, sub_here).
  split; [exact Hp|]. split; [exact Hsub|].
  exact (X5_binary_operators_are_operators
           Ref.runtime Ref.lexicon Ref.source ∅ 8%nat s0 e _ _ _ _ Hp Hsub).
Defined.

(** X6.  In an expression [ParseExpr] returns, every regex literal, at
    any depth, holds the value [regexp.Compile] returned for some
    pattern: no regex reaches the tree without having compiled. *)
Theorem X6_regex_literals_are_compiled :
  forall (rt : Runtime) (lx : Lexicon) (ts : TokenSource)
         (params : gmap string ParamValue) fuel s e s' re,
    ParseExpr params fuel s = Ok e s' ->
    subexpr (RegexLiteral re) e ->
    exists pattern, regexp_Compile pattern = inl re.
Proof.
  intros rt lx ts params fuel s e s' re Hp Hsub.
  apply (ParseExpr_wellFormed params) in Hp.
  apply (wellFormed_subexpr _ _ Hsub) in Hp. apply Hp.
Qed.

Lemma X6_regex_literals_are_compiled_witness :
  let s0 := newBufScanner "host =~ /web.*/" in
  let e := BinaryExpr EQREGEX (Ref.var "host") (RegexLiteral "web.*") in
  ParseExpr ∅ 8 s0 = Ok e (Ref.stateOf (ParseExpr ∅ 8 s0))
  /\ subexpr (RegexLiteral "web.*") e
  /\ exists pattern, regexp_Compile pattern = inl "web.*".
Proof.
  intros s0 e.
  assert (Hp : ParseExpr ∅ 8 s0 = Ok e (Ref.stateOf (ParseExpr ∅ 8 s0)))
    by (vm_compute; reflexivity).
  assert (Hsub : subexpr (RegexLiteral "web.*") e)
    by (apply sub_rhs, sub_here).
  split; [exact Hp|]. split; [exact Hsub|].
  exact (X6_regex_literals_are_compiled
           Ref.runtime Ref.lexicon Ref.source ∅ 8%nat s0 e _ _ Hp Hsub).
Defined.

(** *** Fields, sources, statements *)

(** X8.  A field [parseField] returns holds no comparison and no
    boolean-logic operator: no binary expression of its expression, at
    any depth, inside parentheses and inside the arguments of a call as
    well, has such an operator. *)
Theorem X8_accepted_field_has_no_boolean_operator :
  forall (rt : Runtime) (lx : Lexicon) (ts : TokenSource)
         (params : gmap string ParamValue) fuel s f s' op l r,
    parseField params fuel s = Ok f s' ->
    subexpr (BinaryExpr op l r) (FExpr f) ->
    isBooleanOp op = false.
Proof.
  intros rt lx ts params fuel s f s' op l r Hp Hsub.
  apply (parseField_accepted params) in Hp as (Hn & _).
  destruct (isBooleanOp op) eqn:Hop; [|reflexivity].
  assert (Hc : containsBooleanOp (FExpr f)) by (exists op, l, r; auto).
  apply hasBooleanOp_containsBooleanOp in Hc. congruence.
Qed.

Lemma X8_accepted_field_has_no_boolean_operator_witness :
  let s0 := newBufScanner "sum(a) / (b + 1) AS ratio FROM m" in
  let f := mkField
             (BinaryExpr DIV (Call "sum" [Ref.var "a"])
                (ParenExpr (BinaryExpr ADD (Ref.var "b") (IntegerLiteral 1))))
             "ratio" in
  parseField ∅ 8 s0 = Ok f (Ref.stateOf (parseField ∅ 8 s0))
  /\ subexpr (BinaryExpr ADD (Ref.var "b") (IntegerLiteral 1)) (FExpr f)
  /\ isBooleanOp ADD = false.
Proof.
  intros s0 f.
  assert (Hp : parseField ∅ 8 s0 = Ok f (Ref.stateOf (parseField ∅ 8 s0)))
    by (vm_compute; reflexivity).
  assert (Hsub : subexpr (BinaryExpr ADD (Ref.var "b") (IntegerLiteral 1))
                   (FExpr f))
    by (apply sub_rhs, sub_paren, sub_here).
  split; [exact Hp|]. split; [exact Hsub|].
  exact (X8_accepted_field_has_no_boolean_operator
           Ref.runtime Ref.lexicon Ref.source ∅ 8%nat s0 f _ _ _ _ Hp Hsub).
Defined.

(** X9.  A SELECT statement [parseSelectStatement] returns has at least
    one field and at least one source, passed the validation hook, and
    none of its fields holds a comparison or a boolean-logic operator. *)
Theorem X9_select_statement_is_complete :
  forall (rt : Runtime) (lx : Lexicon) (ts : TokenSource)
         (params : gmap string ParamValue)
         (validate : SelectStatement -> option error) fuel s stmt s',
    parseSelectStatement params validate fuel s = Ok stmt s' ->
    SFields stmt <> [] /\ SSources stmt <> []
    /\ validate stmt = None
    /\ Forall (fun f => hasBooleanOp (FExpr f) = false) (SFields stmt).
Proof.
  intros rt lx ts params validate fuel s stmt s' Hp.
  apply parseSelectStatement_shape in Hp as (Hf & Hs & Hall & _ & _ & Hv).
  split; [exact Hf|]. split; [exact Hs|]. split; [exact Hv|].
  eapply List.Forall_impl; [|exact Hall].
  intros f (Hn & _). exact Hn.
Qed.

Lemma X9_select_statement_is_complete_witness :
  let s0 := Ref.stateOf (scanIgnoreWhitespace
                           (newBufScanner "SELECT a, b FROM m WHERE a > 1")) in
  let stmt := mkSelectStatement
                [mkField (Ref.var "a") ""; mkField (Ref.var "b") ""]
                [mkMeasurement "" "" "m" None]
                (BinaryExpr GT (Ref.var "a") (IntegerLiteral 1)) true in
  let s1 := Ref.stateOf (parseSelectStatement ∅ (fun _ => None) 8 s0) in
  parseSelectStatement ∅ (fun _ => None) 8 s0 = Ok stmt s1
  /\ SFields stmt <> [] /\ SSources stmt <> []
  /\ (fun _ : SelectStatement => @None error) stmt = None
  /\ Forall (fun f => hasBooleanOp (FExpr f) = false) (SFields stmt).
Proof.
  intros s0 stmt s1.
  assert (Hp : parseSelectStatement ∅ (fun _ => None) 8 s0 = Ok stmt s1)
    by (vm_compute; reflexivity).
  split; [exact Hp|].
  exact (X9_select_statement_is_complete
           Ref.runtime Ref.lexicon Ref.source ∅ (fun _ => None) 8%nat
           s0 stmt s1 Hp).
Defined.

(** X10.  A measurement [parseSource] returns with a regex has no name,
    and the regex is a value [regexp.Compile] returned: a source is named
    or matched, never both. *)
Theorem X10_source_with_regex_has_no_name :
  forall (rt : Runtime) (lx : Lexicon) (ts : TokenSource) fuel s m s' re,
    parseSource fuel s = Ok m s' ->
    Regex m = Some re ->
    Name m = "" /\ exists pattern, regexp_Compile pattern = inl re.
Proof.
  intros rt lx ts fuel s m s' re Hp Hre.
  apply parseSource_shape in Hp. rewrite Hre in Hp. exact Hp.
Qed.

Lemma X10_source_with_regex_has_no_name_witness :
  let s0 := newBufScanner "db.rp./cpu.*/" in
  let m := mkMeasurement "db" "rp" "" (Some "cpu.*") in
  parseSource 8 s0 = Ok m (Ref.stateOf (parseSource 8 s0))
  /\ Regex m = Some "cpu.*"
  /\ Name m = "" /\ exists pattern, regexp_Compile pattern = inl "cpu.*".
Proof.
  intros s0 m.
  assert (Hp : parseSource 8 s0 = Ok m (Ref.stateOf (parseSource 8 s0)))
    by (vm_compute; reflexivity).
  split; [exact Hp|]. split; [reflexivity|].
  exact (X10_source_with_regex_has_no_name
           Ref.runtime Ref.lexicon Ref.source 8%nat s0 m _ "cpu.*"
           Hp eq_refl).
Defined.

(** X11.  Every statement of a query [ParseQuery] returns passed the
    validation hook and has at least one field and one source. *)
Theorem X11_query_statements_are_validated :
  forall (rt : Runtime) (lx : Lexicon) (ts : TokenSource)
         (params : gmap string ParamValue)
         (validate : SelectStatement -> option error) fuel s q s',
    ParseQuery params validate fuel s = Ok q s' ->
    Forall (fun st => match st with
                      | StmtSelect stmt =>
                          validate stmt = None
                          /\ SFields stmt <> [] /\ SSources stmt <> []
                      end) (Statements q).
Proof.
  intros rt lx ts params validate fuel s q s' Hp. unfold ParseQuery in Hp.
  apply queryLoop_added in Hp as (added & -> & Hall). exact Hall.
Qed.

Lemma X11_query_statements_are_validated_witness :
  let s0 := newBufScanner "SELECT a FROM m; SELECT max(b) FROM n" in
  let q := mkQuery
             [StmtSelect (mkSelectStatement [mkField (Ref.var "a") ""]
                            [mkMeasurement "" "" "m" None] NilExpr true);
              StmtSelect (mkSelectStatement
                            [mkField (Call "max" [Ref.var "b"]) ""]
                            [mkMeasurement "" "" "n" None] NilExpr false)] in
  let s1 := Ref.stateOf (ParseQuery ∅ (fun _ => None) 16 s0) in
  ParseQuery ∅ (fun _ => None) 16 s0 = Ok q s1
  /\ Forall (fun st => match st with
                       | StmtSelect stmt =>
                           (fun _ : SelectStatement => @None error) stmt = None
                           /\ SFields stmt <> [] /\ SSources stmt <> []
                       end) (Statements q).
Proof.
  intros s0 q s1.
  assert (Hp : ParseQuery ∅ (fun _ => None) 16 s0 = Ok q s1)
    by (vm_compute; reflexivity).
  split; [exact Hp|].
  exact (X11_query_statements_are_validated
           Ref.runtime Ref.lexicon Ref.source ∅ (fun _ => None) 16%nat
           s0 q s1 Hp).
Defined.

(** *** Sequences of tokens, lists *)

(** X12.  [parseTokens] on a sequence followed by another is [parseTokens]
    on the first and then, when that succeeds, on the second, from the
    scanner the first call left; an error of the first is the error of
    the whole. *)
Theorem X12_parseTokens_of_a_concatenation :
  forall (rt : Runtime) (lx : Lexicon) (ts : TokenSource) toks1 toks2 s,
    parseTokens (toks1 ++ toks2) s
    = bind (parseTokens toks1) (fun _ => parseTokens toks2) s.
Proof. intros. apply parseTokens_app. Qed.

(** X13.  The only error of [parseTokens] is a found/expected
    [ParseError] without a message, whose one expected text is the
    printed name of a token of the sequence asked for. *)
Theorem X13_parseTokens_reports_an_expected_token :
  forall (rt : Runtime) (lx : Lexicon) (ts : TokenSource) toks s e,
    parseTokens toks s = Err e ->
    exists t found pos,
      In t toks /\ e = EParse (newParseError found [Token_String t] pos).
Proof. intros rt lx ts toks s e He. exact (parseTokens_Err toks s e He). Qed.

Lemma X13_parseTokens_reports_an_expected_token_witness :
  let s0 := newBufScanner "SELECT value cpu" in
  let e := EParse (newParseError "value" ["FROM"] (mkPos 0 7)) in
  parseTokens [SELECT; FROM] s0 = Err e
  /\ exists t found pos,
       In t [SELECT; FROM]
       /\ e = EParse (newParseError found [Token_String t] pos).
Proof.
  intros s0 e.
  assert (He : parseTokens [SELECT; FROM] s0 = Err e)
    by (vm_compute; reflexivity).
  split; [exact He|].
  exact (X13_parseTokens_reports_an_expected_token
           Ref.runtime Ref.lexicon Ref.source [SELECT; FROM] s0 e He).
Defined.

(** X14.  [parseIdentList] and [parseStringList] never return an empty
    list: the first element is the identifier, or the string, that
    [parseIdent], or [parseString], reads at the start. *)
Theorem X14_lists_start_with_the_first_element :
  forall (rt : Runtime) (lx : Lexicon) (ts : TokenSource) fuel s res s',
    (parseIdentList fuel s = Ok res s' ->
     exists first s1 rest,
       parseIdent s = Ok first s1 /\ res = first :: rest)
    /\ (parseStringList fuel s = Ok res s' ->
        exists first s1 rest,
          parseString s = Ok first s1 /\ res = first :: rest).
Proof.
  intros rt lx ts fuel s res s'. split; intros Hp.
  - exact (parseIdentList_Ok fuel s res s' Hp).
  - exact (parseStringList_Ok fuel s res s' Hp).
Qed.

Lemma X14_lists_start_with_the_first_element_witness :
  let s0 := newBufScanner "host, region ,dc FROM" in
  let t0 := newBufScanner "'a', 'b c'" in
  (parseIdentList 8 s0
   = Ok ["host"; "region"; "dc"] (Ref.stateOf (parseIdentList 8 s0))
   /\ exists first s1 rest,
        parseIdent s0 = Ok first s1
        /\ ["host"; "region"; "dc"] = first :: rest)
  /\ (parseStringList 8 t0
      = Ok ["a"; "b c"] (Ref.stateOf (parseStringList 8 t0))
      /\ exists first s1 rest,
           parseString t0 = Ok first s1 /\ ["a"; "b c"] = first :: rest).
Proof.
  intros s0 t0.
  assert (Hi : parseIdentList 8 s0
               = Ok ["host"; "region"; "dc"]
                    (Ref.stateOf (parseIdentList 8 s0)))
    by (vm_compute; reflexivity).
  assert (Hs : parseStringList 8 t0
               = Ok ["a"; "b c"] (Ref.stateOf (parseStringList 8 t0)))
    by (vm_compute; reflexivity).
  split; (split; [assumption|]).
  - exact (proj1 (X14_lists_start_with_the_first_element
                    Ref.runtime Ref.lexicon Ref.source 8%nat s0 _ _) Hi).
  - exact (proj2 (X14_lists_start_with_the_first_element
                    Ref.runtime Ref.lexicon Ref.source 8%nat t0 _ _) Hs).
Defined.

(** *** Numbers *)

(** X15.  A number [parseInt] returns lies between the two bounds it was
    given, and is what [strconv.Atoi] reads from the lexeme of the
    [INTEGER] token scanned; the scanner is left after that token. *)
Theorem X15_parseInt_is_within_bounds :
  forall (rt : Runtime) (lx : Lexicon) (ts : TokenSource)
         (Atoi : string -> Z + string) min max s n s',
    parseInt Atoi min max s = Ok n s' ->
    min <= n <= max
    /\ exists pos lit,
         scanIgnoreWhitespace s = Ok (INTEGER, pos, lit) s'
         /\ Atoi lit = inl n.
Proof.
  intros rt lx ts Atoi min max s n s' Hp.
  destruct (parseInt_Ok Atoi min max s n s' Hp) as (pos & lit & Hs & Ha & Hr).
  split; [exact Hr|]. exists pos, lit. auto.
Qed.

Lemma X15_parseInt_is_within_bounds_witness :
  let s0 := newBufScanner " 42 rest" in
  let s1 := Ref.stateOf (parseInt RefNum.Atoi 0 100 s0) in
  parseInt RefNum.Atoi 0 100 s0 = Ok 42 s1
  /\ 0 <= 42 <= 100
  /\ exists pos lit,
       scanIgnoreWhitespace s0 = Ok (INTEGER, pos, lit) s1
       /\ RefNum.Atoi lit = inl 42.
Proof.
  intros s0 s1.
  assert (Hp : parseInt RefNum.Atoi 0 100 s0 = Ok 42 s1)
    by (vm_compute; reflexivity).
  split; [exact Hp|].
  exact (X15_parseInt_is_within_bounds
           Ref.runtime Ref.lexicon Ref.source RefNum.Atoi 0 100 s0 42 s1 Hp).
Defined.

(** X16.  When the next token that is not whitespace is an [INTEGER]
    whose number is below [min] or above [max], [parseInt] fails with
    the message "invalid value n: must be min <= n <= max" at the
    position of that token. *)
Theorem X16_parseInt_rejects_out_of_bounds :
  forall (rt : Runtime) (lx : Lexicon) (ts : TokenSource)
         (Atoi : string -> Z + string) min max s pos lit s1 n,
    scanIgnoreWhitespace s = Ok (INTEGER, pos, lit) s1 ->
    Atoi lit = inl n ->
    n < min \/ max < n ->
    parseInt Atoi min max s
    = Err (EParse (messageError
             ("invalid value " ++ itoa n ++ ": must be " ++ itoa min
              ++ " <= n <= " ++ itoa max) pos)).
Proof.
  intros rt lx ts Atoi min max s pos lit s1 n Hs Ha Hr.
  exact (parseInt_out_of_range Atoi min max s pos lit s1 n Hs Ha Hr).
Qed.

Lemma X16_parseInt_rejects_out_of_bounds_witness :
  let s0 := newBufScanner " 420" in
  let s1 := Ref.stateOf (scanIgnoreWhitespace s0) in
  scanIgnoreWhitespace s0 = Ok (INTEGER, mkPos 0 1, "420") s1
  /\ RefNum.Atoi "420" = inl 420
  /\ (420 < 0 \/ 100 < 420)
  /\ parseInt RefNum.Atoi 0 100 s0
     = Err (EParse (messageError
              ("invalid value " ++ itoa 420 ++ ": must be " ++ itoa 0
               ++ " <= n <= " ++ itoa 100) (mkPos 0 1)))
  /\ error_Error (EParse (messageError
              ("invalid value " ++ itoa 420 ++ ": must be " ++ itoa 0
               ++ " <= n <= " ++ itoa 100) (mkPos 0 1)))
     = "invalid value 420: must be 0 <= n <= 100 at line 1, char 2".
Proof.
  intros s0 s1.
  assert (Hs : scanIgnoreWhitespace s0 = Ok (INTEGER, mkPos 0 1, "420") s1)
    by (vm_compute; reflexivity).
  assert (Ha : RefNum.Atoi "420" = inl 420) by (vm_compute; reflexivity).
  assert (Hr : 420 < 0 \/ 100 < 420) by (right; lia).
  split; [exact Hs|]. split; [exact Ha|]. split; [exact Hr|].
  split; [|vm_compute; reflexivity].
  exact (X16_parseInt_rejects_out_of_bounds
           Ref.runtime Ref.lexicon Ref.source RefNum.Atoi 0 100 s0
           (mkPos 0 1) "420" s1 420 Hs Ha Hr).
Defined.





(** X18.  A number [parseOptionalTokenAndInt] returns is never negative.
    When the next token that is not whitespace is not the token asked
    for, the method returns 0 and pushes that token back; when it is,
    the number is the one [strconv.ParseInt] gives for the [INTEGER]
    token that follows. *)
Theorem X18_optional_number_is_not_negative :
  forall (rt : Runtime) (lx : Lexicon) (ts : TokenSource)
         (ParseInt_value : string -> Z) t s n s',
    parseOptionalTokenAndInt ParseInt_value t s = Ok n s' ->
    0 <= n
    /\ exists tok pos lit s1,
         scanIgnoreWhitespace s = Ok (tok, pos, lit) s1
         /\ ((tok <> t /\ n = 0 /\ s' = Unscan s1)
             \/ (tok = t
                 /\ exists pos1 lit1,
                      scanIgnoreWhitespace s1 = Ok (INTEGER, pos1, lit1) s'
                      /\ n = ParseInt_value lit1)).
Proof.
  intros rt lx ts ParseInt_value t s n s' Hp.
  exact (parseOptionalTokenAndInt_Ok ParseInt_value t s n s' Hp).
Qed.

Lemma X18_optional_number_is_not_negative_witness :
  let s0 := newBufScanner ", 25" in
  let s1 := Ref.stateOf (parseOptionalTokenAndInt RefNum.ParseInt_value
                           COMMA s0) in
  parseOptionalTokenAndInt RefNum.ParseInt_value COMMA s0 = Ok 25 s1
  /\ 0 <= 25
  /\ exists tok pos lit s2,
       scanIgnoreWhitespace s0 = Ok (tok, pos, lit) s2
       /\ ((tok <> COMMA /\ 25 = 0 /\ s1 = Unscan s2)
           \/ (tok = COMMA
               /\ exists pos1 lit1,
                    scanIgnoreWhitespace s2 = Ok (INTEGER, pos1, lit1) s1
                    /\ 25 = RefNum.ParseInt_value lit1)).
Proof.
  intros s0 s1.
  assert (Hp : parseOptionalTokenAndInt RefNum.ParseInt_value COMMA s0
               = Ok 25 s1) by (vm_compute; reflexivity).
  split; [exact Hp|].
  exact (X18_optional_number_is_not_negative
           Ref.runtime Ref.lexicon Ref.source RefNum.ParseInt_value
           COMMA s0 25 s1 Hp).
Defined.

(** X19.  [parseTokenMaybe] returns true exactly when [parseTokens] on
    that one token succeeds, and leaves the same scanner; when it
    returns false the token it looked at is another one and is pushed
    back. *)
Theorem X19_parseTokenMaybe_agrees_with_parseTokens :
  forall (rt : Runtime) (lx : Lexicon) (ts : TokenSource) t s s',
    (parseTokenMaybe t s = Ok true s' <-> parseTokens [t] s = Ok tt s')
    /\ (parseTokenMaybe t s = Ok false s' ->
        exists tok pos lit s1,
          scanIgnoreWhitespace s = Ok (tok, pos, lit) s1
          /\ tok <> t /\ s' = Unscan s1).
Proof.
  intros rt lx ts t s s'. split.
  - apply parseTokenMaybe_parseTokens.
  - apply parseTokenMaybe_false.
Qed.

Lemma X19_parseTokenMaybe_agrees_with_parseTokens_witness :
  let s0 := newBufScanner " FROM cpu" in
  let s1 := Ref.stateOf (parseTokenMaybe FROM s0) in
  let s2 := Ref.stateOf (parseTokenMaybe WHERE s0) in
  (parseTokenMaybe FROM s0 = Ok true s1
   /\ parseTokens [FROM] s0 = Ok tt s1)
  /\ (parseTokenMaybe WHERE s0 = Ok false s2
      /\ exists tok pos lit s3,
           scanIgnoreWhitespace s0 = Ok (tok, pos, lit) s3
           /\ tok <> WHERE /\ s2 = Unscan s3).
Proof.
  intros s0 s1 s2.
  assert (Ht : parseTokenMaybe FROM s0 = Ok true s1)
    by (vm_compute; reflexivity).
  assert (Hf : parseTokenMaybe WHERE s0 = Ok false s2)
    by (vm_compute; reflexivity).
  split; (split; [assumption|]).
  - exact (proj1 (proj1 (X19_parseTokenMaybe_agrees_with_parseTokens
                           Ref.runtime Ref.lexicon Ref.source FROM s0 s1))
             Ht).
  - exact (proj2 (X19_parseTokenMaybe_agrees_with_parseTokens
                    Ref.runtime Ref.lexicon Ref.source WHERE s0 s2) Hf).
Defined.

(** *** The declared type of a variable reference *)

(** X20.  After the segments and a double colon, an identifier whose
    lower-case form is none of float, integer, string and boolean makes
    [parseVarRef] fail with a found/expected error at that identifier.
    The expected texts of the error are float, integer, string, boolean,
    field and tag: the last two are listed and are rejected as well. *)
Theorem X20_declared_type_is_one_of_four :
  forall (rt : Runtime) (lx : Lexicon) (ts : TokenSource)
         fuel s segments s1 p0 l0 s2 pos lit s3,
    parseSegmentedIdents fuel s = Ok segments s1 ->
    scan s1 = Ok (DOUBLECOLON, p0, l0) s2 ->
    scan s2 = Ok (IDENT, pos, lit) s3 ->
    ~ In (ToLower lit) ["float"; "integer"; "string"; "boolean"] ->
    parseVarRef fuel s
    = Err (EParse (newParseError (tokstr IDENT lit)
                     ["float"; "integer"; "string"; "boolean"; "field"; "tag"]
                     pos)).
Proof.
  intros rt lx ts fuel s segments s1 p0 l0 s2 pos lit s3 Hseg Hs1 Hs2 Hno.
  apply (parseVarRef_type_rejected fuel s segments s1 p0 l0 s2 pos lit s3);
    try assumption; intros Heq; apply Hno; rewrite Heq; cbn; auto.
Qed.

Lemma X20_declared_type_is_one_of_four_witness :
  let s0 := newBufScanner "usage::field" in
  let s1 := Ref.stateOf (parseSegmentedIdents 8 s0) in
  let s2 := Ref.stateOf (scan s1) in
  let s3 := Ref.stateOf (scan s2) in
  parseSegmentedIdents 8 s0 = Ok ["usage"] s1
  /\ scan s1 = Ok (DOUBLECOLON, mkPos 0 5, "") s2
  /\ scan s2 = Ok (IDENT, mkPos 0 7, "field") s3
  /\ ~ In (ToLower "field") ["float"; "integer"; "string"; "boolean"]
  /\ parseVarRef 8 s0
     = Err (EParse (newParseError (tokstr IDENT "field")
                      ["float"; "integer"; "string"; "boolean"; "field";
                       "tag"] (mkPos 0 7)))
  /\ error_Error (EParse (newParseError (tokstr IDENT "field")
                      ["float"; "integer"; "string"; "boolean"; "field";
                       "tag"] (mkPos 0 7)))
     = "found field, expected float, integer, string, boolean, field, tag at line 1, char 8".
Proof.
  intros s0 s1 s2 s3.
  assert (H0 : parseSegmentedIdents 8 s0 = Ok ["usage"] s1)
    by (vm_compute; reflexivity).
  assert (H1 : scan s1 = Ok (DOUBLECOLON, mkPos 0 5, "") s2)
    by (vm_compute; reflexivity).
  assert (H2 : scan s2 = Ok (IDENT, mkPos 0 7, "field") s3)
    by (vm_compute; reflexivity).
  assert (Hno : ~ In (ToLower "field")
                     ["float"; "integer"; "string"; "boolean"]).
  { cbn. intros [Hx|[Hx|[Hx|[Hx|[]]]]]; discriminate Hx. }
  split; [exact H0|]. split; [exact H1|]. split; [exact H2|].
  split; [exact Hno|]. split; [|vm_compute; reflexivity].
  exact (X20_declared_type_is_one_of_four
           Ref.runtime Ref.lexicon Ref.source 8%nat s0 ["usage"] s1
           (mkPos 0 5) "" s2 (mkPos 0 7) "field" s3 H0 H1 H2 Hno).
Defined.

(** *** Quoted texts *)

(** X21.  [QuoteString] writes different texts for different strings. *)
Theorem X21_QuoteString_is_injective :
  forall s1 s2 : string,
    s1 <> s2 -> QuoteString s1 <> QuoteString s2.
Proof.
  intros s1 s2 Hne Heq. apply Hne, QuoteString_injective_text, Heq.
Qed.

Lemma X21_QuoteString_is_injective_witness :
  "it's" <> "it\'s"
  /\ QuoteString "it's" = "'it\'s'"
  /\ QuoteString "it\'s" = "'it\\\'s'"
  /\ QuoteString "it's" <> QuoteString "it\'s".
Proof.
  assert (Hne : "it's" <> "it\'s") by discriminate.
  split; [exact Hne|]. split; [vm_compute; reflexivity|].
  split; [vm_compute; reflexivity|].
  exact (X21_QuoteString_is_injective "it's" "it\'s" Hne).
Defined.

(** X22.  [QuoteIdent] on one segment writes different texts for
    different segments, whatever the keyword table and the character
    classes decide about quoting. *)
Theorem X22_QuoteIdent_of_one_segment_is_injective :
  forall (lx : Lexicon) (s1 s2 : string),
    s1 <> s2 -> QuoteIdent [s1] <> QuoteIdent [s2].
Proof.
  intros lx s1 s2 Hne Heq. apply Hne, QuoteIdent_single_injective, Heq.
Qed.

Lemma X22_QuoteIdent_of_one_segment_is_injective_witness :
  "cpu" <> "select"
  /\ QuoteIdent ["cpu"] = "cpu"
  /\ QuoteIdent ["select"] = Ref.dq "select"
  /\ QuoteIdent ["cpu"] <> QuoteIdent ["select"].
Proof.
  assert (Hne : "cpu" <> "select") by discriminate.
  split; [exact Hne|]. split; [vm_compute; reflexivity|].
  split; [vm_compute; reflexivity|].
  exact (X22_QuoteIdent_of_one_segment_is_injective
           Ref.lexicon "cpu" "select" Hne).
Defined.

(** X23.  The texts [QuoteString] and [QuoteIdent] write hold no line
    break: every rune of them, as [split] lists them, is another one. *)
Theorem X23_quoted_texts_hold_no_line_break :
  forall (lx : Lexicon) (s : string) (segments : list string),
    Forall (fun r => r <> newline) (split (QuoteString s))
    /\ Forall (fun r => r <> newline) (split (QuoteIdent segments)).
Proof.
  intros lx s segments. split; apply List.Forall_forall; intros r Hin ->.
  - unfold QuoteString in Hin. rewrite !split_append in Hin.
    repeat (apply List.in_app_or in Hin as [Hin|Hin]).
    + cbn in Hin. destruct Hin as [Hin|[]]. discriminate Hin.
    + exact (qsReplace_no_newline _ Hin).
    + cbn in Hin. destruct Hin as [Hin|[]]. discriminate Hin.
  - exact (QuoteIdent_no_newline segments Hin).
Qed.
